(** * RcppML: NNLS, projection and NMF by alternating least squares

    A shallow embedding of [src/RcppML.cpp].

    Numbers.  A C++ [double] is modelled by an exact rational ([Q]) kept in
    lowest terms: the development is about the control flow and the algebra
    of the solvers, rounding is abstracted away.  Comparisons are the boolean
    ones the code performs ([<] as [Qltb], [!=] as [Qneqb]).  Loop counters
    are [unsigned int] in the source; none of them can wrap (each is bounded
    by a size or by an iteration limit), so they are [nat] here.

    Three places where the machine arithmetic decides what the code does
    are modelled as such.  The sum [1 + cd_tol], which [c_cdnnls] compares
    with [cd_tol] to enter its loop, is rounded to the nearest double
    ([fl]): for a large [cd_tol] it is [cd_tol] itself.  The product
    [A.cols() * A.rows()] of the loss functions is a product of two [int]
    ([int_mul]), which wraps around.  A division by zero gives NaN or an
    infinity in the source and has no counterpart here (the quotient of
    [Q] by zero is 0): a property of a run that could meet one states that
    the divisors are not zero.

    Containers.  An [Eigen::VectorXd] is a [list Q].  An [Eigen::MatrixXd]
    (column-major in Eigen) is its row count together with the list of its
    columns.  The source is compiled with [EIGEN_NO_DEBUG], so an access out
    of range is undefined there; here a read out of range yields [0] and a
    write out of range does nothing.  [EIGEN_INITIALIZE_MATRICES_BY_ZERO]
    makes every freshly constructed matrix and vector all-zero.

    Library code.  Eigen's Cholesky ([llt()], [solve]), [std::sqrt] and
    [std::sort] are not part of the repository: they are operations of the
    class [Numerics].  Two instances run the code on concrete inputs:
    [ExactNumerics] (exact elimination, a rational square root, insertion
    sort) and [GccNumerics], the same with the [std::sort] of GCC. *)

From Stdlib Require Import List Arith Bool Lia ZArith QArith Qabs Qpower Lqa
  Permutation Sorted.
Import ListNotations.

Local Open Scope Q_scope.

(* ================================================================== *)
(** ** Scalars *)

(** A double: its exact value, in lowest terms. *)
Definition double : Set := Q.

Declare Scope double_scope.
Delimit Scope double_scope with D.
Bind Scope double_scope with double.

(** The arithmetic of doubles. *)
Definition dadd (x y : double) : double := Qred (x + y)%Q.
Definition dsub (x y : double) : double := Qred (x - y)%Q.
Definition dmul (x y : double) : double := Qred (x * y)%Q.
Definition ddiv (x y : double) : double := Qred (x / y)%Q.

Infix "+" := dadd : double_scope.
Infix "-" := dsub : double_scope.
Infix "*" := dmul : double_scope.
Infix "/" := ddiv : double_scope.
Local Open Scope double_scope.

(** [std::abs] *)
Definition dabs (x : double) : double := Qabs x.

(** [x < y] on doubles. *)
Definition Qltb (x y : double) : bool := negb (Qle_bool y x).

(** [x != y] on doubles. *)
Definition Qneqb (x y : double) : bool := negb (Qeq_bool x y).

(** The literals [1e-15] and [1e-16]. *)
Definition eps15 : double := 1 # 1000000000000000.
Definition eps16 : double := 1 # 10000000000000000.

(** Conversion of an [unsigned int] to [double]. *)
Definition Qnat (n : nat) : double := inject_Z (Z.of_nat n).

(** The integer nearest to [n / d], the even one of the two when [n / d]
    is half way between them. *)
Definition nearest_even (n d : Z) : Z :=
  let f := (n / d)%Z in
  let r2 := (2 * (n mod d))%Z in
  if (r2 <? d)%Z then f
  else if (d <? r2)%Z then (f + 1)%Z
  else if Z.even f then f else (f + 1)%Z.

(** [floor (log2 |q|)], for a [q] other than 0. *)
Definition binade (q : Q) : Z :=
  let e0 := (Z.log2 (Z.abs (Qnum q)) - Z.log2 (Zpos (Qden q)))%Z in
  if Qle_bool (2 ^ e0) (Qabs q) then e0 else (e0 - 1)%Z.

(** The double nearest to [q]: 53 significant bits, rounding to nearest
    with ties to even (the range of the exponent is left unbounded).  It
    is applied where the source relies on a sum being rounded. *)
Definition fl (q : Q) : double :=
  if Qeq_bool q 0 then 0
  else
    let u := (2 ^ (binade q - 52))%Q in
    let s := (q / u)%Q in
    Qred (inject_Z (nearest_even (Qnum s) (Zpos (Qden s))) * u)%Q.

(** [2^53]: from there on the doubles are more than 1 apart. *)
Definition two53 : double := 9007199254740992.

(** The product of two [int]: the 32-bit two's complement value, which is
    what the hardware leaves when the product does not fit. *)
Definition int_mul (a b : nat) : Z :=
  ((Z.of_nat a * Z.of_nat b + 2 ^ 31) mod 2 ^ 32 - 2 ^ 31)%Z.

(* ================================================================== *)
(** ** Vectors and matrices *)

Definition VectorXd := list double.

Record MatrixXd := mkMatrix {
  rows : nat;
  columns : list VectorXd
}.

Definition cols (m : MatrixXd) : nat := length (columns m).

(** [x(i)] *)
Definition vget (x : VectorXd) (i : nat) : double := nth i x 0.

(** [x(i) = v] *)
Fixpoint upd {A : Type} (i : nat) (v : A) (l : list A) : list A :=
  match l, i with
  | [], _ => []
  | _ :: t, O => v :: t
  | h :: t, S i' => h :: upd i' v t
  end.

(** [m.col(j)] *)
Definition col (m : MatrixXd) (j : nat) : VectorXd := nth j (columns m) [].

(** [m(i, j)] *)
Definition coef (m : MatrixXd) (i j : nat) : double := vget (col m j) i.

(** [m(i, j) = v] *)
Definition set_coef (m : MatrixXd) (i j : nat) (v : double) : MatrixXd :=
  mkMatrix (rows m) (upd j (upd i v (col m j)) (columns m)).

(** [m.row(i)] *)
Definition row (m : MatrixXd) (i : nat) : VectorXd :=
  map (fun c => vget c i) (columns m).

(** [m.row(i) = r] *)
Definition set_row (m : MatrixXd) (i : nat) (r : VectorXd) : MatrixXd :=
  mkMatrix (rows m)
           (map (fun jc => upd i (vget r (fst jc)) (snd jc))
                (combine (seq 0 (cols m)) (columns m))).

(** [Eigen::VectorXd v(n)] and [Eigen::MatrixXd m(r, c)], zero-initialised. *)
Definition zero_vec (n : nat) : VectorXd := repeat 0 n.
Definition zero_mat (r c : nat) : MatrixXd := mkMatrix r (repeat (zero_vec r) c).

(** [v.setOnes()] *)
Definition ones (n : nat) : VectorXd := repeat 1 n.

(** [v.sum()] *)
Definition vsum (v : VectorXd) : double := fold_left dadd v 0.

(** [m.transpose()] *)
Definition transpose (m : MatrixXd) : MatrixXd :=
  mkMatrix (cols m) (map (row m) (seq 0 (rows m))).

(** The inner product of two coefficient lists, over the length of the first. *)
Definition dot (u v : VectorXd) : double :=
  vsum (map (fun l => vget u l * vget v l) (seq 0 (length u))).

(** [a * x] for a matrix [a] and a vector [x]. *)
Definition mvec (a : MatrixXd) (x : VectorXd) : VectorXd :=
  map (fun i => dot (row a i) x) (seq 0 (rows a)).

(** [a * b] for two matrices. *)
Definition mmul (a b : MatrixXd) : MatrixXd :=
  mkMatrix (rows a) (map (mvec a) (columns b)).

(** [m.data()]: the coefficients in storage (column-major) order, and
    [m.size()]. *)
Definition data (m : MatrixXd) : list double := concat (columns m).
Definition size (m : MatrixXd) : nat := (rows m * cols m)%nat.

(** [(x.array() < 0).any()] *)
Definition any_neg (x : VectorXd) : bool := existsb (fun v => Qltb v 0) x.

(* ================================================================== *)
(** ** Library operations the source calls *)

Class Numerics := {
  (** [Eigen::LLT<Eigen::MatrixXd>] *)
  LLT : Type;
  (** [a.llt()] *)
  llt : MatrixXd -> LLT;
  (** [a_llt.solve(b)] *)
  llt_solve : LLT -> VectorXd -> VectorXd;
  (** [std::sqrt] *)
  std_sqrt : double -> double;
  (** [std::sort(first, last, comp)] on a vector of indices *)
  std_sort : (nat -> nat -> bool) -> list nat -> list nat
}.

(** What Eigen and the C++ standard promise of them: a solution has the
    size of its right-hand side, and sorting permutes its input. *)
Class NumericsSpec (N : Numerics) : Prop := {
  llt_solve_length : forall (f : LLT) (b : VectorXd),
      length (llt_solve f b) = length b;
  std_sort_perm : forall comp l, Permutation (std_sort comp l) l
}.

(* ================================================================== *)
(** ** Section 1 of the source: helper subroutines *)

(** [submat(arg, row_indices, col_indices)] *)
Definition submat (arg : MatrixXd) (row_indices col_indices : list nat) : MatrixXd :=
  mkMatrix (length row_indices)
           (map (fun c => map (fun r => coef arg r c) row_indices) col_indices).

(** The first loop of [find_gtz]: [n_gtz], the number of values of [x]
    greater than zero. *)
Definition count_gtz (x : VectorXd) : nat :=
  fold_left (fun n_gtz i => if Qltb 0 (vget x i) then S n_gtz else n_gtz)
            (seq 0 (length x)) 0%nat.

(** [find_gtz]: a vector [gtz] of size [n_gtz], then the second loop, which
    stores at [gtz[j]] each index [i] with [x[i] > 0] and increments [j]. *)
Definition find_gtz (x : VectorXd) : list nat :=
  let n_gtz := count_gtz x in
  fst (fold_left (fun gj i =>
                    if Qltb 0 (vget x i)
                    then (upd (snd gj) i (fst gj), S (snd gj))
                    else gj)
                 (seq 0 (length x)) (repeat 0%nat n_gtz, 0%nat)).

(** [reorder_rows] *)
Definition reorder_rows (x : MatrixXd) (ind : list nat) : MatrixXd :=
  fold_left (fun xr i => set_row xr i (row x (nth i ind 0%nat)))
            (seq 0 (length ind))
            (zero_mat (rows x) (cols x)).

(** [reorder] *)
Definition reorder (x : VectorXd) (ind : list nat) : VectorXd :=
  fold_left (fun xr i => upd i (vget x (nth i ind 0%nat)) xr)
            (seq 0 (length ind))
            (zero_vec (length x)).

Section Helpers.
Context {N : Numerics}.

(** [sort_index]: the sort index of [d] in decreasing order. *)
Definition sort_index (d : VectorXd) : list nat :=
  std_sort (fun i1 i2 => Qltb (vget d i2) (vget d i1)) (seq 0 (length d)).

(** The accumulators of [cor] after its loop over [i < n]. *)
Record cor_sums := mkCorSums {
  sum_x : double; sum_y : double; sum_xy : double; sum_x2 : double; sum_y2 : double
}.

Definition cor_step (x y : MatrixXd) (s : cor_sums) (i : nat) : cor_sums :=
  let x_i := nth i (data x) 0 in
  let y_i := nth i (data y) 0 in
  mkCorSums (sum_x s + x_i) (sum_y s + y_i) (sum_xy s + x_i * y_i)
            (sum_x2 s + x_i * x_i) (sum_y2 s + y_i * y_i).

(** [cor]: one minus the Pearson correlation of the two matrices, read as
    long vectors. *)
Definition cor (x y : MatrixXd) : double :=
  let n := size x in
  let s := fold_left (cor_step x y) (seq 0 n) (mkCorSums 0 0 0 0 0) in
  1 - (Qnat n * sum_xy s - sum_x s * sum_y s)
      / std_sqrt ((Qnat n * sum_x2 s - sum_x s * sum_x s)
                  * (Qnat n * sum_y2 s - sum_y s * sum_y s)).

End Helpers.

(* ================================================================== *)
(** ** Section 2 of the source: non-negative least squares *)

(** The variables of [c_cdnnls] that its loops update. *)
Record cd_state := mkCd {
  cd_x : VectorXd;
  cd_b0 : VectorXd;
  cd_tol_it : double
}.

(** The value [xi] proposed for coordinate [i]:
    [xi = x(i) - b0(i) / a(i, i); if (nonneg && xi < 0) xi = 0;] *)
Definition cd_proposal (a : MatrixXd) (nonneg : bool) (x b0 : VectorXd) (i : nat)
  : double :=
  let xi := vget x i - vget b0 i / coef a i i in
  if nonneg && Qltb xi 0 then 0 else xi.

(** The body of the inner loop of [c_cdnnls], for coordinate [i]. *)
Definition cd_coord (a : MatrixXd) (nonneg : bool) (s : cd_state) (i : nat)
  : cd_state :=
  let x := cd_x s in
  let b0 := cd_b0 s in
  let xi := cd_proposal a nonneg x b0 i in
  if Qneqb xi (vget x i) then
    let b0' := map (fun j => vget b0 j + coef a j i * (xi - vget x i))
                   (seq 0 (length b0)) in
    let cd_tol_xi := 2 * dabs (vget x i - xi) / (xi + vget x i + eps16) in
    let tol' := if Qltb (cd_tol_it s) cd_tol_xi then cd_tol_xi else cd_tol_it s in
    mkCd (upd i xi x) b0' tol'
  else s.

(** One sweep: [cd_tol_it = 0], then the inner loop over [i < x.size()]. *)
Definition cd_sweep (a : MatrixXd) (nonneg : bool) (s : cd_state) : cd_state :=
  fold_left (cd_coord a nonneg) (seq 0 (length (cd_x s)))
            (mkCd (cd_x s) (cd_b0 s) 0).

(** The outer loop [for (it = 0; it < cd_maxit && cd_tol_it > cd_tol; ++it)];
    [fuel] is [cd_maxit - it].  Returns the final state and the final [it],
    the number of sweeps made. *)
Fixpoint cd_loop (a : MatrixXd) (nonneg : bool) (cd_tol : double)
         (fuel : nat) (it : nat) (s : cd_state) : cd_state * nat :=
  match fuel with
  | O => (s, it)
  | S fuel' =>
      if Qltb cd_tol (cd_tol_it s)
      then cd_loop a nonneg cd_tol fuel' (S it) (cd_sweep a nonneg s)
      else (s, it)
  end.

(** The state [c_cdnnls] starts its loop in: [b0 = a * x - b] and
    [cd_tol_it = 1 + cd_tol].  The loop is entered when this sum is greater
    than [cd_tol], which in double it is not for a large [cd_tol]: the sum
    is rounded. *)
Definition cd_init (a : MatrixXd) (b x : VectorXd) (cd_tol : double) : cd_state :=
  let ax := mvec a x in
  mkCd x (map (fun i => vget ax i - vget b i) (seq 0 (length ax)))
       (fl (1 + cd_tol)%Q).

(** [c_cdnnls] together with the number of sweeps it made. *)
Definition c_cdnnls_run (a : MatrixXd) (b x : VectorXd)
           (cd_maxit : nat) (cd_tol : double) (nonneg : bool) : cd_state * nat :=
  cd_loop a nonneg cd_tol cd_maxit 0 (cd_init a b x cd_tol).

(** [c_cdnnls]: coordinate descent least squares given an initial [x]. *)
Definition c_cdnnls (a : MatrixXd) (b x : VectorXd)
           (cd_maxit : nat) (cd_tol : double) (nonneg : bool) : VectorXd :=
  cd_x (fst (c_cdnnls_run a b x cd_maxit cd_tol nonneg)).

Section NNLS.
Context {N : Numerics}.

(** The body of the feasible set reduction loop of [c_nnls]. *)
Definition fast_round (a : MatrixXd) (b x : VectorXd) : VectorXd :=
  let gtz_ind := find_gtz x in
  let bsub := map (vget b) gtz_ind in
  let asub := submat a gtz_ind gtz_ind in
  let xsub := llt_solve (llt asub) bsub in
  fold_left (fun x' i => upd (nth i gtz_ind 0%nat) (vget xsub i) x')
            (seq 0 (length gtz_ind))
            (zero_vec (length x)).

(** The loop [for (it = 0; nonneg && it < fast_maxit && (x.array() < 0).any(); ++it)];
    [fuel] is [fast_maxit - it]. *)
Fixpoint fast_loop (a : MatrixXd) (b : VectorXd) (nonneg : bool)
         (fuel : nat) (x : VectorXd) : VectorXd :=
  match fuel with
  | O => x
  | S fuel' =>
      if nonneg && any_neg x
      then fast_loop a b nonneg fuel' (fast_round a b x)
      else x
  end.

(** [c_nnls]: fast active set tuning given [a], [b] and a decomposition of [a]. *)
Definition c_nnls (a : MatrixXd) (b : VectorXd) (a_llt : LLT)
           (fast_maxit cd_maxit : nat) (cd_tol : double) (nonneg : bool) : VectorXd :=
  let x := fast_loop a b nonneg fast_maxit (llt_solve a_llt b) in
  if (cd_maxit =? 0)%nat && nonneg then x
  else c_cdnnls a b x cd_maxit cd_tol nonneg.

End NNLS.

(* ================================================================== *)
(** ** Section 3 of the source: the dgCMatrix class *)

(** A compressed sparse column matrix: row indices [i], column pointers
    [p], dimensions [Dim] and values [x]. *)
Record dgCMatrix := mkDgC {
  dg_i : list nat;
  dg_p : list nat;
  dg_Dim : nat * nat;
  dg_x : list double
}.

Definition dg_rows (A : dgCMatrix) : nat := fst (dg_Dim A).
Definition dg_cols (A : dgCMatrix) : nat := snd (dg_Dim A).

(** What an [InnerIterator] of column [c] yields, in order: the pairs
    [(row(), value())] for [index] from [p[c]] up to [p[c + 1]]. *)
Definition inner (A : dgCMatrix) (c : nat) : list (nat * double) :=
  let index := nth c (dg_p A) 0%nat in
  let max_index := nth (S c) (dg_p A) 0%nat in
  map (fun idx => (nth idx (dg_i A) 0%nat, nth idx (dg_x A) 0))
      (seq index (max_index - index)).

(* ================================================================== *)
(** ** Section 4 of the source: projecting linear factor models *)

(** [for (i = 0; i < a.cols(); ++i) a(i, i) += 1e-15;] *)
Definition add_ridge (a : MatrixXd) : MatrixXd :=
  fold_left (fun a' i => set_coef a' i i (coef a' i i + eps15))
            (seq 0 (cols a)) a.

(** [if (L1 != 0) for (j = 0; j < k; ++j) b(j) -= L1;] *)
Definition sub_L1 (L1 : double) (k : nat) (b : VectorXd) : VectorXd :=
  if Qneqb L1 0 then map (fun j => vget b j - L1) (seq 0 k) else b.

(** The right-hand side of column [i] of a sparse [A]: for each non-zero,
    [b(j) += it.value() * w(j, it.row())]. *)
Definition rhs_sparse (A : dgCMatrix) (w : MatrixXd) (k i : nat) : VectorXd :=
  fold_left (fun b e => map (fun j => vget b j + snd e * coef w j (fst e))
                            (seq 0 k))
            (inner A i) (zero_vec k).

(** The right-hand side of column [i] of a dense [A]:
    [b += A(it, i) * w.col(it)] for each row [it]. *)
Definition rhs_dense (A w : MatrixXd) (k i : nat) : VectorXd :=
  fold_left (fun b it => map (fun j => vget b j + coef A it i * coef w j it)
                             (seq 0 k))
            (seq 0 (rows A)) (zero_vec k).

Section Projection.
Context {N : Numerics}.

(** [c_project_sparse]; the columns are independent of each other, so the
    OpenMP loop is the sequential one. *)
Definition c_project_sparse (A : dgCMatrix) (w : MatrixXd) (nonneg : bool)
           (fast_maxit cd_maxit : nat) (cd_tol L1 : double) : MatrixXd :=
  let a := add_ridge (mmul w (transpose w)) in
  let a_llt := llt a in
  let k := rows a in
  mkMatrix k
    (map (fun i =>
            let b := sub_L1 L1 k (rhs_sparse A w k i) in
            c_nnls a b a_llt fast_maxit cd_maxit cd_tol nonneg)
         (seq 0 (dg_cols A))).

(** [Rcpp_project_dense] *)
Definition Rcpp_project_dense (A w : MatrixXd) (nonneg : bool)
           (fast_maxit cd_maxit : nat) (cd_tol L1 : double) : MatrixXd :=
  let a := add_ridge (mmul w (transpose w)) in
  let a_llt := llt a in
  let k := rows a in
  mkMatrix k
    (map (fun i =>
            let b := sub_L1 L1 k (rhs_dense A w k i) in
            c_nnls a b a_llt fast_maxit cd_maxit cd_tol nonneg)
         (seq 0 (cols A))).

End Projection.

(* ================================================================== *)
(** ** Section 6 of the source: factorization by alternating least squares *)

(** The variables the loop of a driver updates. *)
Record als_state := mkAls {
  als_w : MatrixXd;
  als_h : MatrixXd;
  als_d : VectorXd;
  als_tol : double
}.

(** What a driver returns: [w], [d], [h], [tol] and [iter]. *)
Record nmf_result := mkResult {
  res_w : MatrixXd;
  res_d : VectorXd;
  res_h : MatrixXd;
  res_tol : double;
  res_iter : nat
}.

(** The body of the loop "reset diagonal and scale", for factor row [i]:
    [d[i] = m.row(i).sum() + 1e-15; for (j < n) m(i, j) /= d(i);] *)
Definition rescale_row (n : nat) (md : MatrixXd * VectorXd) (i : nat)
  : MatrixXd * VectorXd :=
  let d' := upd i (vsum (row (fst md) i) + eps15) (snd md) in
  (fold_left (fun m j => set_coef m i j (coef m i j / vget d' i))
             (seq 0 n) (fst md),
   d').

(** [for (i = 0; diag && i < k; ++i) ...] *)
Definition rescale (diag : bool) (k n : nat) (m : MatrixXd) (d : VectorXd)
  : MatrixXd * VectorXd :=
  if diag then fold_left (rescale_row n) (seq 0 k) (m, d) else (m, d).

(** The loop [for (it = 0; it < maxit; ++it) { body; if (tol_ < tol) break; }]
    of the four drivers; [fuel] is [maxit - it].  Returns the state at the
    exit of the loop and the value of [it] there. *)
Fixpoint als_loop (body : als_state -> als_state) (tol : double)
         (fuel : nat) (it : nat) (s : als_state) : als_state * nat :=
  match fuel with
  | O => (s, it)
  | S fuel' =>
      let s' := body s in
      if Qltb (als_tol s') tol then (s', it)
      else als_loop body tol fuel' (S it) s'
  end.

Section Drivers.
Context {N : Numerics}.

(** "reorder factors by diagonal", then the returned list. *)
Definition nmf_finish (diag : bool) (si : als_state * nat) : nmf_result :=
  let s := fst si in
  if diag then
    let indx := sort_index (als_d s) in
    mkResult (transpose (reorder_rows (als_w s) indx))
             (reorder (als_d s) indx)
             (reorder_rows (als_h s) indx)
             (als_tol s) (snd si)
  else
    mkResult (transpose (als_w s)) (als_d s) (als_h s) (als_tol s) (snd si).

(** One iteration of the loop of [Rcpp_nmf_sparse]. *)
Definition nmf_sparse_body (A At : dgCMatrix) (symmetric nonneg : bool)
           (L1_w L1_h : double) (diag : bool) (fast_maxit cd_maxit : nat) (cd_tol : double)
           (k : nat) (s : als_state) : als_state :=
  let h := c_project_sparse A (als_w s) nonneg fast_maxit cd_maxit cd_tol L1_h in
  let hd := rescale diag k (dg_cols A) h (als_d s) in
  let w_it := als_w s in
  let w := if symmetric
           then c_project_sparse A (fst hd) nonneg fast_maxit cd_maxit cd_tol L1_w
           else c_project_sparse At (fst hd) nonneg fast_maxit cd_maxit cd_tol L1_w in
  let wd := rescale diag k (dg_rows A) w (snd hd) in
  mkAls (fst wd) (fst hd) (snd wd) (cor (fst wd) w_it).

(** The state [Rcpp_nmf_sparse] and [Rcpp_nmf_dense] enter their loop in. *)
Definition nmf_init (w : MatrixXd) (n : nat) : als_state :=
  let k := rows w in
  mkAls w (zero_mat k n) (ones k) 1.

(** [Rcpp_nmf_sparse] *)
Definition Rcpp_nmf_sparse (A At : dgCMatrix) (symmetric : bool) (w : MatrixXd)
           (tol : double) (nonneg : bool) (L1_w L1_h : double) (maxit : nat) (diag : bool)
           (fast_maxit cd_maxit : nat) (cd_tol : double) : nmf_result :=
  let k := rows w in
  nmf_finish diag
    (als_loop (nmf_sparse_body A At symmetric nonneg L1_w L1_h diag
                               fast_maxit cd_maxit cd_tol k)
              tol maxit 0 (nmf_init w (dg_cols A))).

(** One iteration of the loop of [Rcpp_nmf_dense]; [At] is
    [Rcpp::transpose(A)] unless [symmetric]. *)
Definition nmf_dense_body (A At : MatrixXd) (symmetric nonneg : bool)
           (L1_w L1_h : double) (diag : bool) (fast_maxit cd_maxit : nat) (cd_tol : double)
           (k : nat) (s : als_state) : als_state :=
  let h := Rcpp_project_dense A (als_w s) nonneg fast_maxit cd_maxit cd_tol L1_h in
  let hd := rescale diag k (cols A) h (als_d s) in
  let w_it := als_w s in
  let w := if symmetric
           then Rcpp_project_dense A (fst hd) nonneg fast_maxit cd_maxit cd_tol L1_w
           else Rcpp_project_dense At (fst hd) nonneg fast_maxit cd_maxit cd_tol L1_w in
  let wd := rescale diag k (rows A) w (snd hd) in
  mkAls (fst wd) (fst hd) (snd wd) (cor (fst wd) w_it).

(** [Rcpp_nmf_dense] *)
Definition Rcpp_nmf_dense (A : MatrixXd) (symmetric : bool) (w : MatrixXd)
           (tol : double) (nonneg : bool) (L1_w L1_h : double) (maxit : nat) (diag : bool)
           (fast_maxit cd_maxit : nat) (cd_tol : double) : nmf_result :=
  let k := rows w in
  let At := if symmetric then mkMatrix 0 [] else transpose A in
  nmf_finish diag
    (als_loop (nmf_dense_body A At symmetric nonneg L1_w L1_h diag
                              fast_maxit cd_maxit cd_tol k)
              tol maxit 0 (nmf_init w (cols A))).

End Drivers.

(* ------------------------------------------------------------------ *)
(** *** The rank-2 drivers *)

(** The block "solve least squares" that the rank-2 drivers repeat for each
    update: the solution [(x0, x1)] for the right-hand side [(b0, b1)]. *)
Definition solve2 (nonneg : bool) (a : MatrixXd) (denom b0 b1 : double) : double * double :=
  if nonneg then
    let a01b1 := coef a 0 1 * b1 in
    let a11b0 := coef a 1 1 * b0 in
    if Qltb a11b0 a01b1 then (0, b1 / coef a 1 1)
    else
      let a01b0 := coef a 0 1 * b0 in
      let a00b1 := coef a 0 0 * b1 in
      if Qltb a00b1 a01b0 then (b0 / coef a 0 0, 0)
      else ((a11b0 - a01b1) / denom, (a00b1 - a01b0) / denom)
  else ((coef a 1 1 * b0 - coef a 0 1 * b1) / denom,
        (coef a 0 0 * b1 - coef a 0 1 * b0) / denom).

(** [a(0, 0) * a(1, 1) - a(0, 1) * a(0, 1)] *)
Definition denom2 (a : MatrixXd) : double :=
  coef a 0 0 * coef a 1 1 - coef a 0 1 * coef a 0 1.

(** The loop [for (i = 0; i < n; ++i)] that stores the solution for the
    right-hand side [(b0 i, b1 i)] in [m(0, i)] and [m(1, i)]. *)
Definition solve2_all (nonneg : bool) (a : MatrixXd) (denom : double)
           (b0 b1 : nat -> double) (n : nat) (m : MatrixXd) : MatrixXd :=
  fold_left (fun m' i =>
               let x := solve2 nonneg a denom (b0 i) (b1 i) in
               set_coef (set_coef m' 0 i (fst x)) 1 i (snd x))
            (seq 0 n) m.

(** [wb] of [Rcpp_nmf2_sparse] after [wb.setZero()] and the loop over the
    columns of [A]. *)
Definition wb_sparse (A : dgCMatrix) (h : MatrixXd) : MatrixXd :=
  fold_left (fun wb i =>
               fold_left (fun wb' e =>
                            let wb0 := set_coef wb' 0 (fst e)
                                         (coef wb' 0 (fst e) + snd e * coef h 0 i) in
                            set_coef wb0 1 (fst e)
                                     (coef wb0 1 (fst e) + snd e * coef h 1 i))
                         (inner A i) wb)
            (seq 0 (dg_cols A)) (zero_mat 2 (dg_rows A)).

(** [b0] and [b1] of the update of [h] in [Rcpp_nmf2_sparse], for column [i]. *)
Definition hb_sparse (A : dgCMatrix) (w : MatrixXd) (i : nat) : double * double :=
  fold_left (fun b e => (fst b + snd e * coef w 0 (fst e),
                         snd b + snd e * coef w 1 (fst e)))
            (inner A i) (0, 0).

(** [wb] of [Rcpp_nmf2_dense]. *)
Definition wb_dense (A h : MatrixXd) : MatrixXd :=
  fold_left (fun wb i =>
               fold_left (fun wb' it =>
                            let wb0 := set_coef wb' 0 it
                                         (coef wb' 0 it + coef A it i * coef h 0 i) in
                            set_coef wb0 1 it
                                     (coef wb0 1 it + coef A it i * coef h 1 i))
                         (seq 0 (rows A)) wb)
            (seq 0 (cols A)) (zero_mat 2 (rows A)).

(** [b0] and [b1] of the update of [h] in [Rcpp_nmf2_dense], for column [i]. *)
Definition hb_dense (A w : MatrixXd) (i : nat) : double * double :=
  fold_left (fun b it => (fst b + coef A it i * coef w 0 it,
                          snd b + coef A it i * coef w 1 it))
            (seq 0 (rows A)) (0, 0).

(** [dst.swap(src)] for [dst = m.col(0)] and [src = m.row(0)]: Eigen
    exchanges the two coefficient by coefficient, over the coefficients of
    the destination, so [m(i, 0)] with [m(0, i)] for each row [i]. *)
Definition swap_col0_row0 (m : MatrixXd) : MatrixXd :=
  fold_left (fun m' i =>
               let t := coef m' i 0 in
               set_coef (set_coef m' i 0 (coef m' 0 i)) 0 i t)
            (seq 0 (rows m)) m.

Section Drivers2.
Context {N : Numerics}.

(** "update w", then "reset diagonal and scale w", of the rank-2 drivers;
    [wb] is the matrix of right-hand sides and [m] is [A.rows()]. *)
Definition nmf2_update_w (nonneg diag : bool) (wb : MatrixXd) (m : nat)
           (s : als_state) : MatrixXd * VectorXd :=
  let a := mmul (als_h s) (transpose (als_h s)) in
  let denom := denom2 a in
  let w := solve2_all nonneg a denom (coef wb 0) (coef wb 1) m (als_w s) in
  rescale diag 2 m w (als_d s).

(** "update h", then "reset diagonal and scale h"; [hb i] is the
    right-hand side of column [i] and [n] is [A.cols()]. *)
Definition nmf2_update_h (nonneg diag : bool) (hb : nat -> double * double) (n : nat)
           (w h : MatrixXd) (d : VectorXd) : MatrixXd * VectorXd :=
  let a := mmul w (transpose w) in
  let denom := denom2 a in
  let h' := solve2_all nonneg a denom (fun i => fst (hb i)) (fun i => snd (hb i))
                       n h in
  rescale diag 2 n h' d.

(** One iteration of the loop of [Rcpp_nmf2_sparse]. *)
Definition nmf2_sparse_body (A : dgCMatrix) (nonneg diag : bool)
           (s : als_state) : als_state :=
  let wd := nmf2_update_w nonneg diag (wb_sparse A (als_h s)) (dg_rows A) s in
  let h_it := als_h s in
  let hd := nmf2_update_h nonneg diag (hb_sparse A (fst wd)) (dg_cols A)
                          (fst wd) (als_h s) (snd wd) in
  mkAls (fst wd) (fst hd) (snd hd) (cor (fst hd) h_it).

(** One iteration of the loop of [Rcpp_nmf2_dense]. *)
Definition nmf2_dense_body (A : MatrixXd) (nonneg diag : bool)
           (s : als_state) : als_state :=
  let wd := nmf2_update_w nonneg diag (wb_dense A (als_h s)) (rows A) s in
  let h_it := als_h s in
  let hd := nmf2_update_h nonneg diag (hb_dense A (fst wd)) (cols A)
                          (fst wd) (als_h s) (snd wd) in
  mkAls (fst wd) (fst hd) (snd hd) (cor (fst hd) h_it).

(** The state the rank-2 drivers enter their loop in; [m] is [A.rows()]. *)
Definition nmf2_init (h : MatrixXd) (m : nat) : als_state :=
  mkAls (zero_mat 2 m) h (ones 2) 1.

(** "sort factors by diagonal value", then the returned list. *)
Definition nmf2_finish (diag : bool) (si : als_state * nat) : nmf_result :=
  let s := fst si in
  let d := als_d s in
  if diag && Qltb (vget d 0) (vget d 1) then
    let w := swap_col0_row0 (als_w s) in
    let h := swap_col0_row0 (als_h s) in
    let d1 := vget d 1 in
    let d' := upd 0 d1 (upd 1 (vget d 0) d) in
    mkResult (transpose w) d' h (als_tol s) (snd si)
  else
    mkResult (transpose (als_w s)) d (als_h s) (als_tol s) (snd si).

(** [Rcpp_nmf2_sparse] *)
Definition Rcpp_nmf2_sparse (A : dgCMatrix) (h : MatrixXd) (tol : double)
           (nonneg : bool) (maxit : nat) (diag : bool) : nmf_result :=
  nmf2_finish diag
    (als_loop (nmf2_sparse_body A nonneg diag) tol maxit 0
              (nmf2_init h (dg_rows A))).

(** [Rcpp_nmf2_dense] *)
Definition Rcpp_nmf2_dense (A : MatrixXd) (h : MatrixXd) (tol : double)
           (nonneg : bool) (maxit : nat) (diag : bool) : nmf_result :=
  nmf2_finish diag
    (als_loop (nmf2_dense_body A nonneg diag) tol maxit 0
              (nmf2_init h (rows A))).

End Drivers2.

(* ================================================================== *)
(** ** Section 5 of the source: mean squared error loss *)

(** [if (w.rows() == h.rows()) w.transposeInPlace();] *)
Definition mse_orient (w h : MatrixXd) : MatrixXd :=
  if (rows w =? rows h)%nat then transpose w else w.

(** "multiply w by diagonal": [w(j, i) *= d(i)] for each column [i] and
    each row [j]. *)
Definition scale_columns (w : MatrixXd) (d : VectorXd) : MatrixXd :=
  fold_left (fun w' i =>
               fold_left (fun w'' j => set_coef w'' j i (coef w'' j i * vget d i))
                         (seq 0 (rows w)) w')
            (seq 0 (cols w)) w.

(** [losses(i) += std::pow(wh_i(j), 2)] over the components of [wh_i]. *)
Definition sum_squares (wh_i : VectorXd) : double :=
  fold_left (fun l j => l + vget wh_i j * vget wh_i j)
            (seq 0 (length wh_i)) 0.

(** [losses(i)] of [Rcpp_mse_sparse]: the squared norm of column [i] of
    [w * h] minus column [i] of [A]. *)
Definition loss_sparse (A : dgCMatrix) (w h : MatrixXd) (i : nat) : double :=
  let wh_i := mvec w (col h i) in
  sum_squares
    (fold_left (fun v e => upd (fst e) (vget v (fst e) - snd e) v)
               (inner A i) wh_i).

(** [losses(i)] of [Rcpp_mse_dense]. *)
Definition loss_dense (A w h : MatrixXd) (i : nat) : double :=
  let wh_i := mvec w (col h i) in
  sum_squares
    (fold_left (fun v iter => upd iter (vget v iter - coef A iter i) v)
               (seq 0 (rows A)) wh_i).

(** [Rcpp_mse_sparse]; the divisor [A.cols() * A.rows()] is a product of
    two [int]. *)
Definition Rcpp_mse_sparse (A : dgCMatrix) (w : MatrixXd) (d : VectorXd)
           (h : MatrixXd) : double :=
  let w1 := scale_columns (mse_orient w h) d in
  let losses := map (loss_sparse A w1 h) (seq 0 (dg_cols A)) in
  vsum losses / inject_Z (int_mul (dg_cols A) (dg_rows A)).

(** [Rcpp_mse_dense] *)
Definition Rcpp_mse_dense (A w : MatrixXd) (d : VectorXd) (h : MatrixXd)
  : double :=
  let w1 := scale_columns (mse_orient w h) d in
  let losses := map (loss_dense A w1 h) (seq 0 (cols A)) in
  vsum losses / inject_Z (int_mul (cols A) (rows A)).

(* ================================================================== *)
(** ** Section 7 of the source: wrapper functions *)

(** [m.col(i) = c] *)
Definition set_col (m : MatrixXd) (i : nat) (c : VectorXd) : MatrixXd :=
  mkMatrix (rows m) (upd i c (columns m)).

Section Wrappers.
Context {N : Numerics}.

(** [Rcpp_nnls]: each column of [b] is replaced, in place, by the solution
    for it; the decomposition is computed anew for each column. *)
Definition Rcpp_nnls (a b : MatrixXd) (fast_maxit cd_maxit : nat)
           (cd_tol : double) (nonneg : bool) : MatrixXd :=
  fold_left (fun b' i =>
               set_col b' i (c_nnls a (col b' i) (llt a)
                                    fast_maxit cd_maxit cd_tol nonneg))
            (seq 0 (cols b)) b.

(** [Rcpp_project_sparse] *)
Definition Rcpp_project_sparse (A : dgCMatrix) (w : MatrixXd) (nonneg : bool)
           (fast_maxit cd_maxit : nat) (cd_tol L1 : double) : MatrixXd :=
  c_project_sparse A w nonneg fast_maxit cd_maxit cd_tol L1.

End Wrappers.

(** [Rcpp_cdnnls]: each column of [x] is replaced, in place, by the result
    of the coordinate descent started from it. *)
Definition Rcpp_cdnnls (a b x : MatrixXd) (cd_maxit : nat) (cd_tol : double)
           (nonneg : bool) : MatrixXd :=
  fold_left (fun x' i =>
               set_col x' i (c_cdnnls a (col b i) (col x' i)
                                      cd_maxit cd_tol nonneg))
            (seq 0 (cols b)) x.

(* ================================================================== *)
(** ** An executable instance of the library operations *)

(** Elimination on a system given as a list of equations (coefficients,
    right-hand side), without pivoting: for a positive definite matrix every
    pivot is positive, and the exact solution is the one a Cholesky
    factorization yields. *)
Fixpoint elim_solve (fuel : nat) (eqs : list (list double * double)) : list double :=
  match fuel, eqs with
  | S fuel', (c :: cs, r) :: rest =>
      let reduce (e : list double * double) :=
        match e with
        | (c' :: cs', r') =>
            let f := c' / c in
            (map (fun uv => snd uv - f * fst uv) (combine cs cs'), r' - f * r)
        | ([], r') => ([], r')
        end in
      let xs := elim_solve fuel' (map reduce rest) in
      ((r - dot cs xs) / c) :: xs
  | _, _ => []
  end.

Definition exact_solve (a : MatrixXd) (b : VectorXd) : VectorXd :=
  let eqs := map (fun i => (row a i, vget b i)) (seq 0 (length b)) in
  let xs := elim_solve (length b) eqs in
  map (vget xs) (seq 0 (length b)).

(** A rational square root: exact on the squares of rationals, and below
    the root by less than [1 / (2^32 * d)] otherwise, [d] being the
    denominator. *)
Definition sqrt_approx (q : double) : double :=
  let s := (2 ^ 32)%Z in
  Qred (Z.sqrt (Qnum q * Zpos (Qden q) * s * s) # (Qden q * Z.to_pos s)).

(** Insertion sort: each element goes after the elements that do not come
    after it. *)
Fixpoint insert_sorted (comp : nat -> nat -> bool) (x : nat) (l : list nat)
  : list nat :=
  match l with
  | [] => [x]
  | y :: l' => if comp x y then x :: y :: l' else y :: insert_sorted comp x l'
  end.

Definition insertion_sort (comp : nat -> nat -> bool) (l : list nat) : list nat :=
  fold_left (fun acc x => insert_sorted comp x acc) l [].

Definition ExactNumerics : Numerics :=
  {| LLT := MatrixXd;
     llt := fun a => a;
     llt_solve := exact_solve;
     std_sqrt := sqrt_approx;
     std_sort := insertion_sort |}.

(* ================================================================== *)
(** ** The [std::sort] of GCC *)

(** [std::sort] as libstdc++ implements it ([bits/stl_algo.h] and
    [bits/stl_heap.h] of GCC 12): an introsort that partitions while a range
    has more than 16 elements, falls back to a heap sort when the recursion
    gets too deep, and finishes with an insertion sort.  The array is a list
    of indices, iterators are positions in it, and each unbounded [while] of
    the source runs on a fuel that its range bounds. *)
Module Libstdcxx.
Local Open Scope nat_scope.

Section Sort.
Variable comp : nat -> nat -> bool.

Definition aget (a : list nat) (i : nat) : nat := nth i a 0.

(** [std::iter_swap(i, j)] *)
Definition iter_swap (a : list nat) (i j : nat) : list nat :=
  upd j (aget a i) (upd i (aget a j) a).

(** [__move_median_to_first(result, x, y, z, comp)] *)
Definition move_median_to_first (a : list nat) (result x y z : nat) : list nat :=
  if comp (aget a x) (aget a y) then
    if comp (aget a y) (aget a z) then iter_swap a result y
    else if comp (aget a x) (aget a z) then iter_swap a result z
    else iter_swap a result x
  else if comp (aget a x) (aget a z) then iter_swap a result x
  else if comp (aget a y) (aget a z) then iter_swap a result z
  else iter_swap a result y.

(** [while (comp(first, pivot)) ++first;] *)
Fixpoint scan_up (a : list nat) (pivot : nat) (fuel first : nat) : nat :=
  match fuel with
  | O => first
  | S fuel' => if comp (aget a first) (aget a pivot)
               then scan_up a pivot fuel' (S first) else first
  end.

(** [while (comp(pivot, last)) --last;] *)
Fixpoint scan_down (a : list nat) (pivot : nat) (fuel last : nat) : nat :=
  match fuel with
  | O => last
  | S fuel' => if comp (aget a pivot) (aget a last)
               then scan_down a pivot fuel' (last - 1) else last
  end.

(** [__unguarded_partition(first, last, pivot, comp)] *)
Fixpoint unguarded_partition (fuel : nat) (a : list nat) (first last pivot : nat)
  : nat * list nat :=
  match fuel with
  | O => (first, a)
  | S fuel' =>
      let first1 := scan_up a pivot (length a) first in
      let last1 := scan_down a pivot (length a) (last - 1) in
      if first1 <? last1
      then unguarded_partition fuel' (iter_swap a first1 last1) (S first1) last1 pivot
      else (first1, a)
  end.

(** [__unguarded_partition_pivot(first, last, comp)] *)
Definition unguarded_partition_pivot (a : list nat) (first last : nat)
  : nat * list nat :=
  let mid := first + (last - first) / 2 in
  let a1 := move_median_to_first a first (first + 1) mid (last - 1) in
  unguarded_partition (length a) a1 (first + 1) last first.

(** [__push_heap(first, holeIndex, topIndex, value, comp)] *)
Fixpoint push_heap (fuel : nat) (a : list nat) (first holeIndex topIndex value : nat)
  : list nat :=
  let parent := (holeIndex - 1) / 2 in
  match fuel with
  | O => upd (first + holeIndex) value a
  | S fuel' =>
      if (topIndex <? holeIndex) && comp (aget a (first + parent)) value
      then push_heap fuel' (upd (first + holeIndex) (aget a (first + parent)) a)
                     first parent topIndex value
      else upd (first + holeIndex) value a
  end.

(** The first loop of [__adjust_heap]: moves the hole down to a leaf. *)
Fixpoint sift_down (fuel : nat) (a : list nat) (first holeIndex secondChild len : nat)
  : list nat * nat * nat :=
  match fuel with
  | O => (a, holeIndex, secondChild)
  | S fuel' =>
      if secondChild <? (len - 1) / 2 then
        let c := 2 * (secondChild + 1) in
        let c' := if comp (aget a (first + c)) (aget a (first + (c - 1)))
                  then c - 1 else c in
        sift_down fuel' (upd (first + holeIndex) (aget a (first + c')) a)
                  first c' c' len
      else (a, holeIndex, secondChild)
  end.

(** [__adjust_heap(first, holeIndex, len, value, comp)] *)
Definition adjust_heap (a : list nat) (first holeIndex len value : nat) : list nat :=
  let topIndex := holeIndex in
  let '(a1, hole1, child1) := sift_down len a first holeIndex holeIndex len in
  let '(a2, hole2) :=
    if Nat.even len && (child1 =? (len - 2) / 2)
    then let c := 2 * (child1 + 1) in
         (upd (first + hole1) (aget a1 (first + (c - 1))) a1, c - 1)
    else (a1, hole1) in
  push_heap len a2 first hole2 topIndex value.

(** [__pop_heap(first, last, result, comp)] *)
Definition pop_heap (a : list nat) (first last result : nat) : list nat :=
  let value := aget a result in
  let a1 := upd result (aget a first) a in
  adjust_heap a1 first 0 (last - first) value.

(** The loop of [__make_heap], from [parent] down to 0. *)
Fixpoint make_heap_loop (a : list nat) (first len parent : nat) : list nat :=
  let a1 := adjust_heap a first parent len (aget a (first + parent)) in
  match parent with
  | O => a1
  | S parent' => make_heap_loop a1 first len parent'
  end.

(** [__make_heap(first, last, comp)] *)
Definition make_heap (a : list nat) (first last : nat) : list nat :=
  if last - first <? 2 then a
  else make_heap_loop a first (last - first) ((last - first - 2) / 2).

(** [__sort_heap(first, last, comp)] *)
Fixpoint sort_heap (fuel : nat) (a : list nat) (first last : nat) : list nat :=
  match fuel with
  | O => a
  | S fuel' =>
      if 1 <? last - first
      then sort_heap fuel' (pop_heap a first (last - 1) (last - 1)) first (last - 1)
      else a
  end.

(** [__heap_select(first, middle, last, comp)] *)
Definition heap_select (a : list nat) (first middle last : nat) : list nat :=
  fold_left (fun a' i => if comp (aget a' i) (aget a' first)
                         then pop_heap a' first middle i else a')
            (seq middle (last - middle))
            (make_heap a first middle).

(** [__partial_sort(first, middle, last, comp)] *)
Definition partial_sort (a : list nat) (first middle last : nat) : list nat :=
  sort_heap (length a) (heap_select a first middle last) first middle.

(** [__introsort_loop(first, last, depth_limit, comp)]; each turn of its
    [while] is a call here, with the decremented depth. *)
Fixpoint introsort_loop (depth_limit : nat) (a : list nat) (first last : nat)
  : list nat :=
  if 16 <? last - first then
    match depth_limit with
    | O => partial_sort a first last last
    | S depth' =>
        let '(cut, a1) := unguarded_partition_pivot a first last in
        let a2 := introsort_loop depth' a1 cut last in
        introsort_loop depth' a2 first cut
    end
  else a.

(** [__unguarded_linear_insert(last, comp)], once [val = *last] is taken. *)
Fixpoint linear_insert_loop (fuel : nat) (a : list nat) (val last : nat)
  : list nat :=
  match fuel with
  | O => upd last val a
  | S fuel' =>
      if comp val (aget a (last - 1))
      then linear_insert_loop fuel' (upd last (aget a (last - 1)) a) val (last - 1)
      else upd last val a
  end.

Definition unguarded_linear_insert (a : list nat) (last : nat) : list nat :=
  linear_insert_loop (length a) a (aget a last) last.

(** [std::move_backward(first, i, i + 1)] *)
Definition move_backward (a : list nat) (first i : nat) : list nat :=
  fold_left (fun a' j => upd (j + 1) (aget a j) a') (seq first (i - first)) a.

(** [__insertion_sort(first, last, comp)] *)
Definition insertion_sort (a : list nat) (first last : nat) : list nat :=
  fold_left (fun a' i =>
               if comp (aget a' i) (aget a' first)
               then upd first (aget a' i) (move_backward a' first i)
               else unguarded_linear_insert a' i)
            (seq (first + 1) (last - first - 1)) a.

(** [__unguarded_insertion_sort(first, last, comp)] *)
Definition unguarded_insertion_sort (a : list nat) (first last : nat) : list nat :=
  fold_left unguarded_linear_insert (seq first (last - first)) a.

(** [__final_insertion_sort(first, last, comp)] *)
Definition final_insertion_sort (a : list nat) (first last : nat) : list nat :=
  if 16 <? last - first
  then unguarded_insertion_sort (insertion_sort a first (first + 16))
                                (first + 16) last
  else insertion_sort a first last.

(** [std::sort(a.begin(), a.end(), comp)] *)
Definition sort (a : list nat) : list nat :=
  match a with
  | [] => a
  | _ => final_insertion_sort
           (introsort_loop (Nat.log2 (length a) * 2) a 0 (length a))
           0 (length a)
  end.

End Sort.
End Libstdcxx.

(** The executable instance with the [std::sort] of GCC. *)
Definition GccNumerics : Numerics :=
  {| LLT := MatrixXd;
     llt := fun a => a;
     llt_solve := exact_solve;
     std_sqrt := sqrt_approx;
     std_sort := Libstdcxx.sort |}.

(* ================================================================== *)
(** ** The vocabulary of the properties *)

(** No coordinate of [x] is updated by a sweep that starts with the
    gradient [b0]: each proposal equals the current value. *)
Definition cd_fixed (a : MatrixXd) (nonneg : bool) (x b0 : VectorXd) : bool :=
  forallb (fun i => negb (Qneqb (cd_proposal a nonneg x b0 i) (vget x i)))
          (seq 0 (length x)).

(** Every component is greater than or equal to 0. *)
Definition all_nonneg (x : VectorXd) : Prop := Forall (fun v => (0 <= v)%Q) x.

(** The number of components that are not zero. *)
Definition count_nz (x : VectorXd) : nat :=
  length (filter (fun v => Qneqb v 0) x).

(** The convergence test [tol_ < tol] succeeds at the end of the [t]-th
    complete iteration (counting from 1) of a loop that starts in [s0]. *)
Definition converged (body : als_state -> als_state) (tol : double)
           (s0 : als_state) (t : nat) : bool :=
  Qltb (als_tol (Nat.iter t body s0)) tol.

(** ... and at the end of no earlier one. *)
Definition first_converged (body : als_state -> als_state) (tol : double)
           (s0 : als_state) (t : nat) : Prop :=
  converged body tol s0 t = true /\
  forall t', (1 <= t' < t)%nat -> converged body tol s0 t' = false.

(** What the drivers return as [iter], for a loop limited to [maxit]
    iterations: one less than the number of complete iterations when the loop
    ended by convergence, and [maxit] when it ended by the limit. *)
Definition iter_spec (body : als_state -> als_state) (tol : double)
           (s0 : als_state) (maxit : nat) (iter : nat) : Prop :=
  (forall t, (1 <= t <= maxit)%nat -> first_converged body tol s0 t ->
             iter = (t - 1)%nat) /\
  (iter = maxit <->
   forall t, (1 <= t <= maxit)%nat -> converged body tol s0 t = false).

(** Every column has at least [k] coefficients. *)
Definition tall (k : nat) (m : MatrixXd) : Prop :=
  Forall (fun c => (k <= length c)%nat) (columns m).

(** Every column has exactly [rows m] coefficients, as in any Eigen matrix. *)
Definition well_formed (m : MatrixXd) : Prop :=
  Forall (fun c => length c = rows m) (columns m).

(** A factor [m] obtained from [m0] by the diagonal rescale of its first
    [k] rows: the sum of row [i] is [s / (s + 1e-15)] for [s] the sum of the
    row before; it is within [1e-12] of 1 when [s + 1e-15 >= 1e-3], and it is
    0 when [s] is 0, as for a row of zeros. *)
Definition rescaled_from (m0 m : MatrixXd) (k : nat) : Prop :=
  forall i, (i < k)%nat ->
    let s := vsum (row m0 i) in
    (vsum (row m i) == s / (s + eps15))%Q /\
    ((1 # 1000 <= s + eps15)%Q ->
     (Qabs (vsum (row m i) - 1) <= 1 # 1000000000000)%Q) /\
    ((s == 0)%Q -> (vsum (row m i) == 0)%Q).

(** The three-way case analysis on the right-hand side [(b0, b1)], for the
    matrix [(a00, a01; a01, a11)] and [denom = a00 * a11 - a01 * a01]. *)
Definition kkt2_cases (a00 a01 a11 denom b0 b1 x0 x1 : double) : Prop :=
  (Qlt (a11 * b0)%D (a01 * b1)%D ->
   x0 = 0 /\ x1 = b1 / a11) /\
  (~ Qlt (a11 * b0)%D (a01 * b1)%D -> Qlt (a00 * b1)%D (a01 * b0)%D ->
   x1 = 0 /\ x0 = b0 / a00) /\
  (~ Qlt (a11 * b0)%D (a01 * b1)%D -> ~ Qlt (a00 * b1)%D (a01 * b0)%D ->
   x0 = (a11 * b0 - a01 * b1) / denom /\
   x1 = (a00 * b1 - a01 * b0) / denom).

(** The two factor rows of [m] exchanged. *)
Definition swap_rows01 (m : MatrixXd) : MatrixXd :=
  set_row (set_row m 0 (row m 1)) 1 (row m 0).

(** The coefficients [m(1, 0)] and [m(0, 1)] exchanged. *)
Definition exchange_10_01 (m : MatrixXd) : MatrixXd :=
  set_coef (set_coef m 1 0 (coef m 0 1)) 0 1 (coef m 1 0).

Section IterationStages.
Context {N : Numerics}.

Variables (A At : MatrixXd) (As Ats : dgCMatrix).
Variables (symmetric nonneg diag : bool) (L1_w L1_h : double).
Variables (fast_maxit cd_maxit : nat) (cd_tol : double) (k : nat).

(** The two factors before their rescale, in the iteration that starts
    in state [s]. *)
Definition dense_h0 (s : als_state) : MatrixXd :=
  Rcpp_project_dense A (als_w s) nonneg fast_maxit cd_maxit cd_tol L1_h.

Definition dense_w0 (s : als_state) : MatrixXd :=
  Rcpp_project_dense
    (if symmetric then A else At)
    (fst (rescale diag k (cols A) (dense_h0 s) (als_d s)))
    nonneg fast_maxit cd_maxit cd_tol L1_w.

Definition sparse_h0 (s : als_state) : MatrixXd :=
  c_project_sparse As (als_w s) nonneg fast_maxit cd_maxit cd_tol L1_h.

Definition sparse_w0 (s : als_state) : MatrixXd :=
  c_project_sparse
    (if symmetric then As else Ats)
    (fst (rescale diag k (dg_cols As) (sparse_h0 s) (als_d s)))
    nonneg fast_maxit cd_maxit cd_tol L1_w.

(** The loop keeps [w] at [k] rows and [d] at [k] components. *)
Definition als_shape (s : als_state) : Prop :=
  rows (als_w s) = k /\ length (als_d s) = k.

End IterationStages.

(** What a general driver returns for [maxit = 0], an initial [w] and an
    [A] of [n] columns: [d] all ones, [h] all zero, [tol = 1], [iter = 0],
    and [w] transposed, with its rows first put in the order [indx] that
    [sort_index] gives the all-ones [d] when [diag] is true. *)
Definition maxit0_result {N : Numerics} (w : MatrixXd) (n : nat) (diag : bool)
           (r : nmf_result) : Prop :=
  let k := rows w in
  let indx := sort_index (ones k) in
  res_d r = ones k /\
  res_h r = zero_mat k n /\
  res_tol r = 1 /\
  res_iter r = 0%nat /\
  Permutation indx (seq 0 k) /\
  (forall i j, (i < k)%nat -> (j < cols w)%nat ->
     coef (res_w r) j i = coef w (if diag then nth i indx 0%nat else i) j) /\
  (diag = false \/ indx = seq 0 k -> res_w r = transpose w).

(** The gradient [a * x - b] that [c_cdnnls] starts from. *)
Definition gradient (a : MatrixXd) (b x : VectorXd) : VectorXd :=
  map (fun i => vget (mvec a x) i - vget b i) (seq 0 (length (mvec a x))).

(** The optimality conditions of the non-negative least squares problem at
    [x], with gradient [g]: on each coordinate [x >= 0], [g >= 0] and
    [x * g = 0]. *)
Definition kkt (x g : VectorXd) : Prop :=
  forall i, (i < length x)%nat ->
    (0 <= vget x i)%Q /\ (0 <= vget g i)%Q /\ (vget x i * vget g i == 0)%Q.

(** The value a column of a sparse matrix stores for row [r], and [0] for a
    row without a stored entry. *)
Definition lookup_row (r : nat) (l : list (nat * double)) : double :=
  match find (fun e => (fst e =? r)%nat) l with
  | Some e => snd e
  | None => 0
  end.

(** The dense matrix that a sparse matrix stands for. *)
Definition dense_of (A : dgCMatrix) : MatrixXd :=
  mkMatrix (dg_rows A)
           (map (fun c => map (fun r => lookup_row r (inner A c))
                              (seq 0 (dg_rows A)))
                (seq 0 (dg_cols A))).

(** No row index repeats in a list. *)
Fixpoint nodup_rows (l : list nat) : bool :=
  match l with
  | [] => true
  | r :: l' => negb (existsb (Nat.eqb r) l') && nodup_rows l'
  end.

(** A sparse matrix is valid when each column stores rows below [rows()],
    each at most once. *)
Definition csc_valid (A : dgCMatrix) : bool :=
  forallb (fun c =>
             forallb (fun e => (fst e <? dg_rows A)%nat) (inner A c)
             && nodup_rows (map fst (inner A c)))
          (seq 0 (dg_cols A)).

(** The column pointers: [p[0] = 0], non-decreasing, [n + 1] of them, the
    last one being the number of stored entries. *)
Definition csc_pointers (A : dgCMatrix) : Prop :=
  length (dg_p A) = S (dg_cols A) /\
  nth 0 (dg_p A) 0%nat = 0%nat /\
  (forall c, (c < dg_cols A)%nat ->
     (nth c (dg_p A) 0 <= nth (S c) (dg_p A) 0)%nat) /\
  nth (dg_cols A) (dg_p A) 0%nat = length (dg_x A) /\
  length (dg_i A) = length (dg_x A).

(** [b0] is the gradient [a * x - b] of the current [x], on each row of [a]. *)
Definition gradient_kept (a : MatrixXd) (b : VectorXd) (s : cd_state) : Prop :=
  length (cd_b0 s) = rows a /\
  forall j, (j < rows a)%nat ->
    (vget (cd_b0 s) j == vget (mvec a (cd_x s)) j - vget b j)%Q.

(** The shape the loop of a rank-2 driver keeps: two factor rows, two
    diagonal values, and the diagonal untouched when [diag] is false. *)
Definition shape2 (diag : bool) (s : als_state) : Prop :=
  rows (als_w s) = 2%nat /\ rows (als_h s) = 2%nat /\
  length (als_d s) = 2%nat /\ (diag = false -> als_d s = ones 2).

(** A comparator that [std::sort] may be given: a strict weak ordering. *)
Definition strict_weak (comp : nat -> nat -> bool) : Prop :=
  (forall x, comp x x = false) /\
  (forall x y z, comp x y = true -> comp y z = true -> comp x z = true) /\
  (forall x y z, comp x y = false -> comp y z = false -> comp x z = false).

(** What the C++ standard promises of [std::sort] besides a permutation:
    for a strict weak ordering, no element of the result comes before an
    earlier one. *)
Class SortSpec (N : Numerics) : Prop := {
  std_sort_sorted : forall comp l, strict_weak comp ->
    forall i j, (i < j < length l)%nat ->
      comp (nth j (std_sort comp l) 0%nat) (nth i (std_sort comp l) 0%nat) = false
}.

(** The loop of a general driver keeps both factors at [k] rows and [d] at
    [k] components. *)
Definition als_shape_wh (k : nat) (s : als_state) : Prop :=
  rows (als_w s) = k /\ rows (als_h s) = k /\ length (als_d s) = k.

(** The returned factors and diagonal are those of the state [s] taken in
    the order [indx]. *)
Definition aligned_by (indx : list nat) (s : als_state) (r : nmf_result) : Prop :=
  let k := length (als_d s) in
  (forall i, (i < k)%nat -> vget (res_d r) i = vget (als_d s) (nth i indx 0%nat)) /\
  (forall i j, (i < k)%nat -> (j < cols (als_h s))%nat ->
     coef (res_h r) i j = coef (als_h s) (nth i indx 0%nat) j) /\
  (forall i j, (i < k)%nat -> (j < cols (als_w s))%nat ->
     coef (res_w r) j i = coef (als_w s) (nth i indx 0%nat) j).

(** The exact sum of [f] over a list. *)
Definition Qsum {A : Type} (f : A -> Q) (l : list A) : Q :=
  fold_right (fun x acc => (f x + acc)%Q) 0%Q l.

(** [w] as the loss functions use it: oriented, then multiplied by the
    diagonal. *)
Definition mse_w (w : MatrixXd) (d : VectorXd) (h : MatrixXd) : MatrixXd :=
  scale_columns (mse_orient w h) d.

(** A value as the arithmetic returns it: a fraction in lowest terms. *)
Definition canonical (q : double) : Prop := Qred q = q.

(** The row indices of a column in increasing order, as a [dgCMatrix] has
    them. *)
Fixpoint increasing_rows (l : list nat) : bool :=
  match l with
  | r :: l' =>
      match l' with
      | r' :: _ => (r <? r')%nat && increasing_rows l'
      | [] => true
      end
  | [] => true
  end.

(** Every column of [A] has its row indices in range and increasing. *)
Definition csc_sorted (A : dgCMatrix) : bool :=
  forallb (fun c => forallb (fun e => (fst e <? dg_rows A)%nat) (inner A c)
                    && increasing_rows (map fst (inner A c)))
          (seq 0 (dg_cols A)).

(** The loop of a general driver keeps its shape and a positive diagonal. *)
Definition positive_diagonal (k : nat) (s : als_state) : Prop :=
  als_shape_wh k s /\ forall i, (i < k)%nat -> (0 < vget (als_d s) i)%Q.

(** The least squares objective [x' a x / 2 - b' x] that [c_cdnnls]
    works on. *)
Definition objective (a : MatrixXd) (b x : VectorXd) : Q :=
  ((1 # 2) * dot x (mvec a x) - dot x b)%Q.

(** [a] is a symmetric [n]-by-[n] matrix with a positive diagonal, as
    [w * w^T] with its ridge is. *)
Definition gram_like (n : nat) (a : MatrixXd) : Prop :=
  rows a = n /\ cols a = n /\
  (forall i j, (i < n)%nat -> (j < n)%nat -> (coef a i j == coef a j i)%Q) /\
  (forall i, (i < n)%nat -> (0 < coef a i i)%Q).

(** What the loops of [c_cdnnls] keep: the gradient, the size of [x] and,
    with [nonneg], its sign. *)
Definition cd_invariant (a : MatrixXd) (b : VectorXd) (nonneg : bool) (n : nat)
           (s : cd_state) : Prop :=
  gradient_kept a b s /\ length (cd_x s) = n /\
  (nonneg = true -> forall j, (0 <= vget (cd_x s) j)%Q).

(** A product of two [int] that is positive and fits in an [int]. *)
Definition int_fits (a b : nat) : Prop :=
  (0 < Z.of_nat a * Z.of_nat b < 2 ^ 31)%Z.

(** At least one sweep of [c_cdnnls] is made: one is allowed, and [cd_tol]
    is between [-2^53] and [2^53], where the double [1 + cd_tol] is greater
    than [cd_tol]. *)
Definition sweep_made (cd_maxit : nat) (cd_tol : double) : Prop :=
  (1 <= cd_maxit)%nat /\ (- two53 <= cd_tol)%Q /\ (cd_tol < two53)%Q.

(** None of the divisors of the rank-2 solve for the factor [m] is zero:
    [a(0, 0)], [a(1, 1)] and [denom] for [a = m * m^T]. *)
Definition gram_regular (m : MatrixXd) : Prop :=
  let a := mmul m (transpose m) in
  ~ (coef a 0 0 == 0)%Q /\ ~ (coef a 1 1 == 0)%Q /\ ~ (denom2 a == 0)%Q.

Section Divisors.
Context {N : Numerics}.

(** The divisor of [cor]. *)
Definition cor_divisor (x y : MatrixXd) : double :=
  let n := size x in
  let s := fold_left (cor_step x y) (seq 0 n) (mkCorSums 0 0 0 0 0) in
  std_sqrt ((Qnat n * sum_x2 s - sum_x s * sum_x s)
            * (Qnat n * sum_y2 s - sum_y s * sum_y s)).

(** The iteration of a rank-2 driver that starts in state [s] divides by
    zero nowhere: not in its two solves, not in its two rescales, not in
    [cor].  (A division by zero gives NaN or an infinity in the source and
    has no counterpart here.)  [wb] and [hb] gather the right-hand sides,
    [m] is [A.rows()] and [n] is [A.cols()]. *)
Definition nmf2_defined (wb : MatrixXd -> MatrixXd)
           (hb : MatrixXd -> nat -> double * double) (m n : nat)
           (nonneg diag : bool) (s : als_state) : Prop :=
  let a := mmul (als_h s) (transpose (als_h s)) in
  let w0 := solve2_all nonneg a (denom2 a) (coef (wb (als_h s)) 0)
                       (coef (wb (als_h s)) 1) m (als_w s) in
  let wd := rescale diag 2 m w0 (als_d s) in
  let a' := mmul (fst wd) (transpose (fst wd)) in
  let h0 := solve2_all nonneg a' (denom2 a') (fun i => fst (hb (fst wd) i))
                       (fun i => snd (hb (fst wd) i)) n (als_h s) in
  let hd := rescale diag 2 n h0 (snd wd) in
  gram_regular (als_h s) /\
  (diag = true ->
   forall i, (i < 2)%nat -> ~ ((vsum (row w0 i) + eps15)%D == 0)%Q) /\
  gram_regular (fst wd) /\
  (diag = true ->
   forall i, (i < 2)%nat -> ~ ((vsum (row h0 i) + eps15)%D == 0)%Q) /\
  ~ (cor_divisor (fst hd) (als_h s) == 0)%Q.

End Divisors.

(* ================================================================== *)
(** * Properties *)

(** ** Scalars and lists *)

Section Rounding.
Local Open Scope Q_scope.

Lemma nearest_even_spec (n d : Z) :
  (0 < d)%Z ->
  ((2 * nearest_even n d - 1) * d <= 2 * n <= (2 * nearest_even n d + 1) * d)%Z.
Proof.
  intros Hd. unfold nearest_even.
  pose proof (Z.div_mod n d ltac:(lia)) as Hdm.
  pose proof (Z.mod_pos_bound n d Hd) as Hm.
  destruct (Z.ltb_spec (2 * (n mod d)) d); [nia|].
  destruct (Z.ltb_spec d (2 * (n mod d))); [nia|].
  destruct (Z.even (n / d)); nia.
Qed.

Lemma nearest_even_Q (s : Q) :
  (inject_Z (nearest_even (Qnum s) (Zpos (Qden s))) - (1 # 2) <= s
   <= inject_Z (nearest_even (Qnum s) (Zpos (Qden s))) + (1 # 2))%Q.
Proof.
  pose proof (nearest_even_spec (Qnum s) (Zpos (Qden s)) ltac:(lia)) as H.
  set (m := nearest_even (Qnum s) (Zpos (Qden s))) in *.
  destruct s as [n d]. cbn [Qnum Qden] in *.
  unfold Qle, Qminus, Qplus, Qopp, inject_Z. cbn [Qnum Qden]. split; nia.
Qed.

Lemma pow2_pos (e : Z) : 0 < 2 ^ e.
Proof. apply Qpower_0_lt. reflexivity. Qed.

Lemma pow2_succ (e : Z) : 2 ^ (e + 1) == 2 * 2 ^ e.
Proof. rewrite Qpower_plus by discriminate. change (2 ^ 1) with 2. ring. Qed.

Lemma binade_spec (q : Q) :
  ~ q == 0 -> 2 ^ binade q <= Qabs q /\ Qabs q < 2 ^ (binade q + 1).
Proof.
  intros Hq. unfold binade.
  set (n := Z.abs (Qnum q)). set (d := Zpos (Qden q)).
  assert (Hn : (0 < n)%Z).
  { unfold n. destruct q as [qn qd]. cbn [Qnum]. unfold Qeq in Hq. simpl in Hq. lia. }
  assert (Hd : (0 < d)%Z) by (unfold d; lia).
  pose proof (Z.log2_spec n Hn) as Ha. pose proof (Z.log2_spec d Hd) as Hb.
  pose proof (Z.log2_nonneg n) as Ha0. pose proof (Z.log2_nonneg d) as Hb0.
  set (a := Z.log2 n) in *. set (b := Z.log2 d) in *.
  assert (HA : inject_Z (2 ^ a) == 2 ^ a) by (apply Zpower_Qpower; exact Ha0).
  assert (HB : inject_Z (2 ^ b) == 2 ^ b) by (apply Zpower_Qpower; exact Hb0).
  assert (HA1 : 2 ^ a <= inject_Z n) by (rewrite <- HA; rewrite <- Zle_Qle; lia).
  assert (HA2 : inject_Z n < 2 * 2 ^ a).
  { rewrite <- HA. change 2 with (inject_Z 2) at 1. rewrite <- inject_Z_mult, <- Zlt_Qlt.
    rewrite Z.pow_succ_r in Ha by exact Ha0. lia. }
  assert (HB1 : 2 ^ b <= inject_Z d) by (rewrite <- HB; rewrite <- Zle_Qle; lia).
  assert (HB2 : inject_Z d < 2 * 2 ^ b).
  { rewrite <- HB. change 2 with (inject_Z 2) at 1. rewrite <- inject_Z_mult, <- Zlt_Qlt.
    rewrite Z.pow_succ_r in Hb by exact Hb0. lia. }
  assert (Hq' : Qabs q * inject_Z d == inject_Z n).
  { destruct q as [qn qd]. unfold n, d, Qabs, Qeq, Qmult, inject_Z. cbn [Qnum Qden]. lia. }
  assert (HE : 2 ^ (a - b) * 2 ^ b == 2 ^ a).
  { rewrite <- Qpower_plus by discriminate. replace (a - b + b)%Z with a by lia.
    reflexivity. }
  pose proof (pow2_pos a) as Pa. pose proof (pow2_pos b) as Pb.
  pose proof (pow2_pos (a - b)) as Pe.
  assert (HD : 0 < inject_Z d) by (change 0 with (inject_Z 0); rewrite <- Zlt_Qlt; lia).
  pose proof (Qabs_nonneg q) as Hq0.
  destruct (Qle_bool (2 ^ (a - b)) (Qabs q)) eqn:E.
  - apply Qle_bool_iff in E. split; [exact E|]. rewrite pow2_succ.
    set (E0 := 2 ^ (a - b)) in *. set (Aq := Qabs q) in *. set (D := inject_Z d) in *.
    set (N := inject_Z n) in *. set (A := 2 ^ a) in *. set (B := 2 ^ b) in *.
    destruct (Qlt_le_dec Aq (2 * E0)) as [H|H]; [exact H|]. exfalso. nra.
  - assert (E' : Qabs q < 2 ^ (a - b)).
    { apply Qnot_le_lt. intros H. apply Qle_bool_iff in H. congruence. }
    replace (a - b - 1 + 1)%Z with (a - b)%Z by lia. split; [|exact E'].
    assert (HS : 2 ^ (a - b) == 2 * 2 ^ (a - b - 1)).
    { rewrite <- pow2_succ. replace (a - b - 1 + 1)%Z with (a - b)%Z by lia. reflexivity. }
    pose proof (pow2_pos (a - b - 1)) as Pe1.
    set (E0 := 2 ^ (a - b)) in *. set (E1 := 2 ^ (a - b - 1)) in *.
    set (Aq := Qabs q) in *. set (D := inject_Z d) in *.
    set (N := inject_Z n) in *. set (A := 2 ^ a) in *. set (B := 2 ^ b) in *.
    destruct (Qlt_le_dec Aq E1) as [H|H]; [|exact H]. exfalso. nra.
Qed.

Lemma fl_zero (q : Q) : q == 0 -> fl q = 0.
Proof. intros H. unfold fl. apply Qeq_bool_iff in H. rewrite H. reflexivity. Qed.

(** [fl q] is within half a unit in the last place of [q]. *)
Lemma fl_error (q : Q) :
  ~ q == 0 ->
  let u := 2 ^ (binade q - 52) in
  fl q - u * (1 # 2) <= q /\ q <= fl q + u * (1 # 2).
Proof.
  intros Hq u. unfold fl.
  destruct (Qeq_bool q 0) eqn:E; [apply Qeq_bool_iff in E; contradiction|].
  cbv zeta. fold u. rewrite Qred_correct.
  pose proof (nearest_even_Q (q / u)) as [H1 H2].
  set (m := inject_Z (nearest_even (Qnum (q / u)) (Zpos (Qden (q / u))))) in *.
  assert (Hu : 0 < u) by apply pow2_pos.
  assert (Hs : q / u * u == q) by (field; lra).
  set (s := q / u) in *. split; nra.
Qed.

Lemma pow2_52 : 2 ^ 52 == 4503599627370496.
Proof. reflexivity. Qed.

Lemma pow2_53 : 2 ^ 53 == 9007199254740992.
Proof. reflexivity. Qed.

(** Below [2^53] in magnitude the doubles are at most 1 apart. *)
Lemma fl_small (q : Q) :
  Qabs q < two53 -> q - (1 # 2) <= fl q.
Proof.
  intros Hq. destruct (Qeq_dec q 0) as [H0|H0].
  - rewrite (fl_zero q H0), H0. lra.
  - destruct (binade_spec q H0) as [Hlo _].
    assert (Hb : (binade q < 53)%Z).
    { apply (Qpower_lt_compat_l_inv 2); [|reflexivity].
      rewrite pow2_53. unfold two53 in Hq. lra. }
    assert (Hu : 2 ^ (binade q - 52) <= 1).
    { change 1 with (2 ^ 0). apply Qpower_le_compat_l; [lia | discriminate]. }
    pose proof (pow2_pos (binade q - 52)) as Hup.
    destruct (fl_error q H0) as [_ H2]. cbv zeta in H2.
    set (u := 2 ^ (binade q - 52)) in *. nra.
Qed.

(** From [2^53] on, [fl] does not go below [2^53]. *)
Lemma fl_large (q : Q) : two53 <= q -> two53 <= fl q.
Proof.
  intros Hq. unfold two53 in *.
  assert (H0 : ~ q == 0) by (intros H; rewrite H in Hq; lra).
  destruct (binade_spec q H0) as [Hlo Hhi].
  assert (Habs : Qabs q == q) by (apply Qabs_pos; lra).
  rewrite Habs in Hlo, Hhi.
  assert (Hb : (53 <= binade q)%Z).
  { assert (H : (53 < binade q + 1)%Z); [|lia].
    apply (Qpower_lt_compat_l_inv 2); [|reflexivity]. rewrite pow2_53. lra. }
  unfold fl.
  destruct (Qeq_bool q 0) eqn:E; [apply Qeq_bool_iff in E; contradiction|].
  cbv zeta. rewrite Qred_correct.
  set (u := 2 ^ (binade q - 52)) in *.
  assert (Hup : 0 < u) by apply pow2_pos.
  assert (Hu2 : 2 <= u).
  { change 2 with (2 ^ 1) at 1. apply Qpower_le_compat_l; [lia | discriminate]. }
  assert (Hbu : 2 ^ binade q == 2 ^ 52 * u).
  { unfold u. rewrite <- Qpower_plus by discriminate.
    replace (52 + (binade q - 52))%Z with (binade q) by lia. reflexivity. }
  rewrite pow2_52 in Hbu.
  pose proof (nearest_even_Q (q / u)) as [_ H2].
  set (mz := nearest_even (Qnum (q / u)) (Zpos (Qden (q / u)))) in *.
  assert (Hs : q / u * u == q) by (field; lra).
  assert (Hs52 : 4503599627370496 <= q / u).
  { set (s := q / u) in *. destruct (Qlt_le_dec s 4503599627370496) as [H|H]; [|exact H].
    exfalso. nra. }
  assert (Hm : (4503599627370496 <= mz)%Z).
  { assert (H : (4503599627370496 - 1 < mz)%Z); [|lia].
    rewrite Zlt_Qlt. change (inject_Z (4503599627370496 - 1)) with 4503599627370495.
    lra. }
  rewrite Zle_Qle in Hm. change (inject_Z 4503599627370496) with 4503599627370496 in Hm.
  set (m := inject_Z mz) in *. nra.
Qed.

(** In double, [1 + c] is greater than [c] as long as [c] is between
    [-2^53] and [2^53]. *)
Lemma fl_one_plus (c : double) :
  - two53 <= c -> c < two53 -> c < fl (1 + c).
Proof.
  intros Hlo Hhi. unfold two53 in *.
  set (q := 1 + c) in *.
  destruct (Qlt_le_dec q two53) as [H|H].
  - assert (Habs : Qabs q < two53).
    { unfold two53 in *. apply Qabs_case; intros; unfold q in *; lra. }
    pose proof (fl_small q Habs). unfold q in *. lra.
  - pose proof (fl_large q H). unfold two53 in *. lra.
Qed.

End Rounding.

Lemma Qltb_lt (x y : double) : Qltb x y = true <-> (x < y)%Q.
Proof.
  unfold Qltb. rewrite negb_true_iff, <- not_true_iff_false, Qle_bool_iff.
  split; [apply Qnot_le_lt | apply Qlt_not_le].
Qed.

Lemma Qltb_ge (x y : double) : Qltb x y = false <-> (y <= x)%Q.
Proof.
  unfold Qltb. rewrite negb_false_iff. apply Qle_bool_iff.
Qed.

Lemma Qneqb_eq (x y : double) : Qneqb x y = false <-> (x == y)%Q.
Proof.
  unfold Qneqb. rewrite negb_false_iff. apply Qeq_bool_iff.
Qed.

Lemma dadd_eq (x y : double) : Qeq (dadd x y) (Qplus x y).
Proof. apply Qred_correct. Qed.

Lemma dsub_eq (x y : double) : Qeq (dsub x y) (Qminus x y).
Proof. apply Qred_correct. Qed.

Lemma dmul_eq (x y : double) : Qeq (dmul x y) (Qmult x y).
Proof. apply Qred_correct. Qed.

Lemma ddiv_eq (x y : double) : Qeq (ddiv x y) (Qdiv x y).
Proof. apply Qred_correct. Qed.

(** Rewrites the arithmetic of doubles into that of [Q]. *)
Ltac to_Q := rewrite ?dadd_eq, ?dsub_eq, ?dmul_eq, ?ddiv_eq.

Lemma upd_length {A : Type} (i : nat) (v : A) (l : list A) :
  length (upd i v l) = length l.
Proof.
  revert i; induction l as [|h t IH]; intros [|i]; simpl; auto.
Qed.

Lemma nth_upd_same {A : Type} (i : nat) (v d : A) (l : list A) :
  (i < length l)%nat -> nth i (upd i v l) d = v.
Proof.
  revert i; induction l as [|h t IH]; intros [|i] Hi; simpl in *;
    try lia; auto.
  apply IH; lia.
Qed.

Lemma nth_upd_other {A : Type} (i j : nat) (v d : A) (l : list A) :
  i <> j -> nth j (upd i v l) d = nth j l d.
Proof.
  revert i j; induction l as [|h t IH]; intros [|i] [|j] Hij; simpl;
    auto; try congruence.
Qed.

(** A loop whose body leaves the state as it is, for every index it visits. *)
Lemma upd_app_at {A : Type} (pre rest : list A) (x v : A) :
  upd (length pre) v (pre ++ x :: rest) = pre ++ v :: rest.
Proof.
  induction pre as [|p pre IH]; simpl; auto. rewrite IH. reflexivity.
Qed.

Lemma fold_left_fixed {S I : Type} (f : S -> I -> S) (l : list I) (s : S) :
  (forall i, In i l -> f s i = s) -> fold_left f l s = s.
Proof.
  induction l as [|i l IH]; simpl; intros H; auto.
  rewrite (H i) by auto. apply IH. intros; apply H; auto.
Qed.

(* ------------------------------------------------------------------ *)
(** ** Coordinate descent *)

(** (C7) Called with [cd_maxit = 0], [c_cdnnls] returns its starting vector
    [x] as it is, for every [a], [b], [x], [cd_tol] and [nonneg]. *)
Theorem cdnnls_maxit0_identity :
  forall (a : MatrixXd) (b x : VectorXd) (cd_tol : double) (nonneg : bool),
    c_cdnnls a b x 0 cd_tol nonneg = x.
Proof.
  intros. unfold c_cdnnls, c_cdnnls_run. simpl. reflexivity.
Qed.

Lemma cd_sweep_fixed (a : MatrixXd) (nonneg : bool) (s : cd_state) :
  cd_fixed a nonneg (cd_x s) (cd_b0 s) = true ->
  cd_sweep a nonneg s = mkCd (cd_x s) (cd_b0 s) 0.
Proof.
  intros H. unfold cd_sweep. apply fold_left_fixed. intros i Hi.
  unfold cd_fixed in H. rewrite forallb_forall in H.
  specialize (H i Hi). apply negb_true_iff in H.
  unfold cd_coord; simpl. rewrite H. reflexivity.
Qed.

Lemma cd_loop_stops (a : MatrixXd) (nonneg : bool) (cd_tol : double)
      (fuel it : nat) (s : cd_state) :
  (cd_tol_it s <= cd_tol)%Q ->
  cd_loop a nonneg cd_tol fuel it s = (s, it).
Proof.
  intros H. destruct fuel; simpl; auto.
  apply Qltb_ge in H. rewrite H. reflexivity.
Qed.

(** The loop is entered for a [cd_tol] between [-2^53] and [2^53]. *)
Lemma cd_loop_enters (cd_tol : double) :
  (- two53 <= cd_tol)%Q -> (cd_tol < two53)%Q ->
  Qltb cd_tol (fl (1 + cd_tol)%Q) = true.
Proof.
  intros Hlo Hhi. apply Qltb_lt. apply fl_one_plus; assumption.
Qed.

(** (C10, as the code has it) With [cd_tol >= 0], a sweep that updates no
    coordinate leaves the sweep statistic at 0 and [x] as it was, and the
    loop makes no further sweep; so from a starting vector that is a fixed
    point of the clamped coordinate update, [c_cdnnls] returns it
    unchanged, after at most one sweep: after exactly one when
    [cd_maxit >= 1] and [cd_tol < 2^53], and none when [cd_maxit = 0].  (For
    a larger [cd_tol] the double [1 + cd_tol] need not be greater than
    [cd_tol], and then the loop is not entered.) *)
Theorem cdnnls_fixed_point_one_sweep :
  forall (a : MatrixXd) (nonneg : bool) (cd_tol : double),
    (0 <= cd_tol)%Q ->
    (forall s : cd_state,
        cd_fixed a nonneg (cd_x s) (cd_b0 s) = true ->
        cd_tol_it (cd_sweep a nonneg s) = 0 /\
        cd_x (cd_sweep a nonneg s) = cd_x s /\
        forall fuel it,
          cd_loop a nonneg cd_tol fuel it (cd_sweep a nonneg s)
          = (cd_sweep a nonneg s, it)) /\
    (forall (b x : VectorXd) (cd_maxit : nat),
        cd_fixed a nonneg x (cd_b0 (cd_init a b x cd_tol)) = true ->
        c_cdnnls a b x cd_maxit cd_tol nonneg = x /\
        (snd (c_cdnnls_run a b x cd_maxit cd_tol nonneg) <= 1)%nat /\
        ((cd_tol < two53)%Q ->
         snd (c_cdnnls_run a b x cd_maxit cd_tol nonneg) = Nat.min 1 cd_maxit)).
Proof.
  intros a nonneg cd_tol Htol. split.
  - intros s Hfix. rewrite (cd_sweep_fixed _ _ _ Hfix). simpl.
    repeat split. intros. apply cd_loop_stops. simpl. exact Htol.
  - intros b x cd_maxit Hfix.
    unfold c_cdnnls, c_cdnnls_run.
    destruct cd_maxit as [|n]; [simpl; auto|].
    cbn [cd_loop].
    destruct (Qltb cd_tol (cd_tol_it (cd_init a b x cd_tol))) eqn:E.
    + rewrite (cd_sweep_fixed a nonneg (cd_init a b x cd_tol)) by exact Hfix.
      rewrite cd_loop_stops by (simpl; exact Htol).
      simpl. auto.
    + cbn [fst snd cd_init cd_x]. split; [reflexivity|]. split; [lia|].
      intros Hlt. exfalso.
      assert (Hlo : (- two53 <= cd_tol)%Q) by (unfold two53; lra).
      pose proof (cd_loop_enters cd_tol Hlo Hlt) as He.
      unfold cd_init in E. cbn [cd_tol_it] in E. congruence.
Qed.

(** The fixed point [x = (1/2, 0)] of the system of scenario S2. *)
Lemma cdnnls_fixed_point_one_sweep_witness :
  let a := mkMatrix 2 [[2; 1]; [1; 2]] in
  c_cdnnls a [1; -1] [1 # 2; 0] 100 (1 # 100000000) true = [1 # 2; 0] /\
  snd (c_cdnnls_run a [1; -1] [1 # 2; 0] 100 (1 # 100000000) true) = 1%nat.
Proof.
  intros a.
  assert (Htol : (0 <= 1 # 100000000)%Q) by (unfold Qle; simpl; lia).
  destruct (cdnnls_fixed_point_one_sweep a true (1 # 100000000) Htol) as [_ H].
  destruct (H [1; -1] [1 # 2; 0] 100%nat) as (H1 & _ & H3);
    [vm_compute; reflexivity|].
  split; [exact H1|]. apply H3. unfold two53. lra.
Defined.

(** (C10, as stated, fails) With [cd_tol = 1e16] the double [1 + cd_tol] is
    [cd_tol] itself, so the guard [cd_tol_it > cd_tol] fails before the
    first sweep: from the fixed point [(1/2, 0)] of the system of scenario
    S2, [c_cdnnls] returns [x] without having made any sweep. *)
Lemma cdnnls_fixed_point_counterexample :
  let a := mkMatrix 2 [[2; 1]; [1; 2]] in
  let cd_tol : double := 10000000000000000 in
  (0 <= cd_tol)%Q /\
  fl (1 + cd_tol)%Q = cd_tol /\
  cd_fixed a true [1 # 2; 0] (cd_b0 (cd_init a [1; -1] [1 # 2; 0] cd_tol)) = true /\
  c_cdnnls a [1; -1] [1 # 2; 0] 100 cd_tol true = [1 # 2; 0] /\
  snd (c_cdnnls_run a [1; -1] [1 # 2; 0] 100 cd_tol true) = 0%nat /\
  snd (c_cdnnls_run a [1; -1] [1 # 2; 0] 100 cd_tol true) <> Nat.min 1 100.
Proof.
  intros a cd_tol.
  split; [unfold cd_tol; lra|].
  split; [vm_compute; reflexivity|].
  split; [vm_compute; reflexivity|].
  split; [vm_compute; reflexivity|].
  split; [vm_compute; reflexivity|].
  vm_compute. discriminate.
Qed.

(* ------------------------------------------------------------------ *)
(** ** The FAST solver *)

Section NNLSFacts.
Context {N : Numerics}.

Lemma fast_loop_unconstrained (a : MatrixXd) (b : VectorXd) (fuel : nat)
      (x : VectorXd) :
  fast_loop a b false fuel x = x.
Proof. destruct fuel; reflexivity. Qed.

(** (C5) With [nonneg = false] and [cd_maxit = 0], [c_nnls] returns the
    solution [a_llt.solve(b)] of the decomposition it is given: the
    feasible set loop is skipped and [c_cdnnls] makes no sweep. *)
Theorem nnls_pure_least_squares :
  forall (a : MatrixXd) (b : VectorXd) (a_llt : LLT) (fast_maxit : nat)
         (cd_tol : double),
    c_nnls a b a_llt fast_maxit 0 cd_tol false = llt_solve a_llt b.
Proof.
  intros. unfold c_nnls. rewrite fast_loop_unconstrained. simpl.
  reflexivity.
Qed.

End NNLSFacts.

(* ------------------------------------------------------------------ *)
(** ** Non-negativity of the solution *)

Lemma all_nonneg_vget (x : VectorXd) :
  (forall j, (j < length x)%nat -> (0 <= vget x j)%Q) -> all_nonneg x.
Proof.
  intros H. apply Forall_forall. intros v Hv.
  destruct (In_nth _ _ 0 Hv) as [j [Hj Hn]]. rewrite <- Hn. apply H; auto.
Qed.

Lemma cd_proposal_nonneg (a : MatrixXd) (x b0 : VectorXd) (i : nat) :
  (0 <= cd_proposal a true x b0 i)%Q.
Proof.
  unfold cd_proposal. simpl.
  destruct (Qltb _ 0) eqn:E; [apply Qle_refl | apply Qltb_ge; exact E].
Qed.

Lemma cd_coord_length (a : MatrixXd) (nonneg : bool) (s : cd_state) (i : nat) :
  length (cd_x (cd_coord a nonneg s i)) = length (cd_x s).
Proof.
  unfold cd_coord. destruct (Qneqb _ _); simpl; auto using upd_length.
Qed.

Lemma cd_coord_other (a : MatrixXd) (nonneg : bool) (s : cd_state) (i j : nat) :
  i <> j -> vget (cd_x (cd_coord a nonneg s i)) j = vget (cd_x s) j.
Proof.
  intros Hij. unfold cd_coord. destruct (Qneqb _ _); simpl; auto.
  apply nth_upd_other; auto.
Qed.

Lemma cd_coord_nonneg (a : MatrixXd) (s : cd_state) (i : nat) :
  (i < length (cd_x s))%nat ->
  (0 <= vget (cd_x (cd_coord a true s i)) i)%Q.
Proof.
  intros Hi. unfold cd_coord.
  pose proof (cd_proposal_nonneg a (cd_x s) (cd_b0 s) i) as Hp.
  destruct (Qneqb _ _) eqn:E; simpl.
  - unfold vget. rewrite nth_upd_same by exact Hi. exact Hp.
  - apply Qneqb_eq in E. rewrite <- E. exact Hp.
Qed.

(** The inner loop: the coordinates it visits end up non-negative, and
    those that were non-negative stay so. *)
Lemma cd_coords_nonneg (a : MatrixXd) (l : list nat) :
  forall s : cd_state,
    (forall i, In i l -> (i < length (cd_x s))%nat) ->
    length (cd_x (fold_left (cd_coord a true) l s)) = length (cd_x s) /\
    forall j, In j l \/ (0 <= vget (cd_x s) j)%Q ->
              (0 <= vget (cd_x (fold_left (cd_coord a true) l s)) j)%Q.
Proof.
  induction l as [|i l IH]; intros s Hl; simpl.
  - split; auto. intros j [[]|H]; exact H.
  - destruct (IH (cd_coord a true s i)) as [IHlen IHj].
    { intros k Hk. rewrite cd_coord_length. apply Hl; simpl; auto. }
    split.
    + rewrite IHlen. apply cd_coord_length.
    + intros j Hj. apply IHj.
      destruct (Nat.eq_dec i j) as [->|Hij].
      * right. apply cd_coord_nonneg. apply Hl; simpl; auto.
      * destruct Hj as [[Hj|Hj]|Hj]; [congruence | left; exact Hj |].
        right. rewrite cd_coord_other by exact Hij. exact Hj.
Qed.

Lemma cd_sweep_nonneg (a : MatrixXd) (s : cd_state) :
  all_nonneg (cd_x (cd_sweep a true s)).
Proof.
  unfold cd_sweep.
  destruct (cd_coords_nonneg a (seq 0 (length (cd_x s)))
                             (mkCd (cd_x s) (cd_b0 s) 0)) as [Hlen Hj].
  { intros i Hi. apply in_seq in Hi. simpl. lia. }
  apply all_nonneg_vget. intros j Hjl. apply Hj. left.
  rewrite Hlen in Hjl. simpl in Hjl. apply in_seq. lia.
Qed.

Lemma cd_loop_nonneg (a : MatrixXd) (cd_tol : double) (fuel : nat) :
  forall (it : nat) (s : cd_state),
    all_nonneg (cd_x s) ->
    all_nonneg (cd_x (fst (cd_loop a true cd_tol fuel it s))).
Proof.
  induction fuel as [|fuel IH]; intros it s Hs; simpl; auto.
  destruct (Qltb cd_tol (cd_tol_it s)); simpl; auto.
  apply IH. apply cd_sweep_nonneg.
Qed.

(** With at least one sweep allowed and a [cd_tol] for which the loop is
    entered, the result of [c_cdnnls] is non-negative, whatever the
    starting vector. *)
Lemma c_cdnnls_nonneg (a : MatrixXd) (b x : VectorXd) (cd_maxit : nat)
      (cd_tol : double) :
  (1 <= cd_maxit)%nat -> (- two53 <= cd_tol)%Q -> (cd_tol < two53)%Q ->
  all_nonneg (c_cdnnls a b x cd_maxit cd_tol true).
Proof.
  intros H Hlo Hhi. unfold c_cdnnls, c_cdnnls_run.
  destruct cd_maxit as [|n]; [lia|]. cbn [cd_loop].
  replace (cd_tol_it (cd_init a b x cd_tol)) with (fl (1 + cd_tol)%Q)
    by reflexivity.
  rewrite cd_loop_enters by assumption.
  apply cd_loop_nonneg. apply cd_sweep_nonneg.
Qed.

(** From a start without negative component the result of [c_cdnnls] is
    non-negative, whether the loop is entered or not. *)
Lemma c_cdnnls_keeps_nonneg (a : MatrixXd) (b x : VectorXd) (cd_maxit : nat)
      (cd_tol : double) :
  all_nonneg x -> all_nonneg (c_cdnnls a b x cd_maxit cd_tol true).
Proof.
  intros H. unfold c_cdnnls, c_cdnnls_run. apply cd_loop_nonneg. exact H.
Qed.

(** *** The feasible set loop ends within [x.size()] rounds *)

(** The two loops of [find_gtz] over a list of indices: the count, and
    the vector filled from position [length pre] on. *)
Lemma count_gtz_loop (P : nat -> bool) (l : list nat) :
  forall n : nat,
    fold_left (fun n_gtz i => if P i then S n_gtz else n_gtz) l n
    = (n + length (filter P l))%nat.
Proof.
  induction l as [|i l IH]; intros n; simpl; [lia|].
  rewrite IH. destruct (P i); simpl; lia.
Qed.

Lemma fill_gtz_loop (P : nat -> bool) (l : list nat) :
  forall (pre : list nat) (r : nat),
    fold_left (fun gj i => if P i then (upd (snd gj) i (fst gj), S (snd gj))
                           else gj)
              l (pre ++ repeat 0%nat (length (filter P l) + r), length pre)
    = (pre ++ filter P l ++ repeat 0%nat r,
       (length pre + length (filter P l))%nat).
Proof.
  induction l as [|i l IH]; intros pre r; cbn [fold_left filter].
  - cbn [length app Nat.add]. rewrite Nat.add_0_r. reflexivity.
  - destruct (P i); [|apply IH].
    cbn [fst snd length Nat.add repeat]. rewrite upd_app_at.
    replace (pre ++ i :: repeat 0%nat (length (filter P l) + r))
      with ((pre ++ [i]) ++ repeat 0%nat (length (filter P l) + r))
      by (rewrite <- app_assoc; reflexivity).
    replace (S (length pre)) with (length (pre ++ [i]))
      by (rewrite length_app; simpl; lia).
    rewrite IH, <- app_assoc, length_app. cbn [length app].
    f_equal. lia.
Qed.

(** [find_gtz] fills its vector with the indices of the positive values,
    in increasing order. *)
Lemma find_gtz_filter (x : VectorXd) :
  find_gtz x = filter (fun i => Qltb 0 (vget x i)) (seq 0 (length x)) /\
  count_gtz x = length (find_gtz x).
Proof.
  assert (Hc : count_gtz x
               = length (filter (fun i => Qltb 0 (vget x i)) (seq 0 (length x)))).
  { unfold count_gtz.
    rewrite (count_gtz_loop (fun i => Qltb 0 (vget x i))). reflexivity. }
  assert (Hf : find_gtz x
               = filter (fun i => Qltb 0 (vget x i)) (seq 0 (length x))).
  { unfold find_gtz. cbv zeta. rewrite Hc.
    pose proof (fill_gtz_loop (fun i => Qltb 0 (vget x i)) (seq 0 (length x))
                              [] 0) as H.
    cbn [app length Nat.add repeat] in H. rewrite Nat.add_0_r, app_nil_r in H.
    rewrite H. reflexivity. }
  split; [exact Hf | rewrite Hf; exact Hc].
Qed.

Lemma find_gtz_length (x : VectorXd) :
  length (find_gtz x) = length (filter (fun v => Qltb 0 v) x).
Proof.
  rewrite (proj1 (find_gtz_filter x)). unfold vget.
  assert (H : forall (l : list double) (n : nat) (pre : list double),
             length pre = n ->
             length (filter (fun i => Qltb 0 (nth i (pre ++ l) 0))
                            (seq n (length l)))
             = length (filter (fun v => Qltb 0 v) l)).
  { induction l as [|v l IH]; intros n pre Hn; simpl; auto.
    rewrite app_nth2 by lia. rewrite Hn, Nat.sub_diag. simpl.
    specialize (IH (S n) (pre ++ [v])).
    rewrite <- app_assoc in IH. simpl in IH.
    destruct (Qltb 0 v); simpl;
      rewrite IH by (rewrite length_app; simpl; lia); reflexivity. }
  apply (H x 0%nat []). reflexivity.
Qed.

(** A vector with a negative component has fewer positive components than
    non-zero ones. *)
Lemma any_neg_count (x : VectorXd) :
  any_neg x = true ->
  (S (length (filter (fun v => Qltb 0%Q v) x)) <= count_nz x)%nat.
Proof.
  unfold any_neg, count_nz.
  assert (Hle : forall l : list double,
             (length (filter (fun v => Qltb 0%Q v) l)
              <= length (filter (fun v => Qneqb v 0%Q) l))%nat).
  { induction l as [|v l IH]; simpl; auto.
    destruct (Qltb 0 v) eqn:E1; destruct (Qneqb v 0) eqn:E2; simpl; try lia.
    apply Qltb_lt in E1. apply Qneqb_eq in E2. lra. }
  induction x as [|v x IH]; simpl; [discriminate|].
  intros H. apply orb_true_iff in H.
  destruct (Qltb v 0) eqn:En.
  - apply Qltb_lt in En.
    destruct (Qltb 0 v) eqn:E1; [apply Qltb_lt in E1; lra|].
    destruct (Qneqb v 0) eqn:E2; [|apply Qneqb_eq in E2; lra].
    simpl. specialize (Hle x). lia.
  - destruct H as [H|H]; [discriminate|]. specialize (IH H).
    destruct (Qltb 0 v) eqn:E1; destruct (Qneqb v 0) eqn:E2; simpl; try lia.
    apply Qltb_lt in E1. apply Qneqb_eq in E2. lra.
Qed.

Lemma count_nz_zero_vec (n : nat) : count_nz (zero_vec n) = 0%nat.
Proof.
  unfold count_nz, zero_vec. induction n; simpl; auto.
Qed.

Lemma count_nz_upd (i : nat) (v : double) (x : VectorXd) :
  (count_nz (upd i v x) <= S (count_nz x))%nat.
Proof.
  unfold count_nz. revert i; induction x as [|h t IH]; intros [|i]; simpl; auto.
  - destruct (Qneqb v 0), (Qneqb h 0); simpl; lia.
  - specialize (IH i). destruct (Qneqb h 0); simpl; lia.
Qed.

Lemma count_nz_scatter (g : list nat) (xsub : VectorXd) (l : list nat) :
  forall x : VectorXd,
    (count_nz (fold_left (fun x' i => upd (nth i g 0%nat) (vget xsub i) x') l x)
     <= length l + count_nz x)%nat.
Proof.
  induction l as [|i l IH]; intros x; simpl; auto.
  specialize (IH (upd (nth i g 0%nat) (vget xsub i) x)).
  pose proof (count_nz_upd (nth i g 0%nat) (vget xsub i) x). lia.
Qed.

Lemma count_nz_no_neg (x : VectorXd) : count_nz x = 0%nat -> any_neg x = false.
Proof.
  intros H. destruct (any_neg x) eqn:E; auto.
  apply any_neg_count in E. lia.
Qed.

Lemma no_neg_all_nonneg (x : VectorXd) : any_neg x = false -> all_nonneg x.
Proof.
  unfold any_neg, all_nonneg. intros H. apply Forall_forall. intros v Hv.
  apply Qltb_ge. destruct (Qltb v 0) eqn:E; auto.
  assert (existsb (fun v => Qltb v 0) x = true)
    by (apply existsb_exists; exists v; auto).
  congruence.
Qed.

Section NonNegativity.
Context {N : Numerics}.

Lemma fast_round_count (a : MatrixXd) (b x : VectorXd) :
  (count_nz (fast_round a b x) <= length (find_gtz x))%nat.
Proof.
  unfold fast_round.
  pose proof (count_nz_scatter (find_gtz x)
                (llt_solve (llt (submat a (find_gtz x) (find_gtz x)))
                           (map (vget b) (find_gtz x)))
                (seq 0 (length (find_gtz x))) (zero_vec (length x))) as H.
  rewrite count_nz_zero_vec, length_seq in H. lia.
Qed.

(** Each round leaves fewer non-zero components, so with as many rounds
    allowed as there are non-zero components the loop ends with none
    negative. *)
Lemma fast_loop_no_neg (a : MatrixXd) (b : VectorXd) (fuel : nat) :
  forall x : VectorXd,
    (count_nz x <= fuel)%nat -> any_neg (fast_loop a b true fuel x) = false.
Proof.
  induction fuel as [|fuel IH]; intros x Hx; simpl.
  - apply count_nz_no_neg. lia.
  - destruct (any_neg x) eqn:E; auto.
    apply IH. pose proof (fast_round_count a b x) as H1.
    pose proof (any_neg_count x E) as H2.
    rewrite find_gtz_length in H1. lia.
Qed.

End NonNegativity.

(* ------------------------------------------------------------------ *)
(** ** The executable instance meets what the libraries promise *)

Lemma insert_sorted_perm (comp : nat -> nat -> bool) (x : nat) (l : list nat) :
  Permutation (insert_sorted comp x l) (x :: l).
Proof.
  induction l as [|y l IH]; simpl; auto.
  destruct (comp x y); auto.
  rewrite IH. apply perm_swap.
Qed.

Lemma insertion_sort_perm (comp : nat -> nat -> bool) (l : list nat) :
  Permutation (insertion_sort comp l) l.
Proof.
  unfold insertion_sort.
  assert (H : forall l acc,
             Permutation (fold_left (fun acc x => insert_sorted comp x acc) l acc)
                         (acc ++ l)).
  { clear l. induction l as [|x l IH]; intros acc; simpl.
    - rewrite app_nil_r. auto.
    - rewrite IH, insert_sorted_perm. apply Permutation_middle. }
  apply (H l []).
Qed.

Lemma exact_solve_length (a : MatrixXd) (b : VectorXd) :
  length (exact_solve a b) = length b.
Proof.
  unfold exact_solve. rewrite length_map, length_seq. reflexivity.
Qed.

#[export] Instance ExactNumericsSpec : NumericsSpec ExactNumerics.
Proof.
  split.
  - exact exact_solve_length.
  - exact insertion_sort_perm.
Defined.

(** Scenarios S2 and S3 of the specification. *)
Example nnls_scenario_S2 :
  @c_nnls ExactNumerics (mkMatrix 2 [[2; 1]; [1; 2]]) [1; -1]
          (mkMatrix 2 [[2; 1]; [1; 2]]) 10 100 (1 # 10000000000) true
  = [1 # 2; 0].
Proof. vm_compute. reflexivity. Qed.

Example nnls_scenario_S3 :
  @c_nnls ExactNumerics (mkMatrix 2 [[2; 1]; [1; 2]]) [1; 1]
          (mkMatrix 2 [[2; 1]; [1; 2]]) 10 100 (1 # 10000000000) false
  = [1 # 3; 1 # 3].
Proof. vm_compute. reflexivity. Qed.

(* ------------------------------------------------------------------ *)
(** ** (C3) Non-negativity of [c_nnls] *)

Lemma count_nz_le_length (x : VectorXd) : (count_nz x <= length x)%nat.
Proof.
  unfold count_nz. induction x as [|v x IH]; simpl; auto.
  destruct (Qneqb v 0); simpl; lia.
Qed.




(* ------------------------------------------------------------------ *)
(** ** (C1) The returned iteration count *)

Lemma iter_body_shift (body : als_state -> als_state) (t : nat) (s : als_state) :
  Nat.iter t body (body s) = Nat.iter (S t) body s.
Proof.
  induction t as [|t IH]; simpl; auto. rewrite IH. reflexivity.
Qed.

Lemma converged_shift (body : als_state -> als_state) (tol : double)
      (s : als_state) (t : nat) :
  converged body tol (body s) t = converged body tol s (S t).
Proof.
  unfold converged. rewrite iter_body_shift. reflexivity.
Qed.

(** The loop stops at the first iteration whose test succeeds, with [it]
    not yet incremented for that iteration. *)
Lemma als_loop_break (body : als_state -> als_state) (tol : double) (fuel : nat) :
  forall (it : nat) (s : als_state) (t : nat),
    (1 <= t <= fuel)%nat -> first_converged body tol s t ->
    als_loop body tol fuel it s = (Nat.iter t body s, (it + t - 1)%nat).
Proof.
  induction fuel as [|fuel IH]; intros it s t Ht [Hc Hfirst]; [lia|].
  cbn [als_loop]. destruct (Nat.eq_dec t 1) as [->|Hne].
  - unfold converged in Hc. simpl in Hc. rewrite Hc.
    replace (it + 1 - 1)%nat with it by lia. reflexivity.
  - assert (H1 : converged body tol s 1 = false) by (apply Hfirst; lia).
    unfold converged in H1. simpl in H1. rewrite H1.
    destruct t as [|t]; [lia|].
    rewrite (IH (S it) (body s) t).
    + rewrite iter_body_shift.
      replace (S it + t - 1)%nat with (it + S t - 1)%nat by lia. reflexivity.
    + lia.
    + split.
      * rewrite converged_shift. exact Hc.
      * intros t' Ht'. rewrite converged_shift. apply Hfirst. lia.
Qed.

(** The loop counts a full [fuel] exactly when no test succeeded. *)
Lemma als_loop_limit (body : als_state -> als_state) (tol : double) (fuel : nat) :
  forall (it : nat) (s : als_state),
    (snd (als_loop body tol fuel it s) <= it + fuel)%nat /\
    (snd (als_loop body tol fuel it s) = (it + fuel)%nat <->
     forall t, (1 <= t <= fuel)%nat -> converged body tol s t = false).
Proof.
  induction fuel as [|fuel IH]; intros it s; cbn [als_loop].
  - simpl. split; [lia|]. split; [intros _ t Ht; lia | intros _; lia].
  - destruct (Qltb (als_tol (body s)) tol) eqn:E.
    + simpl. split; [lia|]. split; [lia|].
      intros H. specialize (H 1%nat). unfold converged in H. simpl in H.
      rewrite E in H. assert (true = false) by (apply H; lia). discriminate.
    + destruct (IH (S it) (body s)) as [Hle Hiff]. split; [lia|].
      replace (it + S fuel)%nat with (S it + fuel)%nat by lia.
      rewrite Hiff. split; intros H t Ht.
      * destruct t as [|[|t]];
          [lia | unfold converged; simpl; exact E |].
        rewrite <- converged_shift. apply H. lia.
      * rewrite converged_shift. apply H. lia.
Qed.

Lemma als_loop_iter_spec (body : als_state -> als_state) (tol : double)
      (maxit : nat) (s0 : als_state) :
  iter_spec body tol s0 maxit (snd (als_loop body tol maxit 0 s0)).
Proof.
  split.
  - intros t Ht Hf. rewrite (als_loop_break body tol maxit 0 s0 t Ht Hf).
    reflexivity.
  - apply (als_loop_limit body tol maxit 0 s0).
Qed.

Lemma res_iter_finish {N : Numerics} (diag : bool) (si : als_state * nat) :
  res_iter (nmf_finish diag si) = snd si.
Proof. unfold nmf_finish. destruct diag; reflexivity. Qed.

(** (C1, as the code has it) The [iter] that [Rcpp_nmf_dense] and
    [Rcpp_nmf_sparse] return is the value of the loop counter at the exit of
    the loop; the counter is incremented after the convergence test, and not
    at all for the iteration that breaks.  So when the test first succeeds at
    the end of the [t]-th complete iteration the returned [iter] is [t - 1],
    and [iter = maxit] exactly when no test succeeded, that is, when the loop
    ended by the iteration limit. *)
Theorem nmf_iter_is_loop_counter :
  forall (N : Numerics)
         (A : MatrixXd) (As At : dgCMatrix) (symmetric : bool) (w : MatrixXd)
         (tol : double) (nonneg : bool) (L1_w L1_h : double) (maxit : nat)
         (diag : bool) (fast_maxit cd_maxit : nat) (cd_tol : double),
    iter_spec
      (nmf_dense_body A (if symmetric then mkMatrix 0 [] else transpose A)
                      symmetric nonneg L1_w L1_h diag fast_maxit cd_maxit cd_tol
                      (rows w))
      tol (nmf_init w (cols A)) maxit
      (res_iter (Rcpp_nmf_dense A symmetric w tol nonneg L1_w L1_h maxit diag
                                fast_maxit cd_maxit cd_tol)) /\
    iter_spec
      (nmf_sparse_body As At symmetric nonneg L1_w L1_h diag fast_maxit cd_maxit
                       cd_tol (rows w))
      tol (nmf_init w (dg_cols As)) maxit
      (res_iter (Rcpp_nmf_sparse As At symmetric w tol nonneg L1_w L1_h maxit diag
                                 fast_maxit cd_maxit cd_tol)).
Proof.
  intros. split.
  - unfold Rcpp_nmf_dense. rewrite res_iter_finish. apply als_loop_iter_spec.
  - unfold Rcpp_nmf_sparse. rewrite res_iter_finish. apply als_loop_iter_spec.
Qed.

(** (C1, as stated, fails) For the rank-1 matrix of scenario S1 and an
    initial [w] proportional to its left factor, the test succeeds at the end
    of the first complete iteration ([tol_ = 0]); the returned [iter] is 0,
    not 1. *)
Lemma nmf_iter_counterexample :
  let A := mkMatrix 3 [[4; 8; 12]; [5; 10; 15]] in
  let w := mkMatrix 1 [[1]; [2]; [3]] in
  let tol := 1 # 1000 in
  let cd_tol := 1 # 100000000 in
  let r := @Rcpp_nmf_dense ExactNumerics A false w tol true 0 0 100 true
                           10 100 cd_tol in
  first_converged
    (@nmf_dense_body ExactNumerics A (transpose A) false true 0 0 true 10 100
                     cd_tol 1)
    tol (nmf_init w 2) 1 /\
  res_tol r = 0 /\
  res_iter r = 0%nat /\
  res_iter r <> 1%nat.
Proof.
  intros A w tol cd_tol r.
  assert (Hi : res_iter r = 0%nat) by (vm_compute; reflexivity).
  split; [split | split; [| split]].
  - vm_compute. reflexivity.
  - intros t' Ht'. lia.
  - vm_compute. reflexivity.
  - exact Hi.
  - rewrite Hi. discriminate.
Qed.

(* ------------------------------------------------------------------ *)
(** ** Matrices: reading after writing *)

Lemma nth_upd {A : Type} (i j : nat) (v d : A) (l : list A) :
  nth j (upd i v l) d
  = if (i =? j)%nat && (i <? length l)%nat then v else nth j l d.
Proof.
  destruct (Nat.eqb_spec i j) as [->|Hne]; simpl.
  - destruct (Nat.ltb_spec j (length l)) as [Hlt|Hge].
    + apply nth_upd_same; exact Hlt.
    + rewrite !nth_overflow; auto. rewrite upd_length; exact Hge.
  - apply nth_upd_other; exact Hne.
Qed.

Lemma cols_set_coef (m : MatrixXd) (i j : nat) (v : double) :
  cols (set_coef m i j v) = cols m.
Proof. unfold cols, set_coef; simpl. apply upd_length. Qed.

Lemma coef_set_coef_same (m : MatrixXd) (i j : nat) (v : double) :
  (j < cols m)%nat -> (i < length (col m j))%nat ->
  coef (set_coef m i j v) i j = v.
Proof.
  intros Hj Hi. unfold coef, col, set_coef, vget; simpl.
  rewrite nth_upd_same by exact Hj. apply nth_upd_same. exact Hi.
Qed.

Lemma coef_set_coef_other (m : MatrixXd) (i j i' j' : nat) (v : double) :
  i <> i' \/ j <> j' ->
  coef (set_coef m i j v) i' j' = coef m i' j'.
Proof.
  intros H. unfold coef, col, set_coef, vget; simpl.
  rewrite nth_upd.
  destruct (Nat.eqb_spec j j') as [<-|Hj]; simpl; auto.
  destruct (Nat.ltb_spec j (length (columns m))); auto.
  apply nth_upd_other. destruct H; congruence.
Qed.

Lemma col_length_set_coef (m : MatrixXd) (i j j' : nat) (v : double) :
  length (col (set_coef m i j v) j') = length (col m j').
Proof.
  unfold col, set_coef; simpl. rewrite nth_upd.
  destruct (Nat.eqb_spec j j') as [<-|Hj]; simpl; auto.
  destruct (Nat.ltb_spec j (length (columns m))); auto.
  apply upd_length.
Qed.

Lemma tall_col (k : nat) (m : MatrixXd) (j : nat) :
  tall k m -> (j < cols m)%nat -> (k <= length (col m j))%nat.
Proof.
  unfold tall, col, cols. intros H Hj.
  rewrite Forall_forall in H. apply H. apply nth_In. exact Hj.
Qed.

Lemma tall_set_coef (k : nat) (m : MatrixXd) (i j : nat) (v : double) :
  tall k m -> tall k (set_coef m i j v).
Proof.
  unfold tall. intros H. apply Forall_forall. intros c Hc.
  destruct (In_nth _ _ [] Hc) as [j' [Hj' Hn]].
  change (nth j' (columns (set_coef m i j v)) []) with (col (set_coef m i j v) j') in Hn.
  rewrite <- Hn, col_length_set_coef.
  apply tall_col; auto.
  change (j' < cols (set_coef m i j v))%nat in Hj'.
  rewrite cols_set_coef in Hj'. exact Hj'.
Qed.

(** A row, read coefficient by coefficient. *)
Lemma row_coef (m : MatrixXd) (i : nat) :
  row m i = map (coef m i) (seq 0 (cols m)).
Proof.
  unfold row, coef, col, cols.
  assert (H : forall (l pre : list VectorXd),
             map (fun c => vget c i) l
             = map (fun j => vget (nth j (pre ++ l) []) i)
                   (seq (length pre) (length l))).
  { induction l as [|c l IH]; intros pre; simpl; auto.
    rewrite app_nth2, Nat.sub_diag by lia. simpl. f_equal.
    specialize (IH (pre ++ [c])). rewrite <- app_assoc, length_app in IH.
    simpl in IH. rewrite Nat.add_1_r in IH. exact IH. }
  apply (H (columns m) []).
Qed.

(* ------------------------------------------------------------------ *)
(** ** Sums *)

Lemma fold_dadd_acc (l : list double) (acc : double) :
  Qeq (fold_left dadd l acc) (Qplus acc (fold_right Qplus 0%Q l)).
Proof.
  revert acc; induction l as [|v l IH]; intros acc; simpl.
  - lra.
  - rewrite IH, dadd_eq. lra.
Qed.

Lemma vsum_sum (l : list double) : Qeq (vsum l) (fold_right Qplus 0%Q l).
Proof.
  unfold vsum. rewrite fold_dadd_acc. lra.
Qed.

(** The sum of the quotients is the quotient of the sum. *)
Lemma vsum_map_div (l : list double) (c : double) :
  Qeq (vsum (map (fun v => v / c) l)) (Qdiv (vsum l) c).
Proof.
  rewrite !vsum_sum. induction l as [|v l IH]; simpl.
  - unfold Qdiv. lra.
  - rewrite IH, ddiv_eq. unfold Qdiv. lra.
Qed.

(* ------------------------------------------------------------------ *)
(** ** The diagonal rescale *)

Lemma tall_le (k k' : nat) (m : MatrixXd) :
  (k' <= k)%nat -> tall k m -> tall k' m.
Proof.
  unfold tall. intros Hk H. eapply Forall_impl; [|exact H].
  simpl. intros c Hc. lia.
Qed.

(** The loop [for (j < n) m(i, j) /= c] over the columns [l]. *)
Lemma scale_row_loop (i : nat) (c : double) (l : list nat) :
  forall m : MatrixXd,
    NoDup l -> tall (S i) m -> (forall j, In j l -> (j < cols m)%nat) ->
    let m' := fold_left (fun m0 j => set_coef m0 i j (coef m0 i j / c)) l m in
    cols m' = cols m /\
    (forall k, tall k m -> tall k m') /\
    (forall j, In j l -> coef m' i j = coef m i j / c) /\
    (forall i' j, i' <> i \/ ~ In j l -> coef m' i' j = coef m i' j).
Proof.
  induction l as [|j l IH]; intros m Hnd Htall Hl; simpl.
  - repeat split; auto. intros j [].
  - inversion Hnd as [|? ? Hnotin Hnd']; subst.
    set (m1 := set_coef m i j (coef m i j / c)).
    destruct (IH m1 Hnd') as [Hc [Ht [Hin Hout]]].
    { apply tall_set_coef; exact Htall. }
    { intros j' Hj'. unfold m1. rewrite cols_set_coef. apply Hl; simpl; auto. }
    assert (Hj : (j < cols m)%nat) by (apply Hl; simpl; auto).
    assert (Hi : (i < length (col m j))%nat)
      by (pose proof (tall_col _ _ _ Htall Hj); lia).
    split; [|split; [|split]].
    + rewrite Hc. apply cols_set_coef.
    + intros k Hk. apply Ht. apply tall_set_coef; exact Hk.
    + intros j' [<-|Hj'].
      * rewrite Hout by (right; exact Hnotin).
        apply coef_set_coef_same; assumption.
      * rewrite Hin by exact Hj'. unfold m1.
        rewrite coef_set_coef_other; auto.
        right. intros ->. contradiction.
    + intros i' j' H. rewrite Hout.
      * unfold m1. apply coef_set_coef_other.
        destruct H as [H|H]; [left; congruence|].
        right. intros ->. apply H. simpl; auto.
      * destruct H as [H|H]; [left; exact H|].
        right. intros Hj'. apply H. simpl; auto.
Qed.

(** One factor row [i]: [d[i]] becomes the sum of the row plus [1e-15],
    the row is divided by it, and nothing else changes. *)
Lemma rescale_row_spec (n i : nat) (m : MatrixXd) (d : VectorXd) :
  n = cols m -> tall (S i) m -> (i < length d)%nat ->
  let c := vsum (row m i) + eps15 in
  let md := rescale_row n (m, d) i in
  cols (fst md) = cols m /\
  (forall k, tall k m -> tall k (fst md)) /\
  length (snd md) = length d /\
  row (fst md) i = map (fun v => v / c) (row m i) /\
  vget (snd md) i = c /\
  (forall i', i' <> i ->
     row (fst md) i' = row m i' /\ vget (snd md) i' = vget d i').
Proof.
  intros Hn Htall Hi c md. unfold md, rescale_row. cbn [fst snd].
  assert (Hd : vget (upd i c d) i = c)
    by (unfold vget; apply nth_upd_same; exact Hi).
  fold c. rewrite Hd.
  destruct (scale_row_loop i c (seq 0 n) m) as [Hc [Ht [Hin Hout]]].
  { apply seq_NoDup. }
  { exact Htall. }
  { intros j Hj. apply in_seq in Hj. lia. }
  split; [exact Hc|]. split; [exact Ht|].
  split; [apply upd_length|].
  split; [|split; [reflexivity|]].
  - rewrite !row_coef, Hc, map_map. apply map_ext_in.
    intros j Hj. apply Hin. rewrite Hn. exact Hj.
  - intros i' Hi'. split.
    + rewrite !row_coef, Hc. apply map_ext. intros j. apply Hout. left; exact Hi'.
    + unfold vget. apply nth_upd_other. congruence.
Qed.

(** The loop over the factor rows [l]. *)
Lemma rescale_rows_spec (n k : nat) (l : list nat) :
  forall (m : MatrixXd) (d : VectorXd),
    NoDup l -> (forall i, In i l -> (i < k)%nat) ->
    n = cols m -> tall k m -> (k <= length d)%nat ->
    let md := fold_left (rescale_row n) l (m, d) in
    (forall i, In i l ->
       row (fst md) i = map (fun v => v / (vsum (row m i) + eps15)) (row m i) /\
       vget (snd md) i = vsum (row m i) + eps15) /\
    (forall i, ~ In i l ->
       row (fst md) i = row m i /\ vget (snd md) i = vget d i).
Proof.
  induction l as [|i l IH]; intros m d Hnd Hl Hn Htall Hd; simpl.
  - split; [intros i []|]. intros i _. split; reflexivity.
  - inversion Hnd as [|? ? Hnotin Hnd']; subst.
    assert (Hi : (i < k)%nat) by (apply Hl; simpl; auto).
    destruct (rescale_row_spec (cols m) i m d eq_refl) as
        [Hc [Ht [Hlen [Hrow [Hdi Hother]]]]].
    { apply (tall_le k); [lia | exact Htall]. }
    { lia. }
    destruct (rescale_row (cols m) (m, d) i) as [m1 d1] eqn:E.
    cbn [fst snd] in *.
    destruct (IH m1 d1 Hnd') as [Hin Hout].
    { intros i' Hi'. apply Hl; simpl; auto. }
    { rewrite Hc. reflexivity. }
    { apply Ht. exact Htall. }
    { lia. }
    split.
    + intros i' [<-|Hi'].
      * destruct (Hout i Hnotin) as [-> ->]. split; assumption.
      * assert (Hne : i' <> i) by (intros ->; contradiction).
        destruct (Hin i' Hi') as [-> ->].
        destruct (Hother i' Hne) as [-> _]. split; reflexivity.
    + intros i' Hi'.
      assert (Hne : i' <> i) by (intros ->; apply Hi'; simpl; auto).
      assert (Hnl : ~ In i' l) by (intros H; apply Hi'; simpl; auto).
      destruct (Hout i' Hnl) as [-> ->]. apply Hother. exact Hne.
Qed.

Lemma rescale_row_shape (n i : nat) (md : MatrixXd * VectorXd) :
  rows (fst (rescale_row n md i)) = rows (fst md) /\
  length (snd (rescale_row n md i)) = length (snd md).
Proof.
  unfold rescale_row; cbn [fst snd]. split; [|apply upd_length].
  generalize (vget (upd i (vsum (row (fst md) i) + eps15) (snd md)) i) as c.
  intros c. generalize (fst md) as m. generalize (seq 0 n) as l.
  induction l as [|j l IH]; intros m; simpl; auto.
  rewrite IH. reflexivity.
Qed.

Lemma rescale_rows_shape (n : nat) (l : list nat) :
  forall md : MatrixXd * VectorXd,
    rows (fst (fold_left (rescale_row n) l md)) = rows (fst md) /\
    length (snd (fold_left (rescale_row n) l md)) = length (snd md).
Proof.
  induction l as [|i l IH]; intros md; simpl; [split; reflexivity|].
  destruct (IH (rescale_row n md i)) as [-> ->]. apply rescale_row_shape.
Qed.

Lemma rescale_shape (diag : bool) (k n : nat) (m : MatrixXd) (d : VectorXd) :
  rows (fst (rescale diag k n m d)) = rows m /\
  length (snd (rescale diag k n m d)) = length d.
Proof.
  unfold rescale. destruct diag; [|split; reflexivity].
  apply (rescale_rows_shape n (seq 0 k) (m, d)).
Qed.

Lemma rescaled_sum_bound (s r : Q) :
  (r == s / (s + eps15))%Q -> (1 # 1000 <= s + eps15)%Q ->
  (Qabs (r - 1) <= 1 # 1000000000000)%Q.
Proof.
  intros Hr Ht. rewrite Hr. unfold eps15 in *.
  assert (Hpos : (0 < s + (1 # 1000000000000000))%Q) by lra.
  apply Qabs_Qle_condition. split.
  - assert (H : ((1 - (1 # 1000000000000))
                 <= s / (s + (1 # 1000000000000000)))%Q).
    { apply Qle_shift_div_l; [exact Hpos | lra]. }
    lra.
  - assert (H : (s / (s + (1 # 1000000000000000))
                 <= 1 + (1 # 1000000000000))%Q).
    { apply Qle_shift_div_r; [exact Hpos | lra]. }
    lra.
Qed.

Lemma rescale_rescaled_from (k n : nat) (m0 : MatrixXd) (d : VectorXd) :
  n = cols m0 -> tall k m0 -> (k <= length d)%nat ->
  rescaled_from m0 (fst (rescale true k n m0 d)) k.
Proof.
  intros Hn Htall Hd i Hi s. unfold rescale.
  destruct (rescale_rows_spec n k (seq 0 k) m0 d) as [Hin _]; auto.
  { apply seq_NoDup. }
  { intros j Hj. apply in_seq in Hj. lia. }
  destruct (Hin i) as [Hrow _]; [apply in_seq; lia|].
  assert (Hsum : (vsum (row (fst (fold_left (rescale_row n) (seq 0 k) (m0, d))) i)
                  == s / (s + eps15))%Q).
  { rewrite Hrow, vsum_map_div. fold s. rewrite dadd_eq. reflexivity. }
  split; [exact Hsum|]. split.
  - intros Ht. apply (rescaled_sum_bound s); assumption.
  - intros Hs. rewrite Hsum, Hs. unfold Qdiv. lra.
Qed.

(* ------------------------------------------------------------------ *)
(** ** The shape of a projection *)

Lemma cd_coords_length (a : MatrixXd) (nonneg : bool) (l : list nat) :
  forall s : cd_state,
    length (cd_x (fold_left (cd_coord a nonneg) l s)) = length (cd_x s).
Proof.
  induction l as [|i l IH]; intros s; simpl; auto.
  rewrite IH. apply cd_coord_length.
Qed.

Lemma cd_loop_length (a : MatrixXd) (nonneg : bool) (cd_tol : double)
      (fuel : nat) :
  forall (it : nat) (s : cd_state),
    length (cd_x (fst (cd_loop a nonneg cd_tol fuel it s))) = length (cd_x s).
Proof.
  induction fuel as [|fuel IH]; intros it s; simpl; auto.
  destruct (Qltb cd_tol (cd_tol_it s)); simpl; auto.
  rewrite IH. unfold cd_sweep. rewrite cd_coords_length. reflexivity.
Qed.

Lemma c_cdnnls_length (a : MatrixXd) (b x : VectorXd) (cd_maxit : nat)
      (cd_tol : double) (nonneg : bool) :
  length (c_cdnnls a b x cd_maxit cd_tol nonneg) = length x.
Proof.
  unfold c_cdnnls, c_cdnnls_run. rewrite cd_loop_length. reflexivity.
Qed.

Lemma scatter_length {A : Type} (f : nat -> nat) (g : nat -> A) (l : list nat) :
  forall x : list A,
    length (fold_left (fun x' i => upd (f i) (g i) x') l x) = length x.
Proof.
  induction l as [|i l IH]; intros x; simpl; auto.
  rewrite IH. apply upd_length.
Qed.

Lemma maps_length {E : Type} (f : VectorXd -> E -> nat -> double) (k : nat)
      (l : list E) :
  forall b : VectorXd,
    length b = k ->
    length (fold_left (fun b' e => map (f b' e) (seq 0 k)) l b) = k.
Proof.
  induction l as [|e l IH]; intros b Hb; simpl; auto.
  apply IH. rewrite length_map, length_seq. reflexivity.
Qed.

Lemma sub_L1_length (L1 : double) (k : nat) (b : VectorXd) :
  length b = k -> length (sub_L1 L1 k b) = k.
Proof.
  intros H. unfold sub_L1. destruct (Qneqb L1 0); auto.
  rewrite length_map, length_seq. reflexivity.
Qed.

Lemma rhs_dense_length (A w : MatrixXd) (k i : nat) :
  length (rhs_dense A w k i) = k.
Proof.
  unfold rhs_dense.
  apply (maps_length (fun b it j => vget b j + coef A it i * coef w j it)).
  apply repeat_length.
Qed.

Lemma rhs_sparse_length (A : dgCMatrix) (w : MatrixXd) (k i : nat) :
  length (rhs_sparse A w k i) = k.
Proof.
  unfold rhs_sparse.
  apply (maps_length (fun b e j => vget b j + snd e * coef w j (fst e))).
  apply repeat_length.
Qed.

Lemma rows_add_ridge (a : MatrixXd) : rows (add_ridge a) = rows a.
Proof.
  unfold add_ridge. generalize (seq 0 (cols a)) as l. revert a.
  assert (H : forall (l : list nat) (a : MatrixXd),
             rows (fold_left (fun a' i => set_coef a' i i (coef a' i i + eps15))
                             l a) = rows a).
  { induction l as [|i l IH]; intros a; simpl; auto. rewrite IH. reflexivity. }
  intros a l. apply H.
Qed.

Section ProjectionShape.
Context {N : Numerics} {NS : NumericsSpec N}.

Lemma fast_loop_length (a : MatrixXd) (b : VectorXd) (nonneg : bool)
      (fuel : nat) :
  forall x : VectorXd, length (fast_loop a b nonneg fuel x) = length x.
Proof.
  induction fuel as [|fuel IH]; intros x; simpl; auto.
  destruct (nonneg && any_neg x); auto.
  rewrite IH. unfold fast_round. rewrite scatter_length.
  apply repeat_length.
Qed.

(** The solution has as many components as the right-hand side. *)
Lemma c_nnls_length (a : MatrixXd) (b : VectorXd) (a_llt : LLT)
      (fast_maxit cd_maxit : nat) (cd_tol : double) (nonneg : bool) :
  length (c_nnls a b a_llt fast_maxit cd_maxit cd_tol nonneg) = length b.
Proof.
  unfold c_nnls.
  destruct ((cd_maxit =? 0)%nat && nonneg);
    rewrite ?c_cdnnls_length, fast_loop_length; apply llt_solve_length.
Qed.

Lemma project_dense_shape (A w : MatrixXd) (nonneg : bool)
      (fast_maxit cd_maxit : nat) (cd_tol L1 : double) :
  let h := Rcpp_project_dense A w nonneg fast_maxit cd_maxit cd_tol L1 in
  rows h = rows w /\ cols h = cols A /\ tall (rows w) h.
Proof.
  unfold Rcpp_project_dense, cols, tall; cbn [rows columns].
  rewrite rows_add_ridge. cbn [mmul rows].
  split; [reflexivity|]. split; [rewrite length_map, length_seq; reflexivity|].
  apply Forall_forall. intros c Hc. apply in_map_iff in Hc.
  destruct Hc as [i [<- _]].
  rewrite c_nnls_length, sub_L1_length; auto using rhs_dense_length.
Qed.

Lemma project_sparse_shape (A : dgCMatrix) (w : MatrixXd) (nonneg : bool)
      (fast_maxit cd_maxit : nat) (cd_tol L1 : double) :
  let h := c_project_sparse A w nonneg fast_maxit cd_maxit cd_tol L1 in
  rows h = rows w /\ cols h = dg_cols A /\ tall (rows w) h.
Proof.
  unfold c_project_sparse, cols, tall; cbn [rows columns].
  rewrite rows_add_ridge. cbn [mmul rows].
  split; [reflexivity|]. split; [rewrite length_map, length_seq; reflexivity|].
  apply Forall_forall. intros c Hc. apply in_map_iff in Hc.
  destruct Hc as [i [<- _]].
  rewrite c_nnls_length, sub_L1_length; auto using rhs_sparse_length.
Qed.

End ProjectionShape.

(* ------------------------------------------------------------------ *)
(** ** (C4) Row sums after the diagonal rescale *)

Lemma cols_transpose (m : MatrixXd) : cols (transpose m) = rows m.
Proof.
  unfold cols, transpose; simpl. rewrite length_map, length_seq. reflexivity.
Qed.

Section RescaleInIteration.
Context {N : Numerics} {NS : NumericsSpec N}.

Variables (A At : MatrixXd) (As Ats : dgCMatrix).
Variables (symmetric nonneg diag : bool) (L1_w L1_h : double).
Variables (fast_maxit cd_maxit : nat) (cd_tol : double) (k : nat).

Local Abbreviation h0d := (dense_h0 A nonneg L1_h fast_maxit cd_maxit cd_tol).
Local Abbreviation w0d :=
  (dense_w0 A At symmetric nonneg diag L1_w L1_h fast_maxit cd_maxit cd_tol k).
Local Abbreviation h0s := (sparse_h0 As nonneg L1_h fast_maxit cd_maxit cd_tol).
Local Abbreviation w0s :=
  (sparse_w0 As Ats symmetric nonneg diag L1_w L1_h fast_maxit cd_maxit cd_tol k).
Local Abbreviation shape := (als_shape k).

Let dense_body :=
  nmf_dense_body A At symmetric nonneg L1_w L1_h diag fast_maxit cd_maxit cd_tol k.

Let sparse_body :=
  nmf_sparse_body As Ats symmetric nonneg L1_w L1_h diag fast_maxit cd_maxit
                  cd_tol k.

Lemma dense_body_factors (s : als_state) :
  als_h (dense_body s) = fst (rescale diag k (cols A) (h0d s) (als_d s)) /\
  als_w (dense_body s)
  = fst (rescale diag k (rows A) (w0d s)
                 (snd (rescale diag k (cols A) (h0d s) (als_d s)))) /\
  als_d (dense_body s)
  = snd (rescale diag k (rows A) (w0d s)
                 (snd (rescale diag k (cols A) (h0d s) (als_d s)))).
Proof.
  unfold dense_body, nmf_dense_body, dense_w0, dense_h0. cbn [als_h als_w als_d].
  destruct symmetric; repeat split.
Qed.

Lemma sparse_body_factors (s : als_state) :
  als_h (sparse_body s)
  = fst (rescale diag k (dg_cols As) (h0s s) (als_d s)) /\
  als_w (sparse_body s)
  = fst (rescale diag k (dg_rows As) (w0s s)
                 (snd (rescale diag k (dg_cols As) (h0s s) (als_d s)))) /\
  als_d (sparse_body s)
  = snd (rescale diag k (dg_rows As) (w0s s)
                 (snd (rescale diag k (dg_cols As) (h0s s) (als_d s)))).
Proof.
  unfold sparse_body, nmf_sparse_body, sparse_w0, sparse_h0.
  cbn [als_h als_w als_d].
  destruct symmetric; repeat split.
Qed.

Lemma dense_w0_rows (s : als_state) : shape s -> rows (w0d s) = k.
Proof.
  intros [Hw _]. unfold dense_w0.
  destruct (project_dense_shape (if symmetric then A else At)
              (fst (rescale diag k (cols A) (h0d s) (als_d s)))
              nonneg fast_maxit cd_maxit cd_tol L1_w) as [-> _].
  destruct (rescale_shape diag k (cols A) (h0d s) (als_d s)) as [-> _].
  unfold dense_h0.
  destruct (project_dense_shape A (als_w s) nonneg fast_maxit cd_maxit cd_tol L1_h)
    as [-> _].
  exact Hw.
Qed.

Lemma sparse_w0_rows (s : als_state) : shape s -> rows (w0s s) = k.
Proof.
  intros [Hw _]. unfold sparse_w0.
  destruct (project_sparse_shape (if symmetric then As else Ats)
              (fst (rescale diag k (dg_cols As) (h0s s) (als_d s)))
              nonneg fast_maxit cd_maxit cd_tol L1_w) as [-> _].
  destruct (rescale_shape diag k (dg_cols As) (h0s s) (als_d s)) as [-> _].
  unfold sparse_h0.
  destruct (project_sparse_shape As (als_w s) nonneg fast_maxit cd_maxit cd_tol
                                 L1_h) as [-> _].
  exact Hw.
Qed.

Lemma dense_body_shape (s : als_state) : shape s -> shape (dense_body s).
Proof.
  intros Hs. unfold als_shape. destruct (dense_body_factors s) as [_ [-> ->]].
  destruct (rescale_shape diag k (rows A) (w0d s)
              (snd (rescale diag k (cols A) (h0d s) (als_d s)))) as [-> ->].
  destruct (rescale_shape diag k (cols A) (h0d s) (als_d s)) as [_ ->].
  split; [apply dense_w0_rows; exact Hs | apply Hs].
Qed.

Lemma sparse_body_shape (s : als_state) :
  shape s -> shape (sparse_body s).
Proof.
  intros Hs. unfold als_shape. destruct (sparse_body_factors s) as [_ [-> ->]].
  destruct (rescale_shape diag k (dg_rows As) (w0s s)
              (snd (rescale diag k (dg_cols As) (h0s s) (als_d s))))
    as [-> ->].
  destruct (rescale_shape diag k (dg_cols As) (h0s s) (als_d s)) as [_ ->].
  split; [apply sparse_w0_rows; exact Hs | apply Hs].
Qed.

Lemma iter_shape (body : als_state -> als_state) (s0 : als_state) (t : nat) :
  (forall s, shape s -> shape (body s)) ->
  shape s0 -> shape (Nat.iter t body s0).
Proof.
  intros Hb H0. induction t as [|t IH]; simpl; auto.
Qed.

Lemma nmf_init_shape (w : MatrixXd) (n : nat) :
  rows w = k -> shape (nmf_init w n).
Proof.
  intros Hw. unfold als_shape, nmf_init; simpl. split; [exact Hw|].
  unfold ones. rewrite repeat_length. exact Hw.
Qed.

Lemma dense_rescaled (s : als_state) :
  diag = true -> cols (if symmetric then A else At) = rows A ->
  shape s ->
  rescaled_from (h0d s) (als_h (dense_body s)) k /\
  rescaled_from (w0d s) (als_w (dense_body s)) k.
Proof.
  intros Hdiag Hsq Hs.
  destruct (dense_body_factors s) as [-> [-> _]].
  pose proof (dense_w0_rows s Hs) as Hw0. revert Hw0.
  unfold dense_w0. rewrite Hdiag. intros Hw0.
  destruct Hs as [Hw Hd].
  destruct (project_dense_shape A (als_w s) nonneg fast_maxit cd_maxit cd_tol L1_h)
    as [Hr [Hc Ht]].
  fold (h0d s) in Hr, Hc, Ht. rewrite Hw in Ht.
  split.
  - apply rescale_rescaled_from; [symmetry; exact Hc | exact Ht | lia].
  - set (hd := rescale true k (cols A) (h0d s) (als_d s)) in *.
    destruct (project_dense_shape (if symmetric then A else At) (fst hd)
                nonneg fast_maxit cd_maxit cd_tol L1_w) as [Hr' [Hc' Ht']].
    rewrite Hr' in Hw0. rewrite Hw0 in Ht'.
    apply rescale_rescaled_from; [rewrite Hc'; symmetry; exact Hsq | exact Ht' |].
    unfold hd. destruct (rescale_shape true k (cols A) (h0d s) (als_d s))
      as [_ ->]. lia.
Qed.

Lemma sparse_rescaled (s : als_state) :
  diag = true -> dg_cols (if symmetric then As else Ats) = dg_rows As ->
  shape s ->
  rescaled_from (h0s s) (als_h (sparse_body s)) k /\
  rescaled_from (w0s s) (als_w (sparse_body s)) k.
Proof.
  intros Hdiag Hsq Hs.
  destruct (sparse_body_factors s) as [-> [-> _]].
  pose proof (sparse_w0_rows s Hs) as Hw0. revert Hw0.
  unfold sparse_w0. rewrite Hdiag. intros Hw0.
  destruct Hs as [Hw Hd].
  destruct (project_sparse_shape As (als_w s) nonneg fast_maxit cd_maxit cd_tol
                                 L1_h) as [Hr [Hc Ht]].
  fold (h0s s) in Hr, Hc, Ht. rewrite Hw in Ht.
  split.
  - apply rescale_rescaled_from; [symmetry; exact Hc | exact Ht | lia].
  - set (hd := rescale true k (dg_cols As) (h0s s) (als_d s)) in *.
    destruct (project_sparse_shape (if symmetric then As else Ats) (fst hd)
                nonneg fast_maxit cd_maxit cd_tol L1_w) as [Hr' [Hc' Ht']].
    rewrite Hr' in Hw0. rewrite Hw0 in Ht'.
    apply rescale_rescaled_from; [rewrite Hc'; symmetry; exact Hsq | exact Ht' |].
    unfold hd. destruct (rescale_shape true k (dg_cols As) (h0s s) (als_d s))
      as [_ ->]. lia.
Qed.

(** (C4, as the code has it) In every iteration of the general drivers run
    with [diag = true] (the [t + 1]-th one here, from an initial [w] of [k]
    rows), the rescale leaves each of the [k] rows of [H], and then of [W],
    with the sum [s / (s + 1e-15)], where [s] is the sum of that row of the
    projection just computed.  That is within [1e-12] of 1 when
    [s + 1e-15 >= 1e-3]; a row of zeros stays a row of zeros, of sum 0. *)
Theorem rescale_row_sums :
  diag = true ->
  cols (if symmetric then A else At) = rows A ->
  dg_cols (if symmetric then As else Ats) = dg_rows As ->
  forall (w : MatrixXd) (t : nat),
    rows w = k ->
    let sd := Nat.iter t dense_body (nmf_init w (cols A)) in
    let ss := Nat.iter t sparse_body (nmf_init w (dg_cols As)) in
    (rescaled_from (h0d sd) (als_h (dense_body sd)) k /\
     rescaled_from (w0d sd) (als_w (dense_body sd)) k) /\
    (rescaled_from (h0s ss) (als_h (sparse_body ss)) k /\
     rescaled_from (w0s ss) (als_w (sparse_body ss)) k).
Proof.
  intros Hdiag Hd Hs w t Hw sd ss. split.
  - apply dense_rescaled; auto.
    apply iter_shape; [exact dense_body_shape | apply nmf_init_shape; exact Hw].
  - apply sparse_rescaled; auto.
    apply iter_shape; [exact sparse_body_shape | apply nmf_init_shape; exact Hw].
Qed.

End RescaleInIteration.

(** The first iteration on the matrix of scenario S1, dense and sparse. *)
Lemma rescale_row_sums_witness :
  let A := mkMatrix 3 [[4; 8; 12]; [5; 10; 15]] in
  let As := mkDgC [0; 1; 2; 0; 1; 2]%nat [0; 3; 6]%nat (3, 2)%nat
                  [4; 8; 12; 5; 10; 15] in
  let Ats := mkDgC [0; 1; 0; 1; 0; 1]%nat [0; 2; 4; 6]%nat (2, 3)%nat
                   [4; 5; 8; 10; 12; 15] in
  let w := mkMatrix 1 [[1]; [2]; [3]] in
  let cd_tol := 1 # 100000000 in
  let sd := nmf_init w (cols A) in
  let ss := nmf_init w (dg_cols As) in
  (rescaled_from
     (@dense_h0 ExactNumerics A true 0 10 100 cd_tol sd)
     (als_h (@nmf_dense_body ExactNumerics A (transpose A) false true 0 0 true
                             10 100 cd_tol 1 sd)) 1 /\
   rescaled_from
     (@dense_w0 ExactNumerics A (transpose A) false true true 0 0 10 100 cd_tol
                1 sd)
     (als_w (@nmf_dense_body ExactNumerics A (transpose A) false true 0 0 true
                             10 100 cd_tol 1 sd)) 1) /\
  (rescaled_from
     (@sparse_h0 ExactNumerics As true 0 10 100 cd_tol ss)
     (als_h (@nmf_sparse_body ExactNumerics As Ats false true 0 0 true
                              10 100 cd_tol 1 ss)) 1 /\
   rescaled_from
     (@sparse_w0 ExactNumerics As Ats false true true 0 0 10 100 cd_tol 1 ss)
     (als_w (@nmf_sparse_body ExactNumerics As Ats false true 0 0 true
                              10 100 cd_tol 1 ss)) 1).
Proof.
  intros A As Ats w cd_tol sd ss.
  exact (@rescale_row_sums ExactNumerics ExactNumericsSpec
           A (transpose A) As Ats false true true 0 0 10%nat 100%nat cd_tol 1%nat
           eq_refl eq_refl eq_refl w 0%nat eq_refl).
Defined.

(** (C4, as stated, fails) For an all-zero [A] the projection gives a row of
    zeros; the rescale divides it by [0 + 1e-15] and leaves it a row of
    zeros, whose sum is 0 and not within [1e-12] of 1. *)
Lemma rescale_row_sums_counterexample :
  let A := mkMatrix 2 [[0; 0]; [0; 0]] in
  let w := mkMatrix 1 [[1]; [1]] in
  let cd_tol := 1 # 100000000 in
  let s0 := nmf_init w (cols A) in
  let s1 := @nmf_dense_body ExactNumerics A (transpose A) false true 0 0 true
                            10 100 cd_tol 1 s0 in
  row (@dense_h0 ExactNumerics A true 0 10 100 cd_tol s0) 0 = [0; 0] /\
  row (als_h s1) 0 = [0; 0] /\
  vsum (row (als_h s1) 0) = 0 /\
  ~ (Qabs (vsum (row (als_h s1) 0) - 1) <= 1 # 1000000000000)%Q.
Proof.
  intros A w cd_tol s0 s1.
  assert (Hs : vsum (row (als_h s1) 0) = 0) by (vm_compute; reflexivity).
  split; [vm_compute; reflexivity|].
  split; [vm_compute; reflexivity|].
  split; [exact Hs|].
  rewrite Hs. intros H. vm_compute in H. apply H. reflexivity.
Qed.

(* ------------------------------------------------------------------ *)
(** ** (C8) The Gram matrix, its ridge and the shared factorization *)

Lemma nth_map_seq {B : Type} (f : nat -> B) (n i : nat) (d : B) :
  (i < n)%nat -> nth i (map f (seq 0 n)) d = f i.
Proof.
  intros Hi. rewrite (nth_indep _ d (f 0%nat)) by (rewrite length_map, length_seq; exact Hi).
  rewrite map_nth, seq_nth by exact Hi. reflexivity.
Qed.

(** The coefficients of [w * w.transpose()]. *)
Lemma gram_coef (w : MatrixXd) (i j : nat) :
  (i < rows w)%nat -> (j < rows w)%nat ->
  coef (mmul w (transpose w)) i j = dot (row w i) (row w j).
Proof.
  intros Hi Hj. unfold coef, col, mmul, transpose, vget; cbn [columns rows].
  rewrite map_map, nth_map_seq by exact Hj.
  unfold mvec. rewrite nth_map_seq by exact Hi. reflexivity.
Qed.

Lemma gram_shape (w : MatrixXd) :
  cols (mmul w (transpose w)) = rows w /\ tall (rows w) (mmul w (transpose w)).
Proof.
  unfold cols, tall, mmul, transpose; cbn [columns rows]. split.
  - rewrite !length_map, length_seq. reflexivity.
  - apply Forall_forall. intros c Hc. apply in_map_iff in Hc.
    destruct Hc as [x [<- _]]. unfold mvec.
    rewrite length_map, length_seq. lia.
Qed.

(** The loop [a(i, i) += 1e-15] over the indices [l]. *)
Lemma ridge_loop (k : nat) (l : list nat) :
  forall a : MatrixXd,
    NoDup l -> tall k a -> (forall i, In i l -> (i < k)%nat /\ (i < cols a)%nat) ->
    let a' := fold_left (fun a0 i => set_coef a0 i i (coef a0 i i + eps15)) l a in
    (forall i, In i l -> coef a' i i = coef a i i + eps15) /\
    (forall i j, i <> j \/ ~ In i l -> coef a' i j = coef a i j).
Proof.
  induction l as [|i l IH]; intros a Hnd Htall Hl; simpl.
  - split; [intros i []| reflexivity].
  - inversion Hnd as [|? ? Hnotin Hnd']; subst.
    set (a1 := set_coef a i i (coef a i i + eps15)).
    destruct (Hl i) as [Hik Hic]; [simpl; auto|].
    destruct (IH a1 Hnd') as [Hin Hout].
    { apply tall_set_coef; exact Htall. }
    { intros i' Hi'. unfold a1. rewrite cols_set_coef. apply Hl; simpl; auto. }
    assert (Hlen : (i < length (col a i))%nat)
      by (pose proof (tall_col _ _ _ Htall Hic); lia).
    split.
    + intros i' [<-|Hi'].
      * rewrite Hout by (right; exact Hnotin).
        apply coef_set_coef_same; assumption.
      * rewrite Hin by exact Hi'. unfold a1.
        assert (Hne : i <> i') by (intros ->; contradiction).
        rewrite coef_set_coef_other by (left; exact Hne). reflexivity.
    + intros i' j' H. rewrite Hout.
      * unfold a1. apply coef_set_coef_other.
        destruct H as [H|H].
        -- destruct (Nat.eq_dec i i') as [<-|Hne]; [right; exact H | left; exact Hne].
        -- left. intros ->. apply H. simpl; auto.
      * destruct H as [H|H]; [left; exact H|].
        right. intros Hi'. apply H. simpl; auto.
Qed.

Lemma add_ridge_coef (w : MatrixXd) (i j : nat) :
  (i < rows w)%nat -> (j < rows w)%nat ->
  coef (add_ridge (mmul w (transpose w))) i j
  = if (i =? j)%nat then dot (row w i) (row w i) + eps15
    else dot (row w i) (row w j).
Proof.
  intros Hi Hj. unfold add_ridge.
  destruct (gram_shape w) as [Hc Ht].
  destruct (ridge_loop (rows w) (seq 0 (cols (mmul w (transpose w))))
                       (mmul w (transpose w))) as [Hin Hout].
  { apply seq_NoDup. }
  { exact Ht. }
  { intros i' Hi'. apply in_seq in Hi'. rewrite Hc in *. lia. }
  destruct (Nat.eqb_spec i j) as [<-|Hne].
  - rewrite Hin by (apply in_seq; rewrite Hc; lia).
    rewrite gram_coef by assumption. reflexivity.
  - rewrite Hout by (left; exact Hne). apply gram_coef; assumption.
Qed.

Section SharedFactorization.
Context {N : Numerics}.

(** (C8) Each projection, sparse or dense, solves every column of [A]
    with one and the same matrix [a] and one factorization [llt a] of it,
    where [a] is the Gram matrix [w * w.transpose()] with [1e-15] added to
    each of its [k] diagonal coefficients, [k] being the number of rows of
    [w]. *)
Theorem projection_gram_ridge :
  forall (A : MatrixXd) (As : dgCMatrix) (w : MatrixXd) (nonneg : bool)
         (fast_maxit cd_maxit : nat) (cd_tol L1 : double),
    let k := rows w in
    let a := add_ridge (mmul w (transpose w)) in
    (forall i j, (i < k)%nat -> (j < k)%nat ->
       coef (mmul w (transpose w)) i j = dot (row w i) (row w j) /\
       coef a i j = if (i =? j)%nat then coef (mmul w (transpose w)) i i + eps15
                    else coef (mmul w (transpose w)) i j) /\
    (forall c, (c < cols A)%nat ->
       col (Rcpp_project_dense A w nonneg fast_maxit cd_maxit cd_tol L1) c
       = c_nnls a (sub_L1 L1 k (rhs_dense A w k c)) (llt a)
                fast_maxit cd_maxit cd_tol nonneg) /\
    (forall c, (c < dg_cols As)%nat ->
       col (c_project_sparse As w nonneg fast_maxit cd_maxit cd_tol L1) c
       = c_nnls a (sub_L1 L1 k (rhs_sparse As w k c)) (llt a)
                fast_maxit cd_maxit cd_tol nonneg).
Proof.
  intros A As w nonneg fast_maxit cd_maxit cd_tol L1 k a.
  split; [|split].
  - intros i j Hi Hj. unfold a. rewrite add_ridge_coef by assumption.
    rewrite !gram_coef by assumption. split; reflexivity.
  - intros c Hc. unfold Rcpp_project_dense, col; cbn [columns].
    rewrite nth_map_seq by exact Hc. rewrite rows_add_ridge. reflexivity.
  - intros c Hc. unfold c_project_sparse, col; cbn [columns].
    rewrite nth_map_seq by exact Hc. rewrite rows_add_ridge. reflexivity.
Qed.

End SharedFactorization.

(* ------------------------------------------------------------------ *)
(** ** (C6) The rank-2 solve *)

Lemma solve2_cases (a : MatrixXd) (denom b0 b1 : double) :
  kkt2_cases (coef a 0 0) (coef a 0 1) (coef a 1 1) denom b0 b1
             (fst (solve2 true a denom b0 b1)) (snd (solve2 true a denom b0 b1)).
Proof.
  unfold kkt2_cases, solve2.
  destruct (Qltb (coef a 1 1 * b0) (coef a 0 1 * b1)) eqn:E1.
  - apply Qltb_lt in E1. cbn [fst snd].
    split; [auto|]. split; intros H; contradiction.
  - assert (H1 : ~ Qlt (coef a 1 1 * b0)%D (coef a 0 1 * b1)%D)
      by (intros Hlt; apply (proj2 (Qltb_lt _ _)) in Hlt; congruence).
    destruct (Qltb (coef a 0 0 * b1) (coef a 0 1 * b0)) eqn:E2.
    + apply Qltb_lt in E2. cbn [fst snd].
      split; [intros H; contradiction|]. split; [auto|].
      intros _ H; contradiction.
    + assert (H2 : ~ Qlt (coef a 0 0 * b1)%D (coef a 0 1 * b0)%D)
        by (intros Hlt; apply (proj2 (Qltb_lt _ _)) in Hlt; congruence).
      cbn [fst snd].
      split; [intros H; contradiction|]. split; [intros _ H; contradiction|].
      auto.
Qed.

(** The loop of [solve2_all] over the columns [l]: column [i] of the result
    holds the solution for [(b0 i, b1 i)]. *)
Lemma solve2_loop (nonneg : bool) (a : MatrixXd) (denom : double)
      (b0 b1 : nat -> double) (l : list nat) :
  forall m : MatrixXd,
    NoDup l -> tall 2 m -> (forall i, In i l -> (i < cols m)%nat) ->
    let m' := fold_left
                (fun m0 i =>
                   let x := solve2 nonneg a denom (b0 i) (b1 i) in
                   set_coef (set_coef m0 0 i (fst x)) 1 i (snd x)) l m in
    forall i, In i l ->
      coef m' 0 i = fst (solve2 nonneg a denom (b0 i) (b1 i)) /\
      coef m' 1 i = snd (solve2 nonneg a denom (b0 i) (b1 i)).
Proof.
  induction l as [|j l IH]; intros m Hnd Htall Hl; simpl; [intros i []|].
  inversion Hnd as [|? ? Hnotin Hnd']; subst.
  set (x := solve2 nonneg a denom (b0 j) (b1 j)).
  set (m1 := set_coef (set_coef m 0 j (fst x)) 1 j (snd x)).
  assert (Hj : (j < cols m)%nat) by (apply Hl; simpl; auto).
  assert (Hlen : (2 <= length (col m j))%nat) by (apply tall_col; assumption).
  assert (Ht1 : tall 2 m1) by (unfold m1; auto using tall_set_coef).
  assert (Hc1 : cols m1 = cols m) by (unfold m1; rewrite !cols_set_coef; auto).
  intros i [<-|Hi].
  - assert (Hkeep : forall (l' : list nat) (m0 : MatrixXd) (r : nat),
               ~ In j l' ->
               coef (fold_left
                       (fun m2 i =>
                          let x := solve2 nonneg a denom (b0 i) (b1 i) in
                          set_coef (set_coef m2 0 i (fst x)) 1 i (snd x)) l' m0)
                    r j
               = coef m0 r j).
    { induction l' as [|c l' IHl]; intros m0 r Hn; simpl; auto.
      rewrite IHl by (intros H; apply Hn; simpl; auto).
      assert (Hne : c <> j) by (intros ->; apply Hn; simpl; auto).
      rewrite !coef_set_coef_other by (right; exact Hne). reflexivity. }
    rewrite !Hkeep by exact Hnotin. unfold m1. split.
    + rewrite coef_set_coef_other by (left; discriminate).
      apply coef_set_coef_same; [exact Hj | lia].
    + apply coef_set_coef_same; [rewrite cols_set_coef; exact Hj|].
      rewrite col_length_set_coef. lia.
  - apply (IH m1 Hnd' Ht1); [|exact Hi].
    intros i' Hi'. rewrite Hc1. apply Hl; simpl; auto.
Qed.

(** (C6) With [nonneg = true], each 2-variable problem the rank-2 drivers
    solve (the loop [solve2_all] of "update w" and of "update h", with
    [denom = a00 * a11 - a01 * a01]) stores in column [i] the solution of
    the three-way case analysis for the right-hand side [(b0 i, b1 i)]. *)
Theorem nmf2_solve_three_cases :
  forall (a : MatrixXd) (b0 b1 : nat -> double) (n : nat) (m : MatrixXd) (i : nat),
    (i < n)%nat -> (n <= cols m)%nat -> tall 2 m ->
    let m' := solve2_all true a (denom2 a) b0 b1 n m in
    kkt2_cases (coef a 0 0) (coef a 0 1) (coef a 1 1)
               (coef a 0 0 * coef a 1 1 - coef a 0 1 * coef a 0 1)
               (b0 i) (b1 i) (coef m' 0 i) (coef m' 1 i).
Proof.
  intros a b0 b1 n m i Hi Hn Htall m'.
  destruct (solve2_loop true a (denom2 a) b0 b1 (seq 0 n) m) with (i := i)
    as [H0 H1].
  - apply seq_NoDup.
  - exact Htall.
  - intros j Hj. apply in_seq in Hj. lia.
  - apply in_seq. lia.
  - cbv zeta in H0, H1. unfold m', solve2_all. rewrite H0, H1.
    apply solve2_cases.
Qed.

(** The three cases, on the right-hand sides of the first "update w" of
    [Rcpp_nmf2_dense] for a 3-by-3 matrix. *)
Lemma nmf2_solve_three_cases_witness :
  let A := mkMatrix 3 [[2; 1; 0]; [1; 2; 1]; [0; 1; 3]] in
  let h := mkMatrix 2 [[1; 0]; [1; 1]; [0; 1]] in
  let a := mmul h (transpose h) in
  let wb := wb_dense A h in
  let m' := solve2_all true a (denom2 a) (coef wb 0) (coef wb 1) 3 (zero_mat 2 3) in
  kkt2_cases (coef a 0 0) (coef a 0 1) (coef a 1 1)
             (coef a 0 0 * coef a 1 1 - coef a 0 1 * coef a 0 1)
             (coef wb 0 0) (coef wb 1 0) (coef m' 0 0) (coef m' 1 0).
Proof.
  intros A h a wb m'.
  apply (nmf2_solve_three_cases a (coef wb 0) (coef wb 1) 3 (zero_mat 2 3) 0).
  - lia.
  - vm_compute. lia.
  - unfold tall. vm_compute. repeat constructor.
Defined.

(* ------------------------------------------------------------------ *)
(** ** (C2) The final sort of the rank-2 drivers *)

Lemma upd_nth_id {A : Type} (i : nat) (d : A) (l : list A) :
  upd i (nth i l d) l = l.
Proof.
  revert i; induction l as [|h t IH]; intros [|i]; simpl; auto.
  rewrite IH. reflexivity.
Qed.

Lemma set_coef_id (m : MatrixXd) (i j : nat) :
  set_coef m i j (coef m i j) = m.
Proof.
  unfold set_coef, coef, col, vget. rewrite !upd_nth_id.
  destruct m; reflexivity.
Qed.

(** On a matrix of two rows, [m.col(0).swap(m.row(0))] exchanges [m(1, 0)]
    with [m(0, 1)] and nothing else. *)
Lemma swap_col0_row0_two_rows (m : MatrixXd) :
  rows m = 2%nat -> swap_col0_row0 m = exchange_10_01 m.
Proof.
  intros H. unfold swap_col0_row0, exchange_10_01. rewrite H. simpl.
  rewrite !set_coef_id. reflexivity.
Qed.

(** (C2, the code at a failing input) One iteration of [Rcpp_nmf2_dense]
    (and of [Rcpp_nmf2_sparse]) with [diag = true] on a 3-by-2 matrix leaves
    the loop with [d[0] < d[1]].  The two entries of [d] are swapped, but
    [W] and [H] come back with only their coefficients [(1, 0)] and [(0, 1)]
    exchanged: not with their two rows exchanged. *)
Lemma nmf2_sort_exchanges_two_coefficients :
  let A := mkMatrix 3 [[1; 2; 0]; [0; 1; 3]] in
  let As := mkDgC [0; 1; 1; 2]%nat [0; 2; 4]%nat (3, 2)%nat [1; 2; 1; 3] in
  let h := mkMatrix 2 [[1; 0]; [0; 1]] in
  let tol := 1 # 1000 in
  let s := fst (als_loop (@nmf2_dense_body ExactNumerics A true true) tol 1 0
                         (nmf2_init h 3)) in
  let r := @Rcpp_nmf2_dense ExactNumerics A h tol true 1 true in
  Qltb (vget (als_d s) 0) (vget (als_d s) 1) = true /\
  res_d r = [vget (als_d s) 1; vget (als_d s) 0] /\
  @Rcpp_nmf2_sparse ExactNumerics As h tol true 1 true = r /\
  row (als_w s) 0
  = [1000000000000000 # 3000000000000001;
     2000000000000000 # 3000000000000001; 0] /\
  row (als_w s) 1
  = [0; 1000000000000000 # 4000000000000001;
     3000000000000000 # 4000000000000001] /\
  col (res_w r) 0 = [1000000000000000 # 3000000000000001; 0; 0] /\
  col (res_w r) 1
  = [2000000000000000 # 3000000000000001;
     1000000000000000 # 4000000000000001;
     3000000000000000 # 4000000000000001] /\
  res_w r = transpose (exchange_10_01 (als_w s)) /\
  res_h r = exchange_10_01 (als_h s) /\
  res_w r <> transpose (swap_rows01 (als_w s)) /\
  res_h r <> swap_rows01 (als_h s).
Proof.
  intros A As h tol s r.
  split; [vm_compute; reflexivity|].
  split; [vm_compute; reflexivity|].
  split; [vm_compute; reflexivity|].
  split; [vm_compute; reflexivity|].
  split; [vm_compute; reflexivity|].
  split; [vm_compute; reflexivity|].
  split; [vm_compute; reflexivity|].
  split; [vm_compute; reflexivity|].
  split; [vm_compute; reflexivity|].
  split; vm_compute; discriminate.
Qed.

(* ------------------------------------------------------------------ *)
(** ** Reordering by an index vector *)

Lemma upd_repeat {A : Type} (i : nat) (v : A) (n : nat) :
  upd i v (repeat v n) = repeat v n.
Proof.
  revert i; induction n as [|n IH]; intros [|i]; simpl; auto.
  rewrite IH. reflexivity.
Qed.

Lemma map_const_repeat {A B : Type} (c : B) (l : list A) :
  map (fun _ => c) l = repeat c (length l).
Proof.
  induction l as [|x l IH]; simpl; auto. rewrite IH. reflexivity.
Qed.

Lemma map_nth_seq {A : Type} (l : list A) (d : A) :
  map (fun i => nth i l d) (seq 0 (length l)) = l.
Proof.
  assert (H : forall (l pre : list A),
             map (fun i => nth i (pre ++ l) d) (seq (length pre) (length l)) = l).
  { clear l. induction l as [|x l IH]; intros pre; simpl; auto.
    rewrite app_nth2, Nat.sub_diag by lia. simpl. f_equal.
    specialize (IH (pre ++ [x])). rewrite <- app_assoc, length_app in IH.
    simpl in IH. rewrite Nat.add_1_r in IH. exact IH. }
  apply (H l []).
Qed.

(** The loop [for (i < n) x(i) = f(i)] fills a vector of size [n]. *)
Lemma fold_upd_seq {A : Type} (f : nat -> A) (n : nat) (x : list A) :
  length x = n ->
  fold_left (fun xr i => upd i (f i) xr) (seq 0 n) x = map f (seq 0 n).
Proof.
  intros <-.
  assert (H : forall (rest pre : list A),
             fold_left (fun xr i => upd i (f i) xr)
                       (seq (length pre) (length rest)) (pre ++ rest)
             = pre ++ map f (seq (length pre) (length rest))).
  { induction rest as [|r rest IH]; intros pre; simpl; auto.
    rewrite upd_app_at.
    specialize (IH (pre ++ [f (length pre)])).
    rewrite <- !app_assoc, length_app in IH. simpl in IH.
    rewrite Nat.add_1_r in IH. exact IH. }
  apply (H x []).
Qed.

Lemma vget_row (m : MatrixXd) (i j : nat) : vget (row m i) j = coef m i j.
Proof.
  unfold vget, row, coef, col.
  destruct (Nat.ltb_spec j (length (columns m))) as [Hlt|Hge].
  - rewrite (nth_indep _ 0 (vget [] i)) by (rewrite length_map; exact Hlt).
    rewrite (map_nth (fun c => vget c i)). reflexivity.
  - rewrite !nth_overflow; auto; [|rewrite length_map; exact Hge].
    unfold vget. destruct i; reflexivity.
Qed.

Lemma coef_transpose (m : MatrixXd) (i j : nat) :
  (i < rows m)%nat -> coef (transpose m) j i = coef m i j.
Proof.
  intros Hi. unfold coef at 1. unfold col, transpose; cbn [columns].
  rewrite nth_map_seq by exact Hi. apply vget_row.
Qed.

Lemma reorder_spec (x : VectorXd) (ind : list nat) :
  length ind = length x ->
  reorder x ind = map (fun i => vget x (nth i ind 0%nat)) (seq 0 (length x)).
Proof.
  intros H. unfold reorder. rewrite H.
  apply (fold_upd_seq (fun i => vget x (nth i ind 0%nat))).
  apply repeat_length.
Qed.

Lemma map_snd_combine_seq {A : Type} (cs : list A) (n : nat) :
  map snd (combine (seq n (length cs)) cs) = cs.
Proof.
  revert n; induction cs as [|c cs IH]; intros n; simpl; auto.
  rewrite IH. reflexivity.
Qed.

Lemma map_combine_seq_map {A B : Type} (g : nat -> A -> A) (F : nat * A -> B)
      (cs : list A) (n : nat) :
  map F (combine (seq n (length cs))
                 (map (fun jc => g (fst jc) (snd jc))
                      (combine (seq n (length cs)) cs)))
  = map (fun jc => F (fst jc, g (fst jc) (snd jc)))
        (combine (seq n (length cs)) cs).
Proof.
  revert n; induction cs as [|c cs IH]; intros n; simpl; auto.
  rewrite IH. reflexivity.
Qed.

(** The columns that the loop of [reorder_rows] builds from the columns of
    [m0], row by row. *)
Lemma reorder_rows_loop (x : MatrixXd) (ind : list nat) (l : list nat) :
  forall m0 : MatrixXd,
    columns (fold_left (fun xr i => set_row xr i (row x (nth i ind 0%nat))) l m0)
    = map (fun jc =>
             fold_left (fun c i => upd i (coef x (nth i ind 0%nat) (fst jc)) c)
                       l (snd jc))
          (combine (seq 0 (cols m0)) (columns m0)) /\
    rows (fold_left (fun xr i => set_row xr i (row x (nth i ind 0%nat))) l m0)
    = rows m0.
Proof.
  induction l as [|i l IH]; intros m0; simpl.
  - split; [|reflexivity]. unfold cols. symmetry. apply map_snd_combine_seq.
  - destruct (IH (set_row m0 i (row x (nth i ind 0%nat)))) as [-> ->].
    split; [|reflexivity].
    unfold cols at 1. unfold set_row; cbn [columns].
    rewrite length_map, length_combine, length_seq. fold (cols m0).
    rewrite Nat.min_id. unfold cols.
    rewrite (map_combine_seq_map
               (fun j c => upd i (vget (row x (nth i ind 0%nat)) j) c)).
    apply map_ext. intros [j c]. cbn [fst snd]. rewrite vget_row. reflexivity.
Qed.

Lemma map_combine_seq_repeat {A B : Type} (F : nat * A -> B) (c : A) (n s : nat) :
  map F (combine (seq s n) (repeat c n)) = map (fun j => F (j, c)) (seq s n).
Proof.
  revert s; induction n as [|n IH]; intros s; simpl; auto.
  rewrite IH. reflexivity.
Qed.

(** [reorder_rows x ind], column by column: row [i] of the result is row
    [ind[i]] of [x]. *)
Lemma reorder_rows_columns (x : MatrixXd) (ind : list nat) :
  length ind = rows x ->
  reorder_rows x ind
  = mkMatrix (rows x)
             (map (fun j => map (fun i => coef x (nth i ind 0%nat) j)
                                (seq 0 (rows x)))
                  (seq 0 (cols x))).
Proof.
  intros Hlen. unfold reorder_rows.
  destruct (reorder_rows_loop x ind (seq 0 (length ind))
                              (zero_mat (rows x) (cols x))) as [Hc Hr].
  destruct (fold_left _ _ _) as [r cs]. cbn [rows columns] in *.
  subst r cs. f_equal.
  unfold cols at 1, zero_mat; cbn [columns]. rewrite repeat_length.
  rewrite map_combine_seq_repeat. apply map_ext. intros j. cbn [fst snd].
  rewrite Hlen. apply (fold_upd_seq (fun i => coef x (nth i ind 0%nat) j)).
  apply repeat_length.
Qed.

Lemma reorder_rows_coef (x : MatrixXd) (ind : list nat) (i j : nat) :
  length ind = rows x -> (i < rows x)%nat -> (j < cols x)%nat ->
  coef (reorder_rows x ind) i j = coef x (nth i ind 0%nat) j.
Proof.
  intros Hlen Hi Hj. rewrite reorder_rows_columns by exact Hlen.
  unfold coef at 1. unfold col, vget; cbn [columns].
  rewrite (nth_map_seq
             (fun j => map (fun i => coef x (nth i ind 0%nat) j) (seq 0 (rows x))))
    by exact Hj.
  apply (nth_map_seq (fun i => coef x (nth i ind 0%nat) j)). exact Hi.
Qed.

Lemma reorder_rows_id (w : MatrixXd) :
  well_formed w -> reorder_rows w (seq 0 (rows w)) = w.
Proof.
  intros Hwf. rewrite reorder_rows_columns by apply length_seq.
  destruct w as [k cs]. unfold well_formed, cols, coef, col in *.
  cbn [rows columns] in *. f_equal.
  transitivity (map (fun j => nth j cs []) (seq 0 (length cs)));
    [|apply map_nth_seq].
  apply map_ext_in. intros j Hj. apply in_seq in Hj.
  assert (Hc : length (nth j cs []) = k).
  { rewrite Forall_forall in Hwf. apply Hwf. apply nth_In. lia. }
  transitivity (map (fun i => nth i (nth j cs []) 0) (seq 0 (length (nth j cs []))));
    [|apply map_nth_seq].
  rewrite Hc. apply map_ext_in. intros i Hi. apply in_seq in Hi.
  unfold vget. rewrite seq_nth by lia. reflexivity.
Qed.

Lemma coef_zero_mat (k n i j : nat) : coef (zero_mat k n) i j = 0.
Proof.
  unfold coef, col, zero_mat, zero_vec, vget; cbn [columns].
  destruct (Nat.ltb_spec j n) as [Hlt|Hge].
  - rewrite (nth_indep _ [] (repeat 0 k)) by (rewrite repeat_length; exact Hlt).
    rewrite nth_repeat. apply nth_repeat.
  - rewrite (nth_overflow (repeat _ n)) by (rewrite repeat_length; exact Hge).
    destruct i; reflexivity.
Qed.

Lemma set_row_zero (k n i : nat) (r : VectorXd) :
  (forall j, vget r j = 0) -> set_row (zero_mat k n) i r = zero_mat k n.
Proof.
  intros Hr. unfold set_row, zero_mat, cols; cbn [rows columns]. f_equal.
  rewrite repeat_length, map_combine_seq_repeat. cbn [fst snd].
  transitivity (map (fun _ : nat => zero_vec k) (seq 0 n));
    [|rewrite map_const_repeat, length_seq; reflexivity].
  apply map_ext. intros j. rewrite Hr. apply upd_repeat.
Qed.

Lemma reorder_rows_zero (k n : nat) (ind : list nat) :
  reorder_rows (zero_mat k n) ind = zero_mat k n.
Proof.
  unfold reorder_rows.
  assert (Hc : cols (zero_mat k n) = n)
    by (unfold cols, zero_mat; cbn [columns]; apply repeat_length).
  rewrite Hc. change (rows (zero_mat k n)) with k.
  apply fold_left_fixed. intros i _. apply set_row_zero.
  intros j. rewrite vget_row. apply coef_zero_mat.
Qed.

Lemma vget_ones (k j : nat) : (j < k)%nat -> vget (ones k) j = 1.
Proof.
  intros Hj. unfold vget, ones.
  rewrite (nth_indep _ 0 1) by (rewrite repeat_length; exact Hj).
  apply nth_repeat.
Qed.

Lemma reorder_ones (k : nat) (ind : list nat) :
  Permutation ind (seq 0 k) -> reorder (ones k) ind = ones k.
Proof.
  intros Hp.
  assert (Hlen : length ind = k)
    by (rewrite (Permutation_length Hp); apply length_seq).
  rewrite reorder_spec by (unfold ones; rewrite repeat_length; exact Hlen).
  unfold ones at 2. rewrite repeat_length.
  transitivity (map (fun _ : nat => 1) (seq 0 k));
    [|rewrite map_const_repeat, length_seq; reflexivity].
  apply map_ext_in. intros i Hi. apply in_seq in Hi. apply vget_ones.
  assert (Hin : In (nth i ind 0%nat) ind) by (apply nth_In; lia).
  apply (Permutation_in _ Hp), in_seq in Hin. lia.
Qed.


(* ------------------------------------------------------------------ *)
(** ** (C9) The drivers with [maxit = 0] *)

Section Maxit0.
Context {N : Numerics} {NS : NumericsSpec N}.

Lemma sort_index_ones_perm (k : nat) :
  Permutation (sort_index (ones k)) (seq 0 k).
Proof.
  unfold sort_index. rewrite std_sort_perm. unfold ones.
  rewrite repeat_length. reflexivity.
Qed.

Lemma nmf_finish_init (w : MatrixXd) (n : nat) (diag : bool) :
  well_formed w ->
  maxit0_result w n diag (nmf_finish diag (nmf_init w n, 0%nat)).
Proof.
  intros Hwf. unfold maxit0_result. cbv zeta.
  pose proof (sort_index_ones_perm (rows w)) as Hp.
  assert (Hlen : length (sort_index (ones (rows w))) = rows w)
    by (rewrite (Permutation_length Hp); apply length_seq).
  unfold nmf_finish, nmf_init. cbn [fst snd als_w als_h als_d als_tol].
  destruct diag; cbn [res_w res_d res_h res_tol res_iter].
  - split; [apply reorder_ones; exact Hp|].
    split; [apply reorder_rows_zero|].
    split; [reflexivity|]. split; [reflexivity|]. split; [exact Hp|].
    split.
    + intros i j Hi Hj.
      rewrite coef_transpose
        by (rewrite reorder_rows_columns by exact Hlen; exact Hi).
      apply reorder_rows_coef; assumption.
    + intros [H|H]; [discriminate|]. rewrite H, reorder_rows_id; auto.
  - split; [reflexivity|]. split; [reflexivity|].
    split; [reflexivity|]. split; [reflexivity|]. split; [exact Hp|].
    split; [|reflexivity].
    intros i j Hi Hj. apply coef_transpose. exact Hi.
Qed.


End Maxit0.



(* ================================================================== *)
(** * Further properties of the code *)

(* ------------------------------------------------------------------ *)
(** ** The helpers of section 1 *)

Lemma StronglySorted_filter {A : Type} (R : A -> A -> Prop) (f : A -> bool)
      (l : list A) :
  StronglySorted R l -> StronglySorted R (filter f l).
Proof.
  induction 1 as [|a l Hs IH Hf]; simpl; [constructor|].
  destruct (f a); auto. constructor; auto.
  rewrite Forall_forall in *. intros x Hx. apply Hf.
  apply filter_In in Hx. tauto.
Qed.

Lemma StronglySorted_seq (s n : nat) : StronglySorted lt (seq s n).
Proof.
  revert s; induction n as [|n IH]; intros s; simpl; constructor; auto.
  apply Forall_forall. intros x Hx. apply in_seq in Hx. lia.
Qed.

Lemma find_gtz_in (x : VectorXd) (i : nat) :
  In i (find_gtz x) <-> (i < length x)%nat /\ (0 < vget x i)%Q.
Proof.
  rewrite (proj1 (find_gtz_filter x)), filter_In, in_seq, Qltb_lt. intuition lia.
Qed.

(** (X1) The two loops of [find_gtz] return exactly the positions of [x]
    that hold a value greater than zero, each once and in increasing
    order: the second loop fills the whole vector that the count of the
    first one sized. *)
Theorem find_gtz_positions :
  forall x : VectorXd,
    (forall i, In i (find_gtz x) <-> (i < length x)%nat /\ (0 < vget x i)%Q) /\
    StronglySorted lt (find_gtz x) /\
    length (find_gtz x) = count_gtz x.
Proof.
  intros x. destruct (find_gtz_filter x) as [Hf Hc].
  split; [|split].
  - intros i. rewrite Hf, filter_In, in_seq, Qltb_lt. intuition lia.
  - rewrite Hf. apply StronglySorted_filter, StronglySorted_seq.
  - symmetry. exact Hc.
Qed.

(* ------------------------------------------------------------------ *)
(** ** The column iterator of section 3 *)

Lemma concat_seq_pointers (p : nat -> nat) (n : nat) :
  (forall c, (c < n)%nat -> (p c <= p (S c))%nat) ->
  concat (map (fun c => seq (p c) (p (S c) - p c)) (seq 0 n))
  = seq (p 0%nat) (p n - p 0%nat).
Proof.
  induction n as [|n IH]; intros Hmono.
  - simpl. rewrite Nat.sub_diag. reflexivity.
  - rewrite seq_S, map_app, concat_app, IH by (intros; apply Hmono; lia).
    simpl. rewrite app_nil_r.
    assert (H0 : (p 0 <= p n)%nat).
    { clear IH. induction n as [|m IHm]; [lia|].
      specialize (Hmono m ltac:(lia)) as H1.
      assert (p 0 <= p m)%nat by (apply IHm; intros; apply Hmono; lia). lia. }
    specialize (Hmono n ltac:(lia)).
    replace (p (S n) - p 0%nat)%nat
      with ((p n - p 0%nat) + (p (S n) - p n))%nat by lia.
    rewrite seq_app. f_equal. f_equal. lia.
Qed.

Lemma map_nth_pair_seq {A B : Type} (l1 : list A) (l2 : list B) (d1 : A) (d2 : B) :
  length l1 = length l2 ->
  map (fun idx => (nth idx l1 d1, nth idx l2 d2)) (seq 0 (length l2))
  = combine l1 l2.
Proof.
  intros Hlen.
  assert (H : forall (l1 : list A) (l2 : list B) (pre1 : list A) (pre2 : list B),
             length l1 = length l2 -> length pre1 = length pre2 ->
             map (fun idx => (nth idx (pre1 ++ l1) d1, nth idx (pre2 ++ l2) d2))
                 (seq (length pre2) (length l2))
             = combine l1 l2).
  { clear. induction l1 as [|a l1 IH]; intros [|b l2] pre1 pre2 Hl Hp;
      simpl in *; try discriminate; auto.
    rewrite !app_nth2, Hp, !Nat.sub_diag by lia. simpl. f_equal.
    specialize (IH l2 (pre1 ++ [a]) (pre2 ++ [b])).
    rewrite <- !app_assoc, !length_app in IH. simpl in IH.
    rewrite Hp, Nat.add_1_r in IH. apply IH; lia. }
  apply (H l1 l2 [] []); auto.
Qed.

(** (X2) For column pointers that start at 0, do not decrease and end at
    the number of stored entries, the iterators of the columns, taken in
    order, yield every stored [(row, value)] pair exactly once and in
    storage order. *)
Theorem inner_visits_every_entry_once :
  forall A : dgCMatrix,
    csc_pointers A ->
    concat (map (inner A) (seq 0 (dg_cols A))) = combine (dg_i A) (dg_x A).
Proof.
  intros A (Hlen & H0 & Hmono & Hn & Hix). unfold inner.
  rewrite <- (map_nth_pair_seq (dg_i A) (dg_x A) 0%nat 0) by exact Hix.
  transitivity
    (concat (map (map (fun idx => (nth idx (dg_i A) 0%nat, nth idx (dg_x A) 0)))
                 (map (fun c => seq (nth c (dg_p A) 0%nat)
                                    (nth (S c) (dg_p A) 0%nat
                                     - nth c (dg_p A) 0%nat)%nat)
                      (seq 0 (dg_cols A))))).
  { rewrite map_map. reflexivity. }
  rewrite <- concat_map.
  rewrite (concat_seq_pointers (fun c => nth c (dg_p A) 0%nat)) by exact Hmono.
  rewrite H0, Hn, Nat.sub_0_r. reflexivity.
Qed.

(** A 3-by-2 matrix with four stored entries. *)
Lemma inner_visits_every_entry_once_witness :
  let A := mkDgC [0; 1; 1; 2]%nat [0; 2; 4]%nat (3, 2)%nat [1; 2; 1; 3] in
  concat (map (inner A) (seq 0 (dg_cols A))) = combine (dg_i A) (dg_x A).
Proof.
  intros A. apply inner_visits_every_entry_once.
  subst A. unfold csc_pointers, dg_cols. simpl. repeat split; auto.
  intros c Hc. destruct c as [|[|c]]; simpl; lia.
Defined.

(* ------------------------------------------------------------------ *)
(** ** Coordinate descent: the gradient it maintains *)

Lemma vget_upd (i j : nat) (v : double) (x : VectorXd) :
  (i < length x)%nat ->
  vget (upd i v x) j = if (i =? j)%nat then v else vget x j.
Proof.
  intros Hi. unfold vget. rewrite nth_upd.
  destruct (Nat.eqb_spec i j); simpl; auto.
  destruct (Nat.ltb_spec i (length x)); auto. lia.
Qed.

(** A sum of products over distinct indices, after one factor changed. *)
Lemma sum_after_upd (r x : VectorXd) (i : nat) (v : double) (L : list nat) :
  (i < length x)%nat -> NoDup L ->
  (fold_right Qplus 0 (map (fun l => (vget r l * vget (upd i v x) l)%D) L)
   == fold_right Qplus 0 (map (fun l => (vget r l * vget x l)%D) L)
      + (if existsb (Nat.eqb i) L then vget r i * (v - vget x i) else 0))%Q.
Proof.
  intros Hi. induction L as [|l L IH]; intros Hnd; simpl.
  - lra.
  - inversion Hnd as [|? ? Hnotin Hnd']; subst.
    rewrite (IH Hnd'), !dmul_eq, (vget_upd i l v x Hi).
    destruct (Nat.eqb_spec i l) as [<-|Hne]; simpl.
    + assert (Hex : existsb (Nat.eqb i) L = false).
      { destruct (existsb (Nat.eqb i) L) eqn:E; auto.
        apply existsb_exists in E. destruct E as [y [Hy Heq]].
        apply Nat.eqb_eq in Heq. subst y. contradiction. }
      rewrite Hex. lra.
    + destruct (existsb (Nat.eqb i) L); lra.
Qed.

Lemma existsb_eqb_seq (i n : nat) :
  existsb (Nat.eqb i) (seq 0 n) = (i <? n)%nat.
Proof.
  destruct (Nat.ltb_spec i n) as [Hlt|Hge].
  - apply existsb_exists. exists i. split; [apply in_seq; lia|].
    apply Nat.eqb_refl.
  - destruct (existsb (Nat.eqb i) (seq 0 n)) eqn:E; auto.
    apply existsb_exists in E. destruct E as [y [Hy Heq]].
    apply Nat.eqb_eq in Heq. subst y. apply in_seq in Hy. lia.
Qed.

Lemma dot_after_upd (r x : VectorXd) (i : nat) (v : double) :
  (i < length x)%nat ->
  (dot r (upd i v x) == dot r x + vget r i * (v - vget x i))%Q.
Proof.
  intros Hi. unfold dot. rewrite !vsum_sum.
  rewrite (sum_after_upd r x i v (seq 0 (length r)) Hi (seq_NoDup _ _)).
  rewrite existsb_eqb_seq.
  destruct (Nat.ltb_spec i (length r)) as [Hlt|Hge]; [reflexivity|].
  assert (H0 : vget r i = 0) by (apply nth_overflow; exact Hge).
  rewrite H0. lra.
Qed.

Lemma vget_mvec (a : MatrixXd) (x : VectorXd) (j : nat) :
  (j < rows a)%nat -> vget (mvec a x) j = dot (row a j) x.
Proof.
  intros Hj. unfold vget, mvec.
  apply (nth_map_seq (fun i => dot (row a i) x)). exact Hj.
Qed.

Lemma cd_coord_gradient (a : MatrixXd) (b : VectorXd) (nonneg : bool)
      (s : cd_state) (i : nat) :
  (i < length (cd_x s))%nat ->
  gradient_kept a b s -> gradient_kept a b (cd_coord a nonneg s i).
Proof.
  intros Hi [Hlen Hg]. unfold cd_coord. cbv zeta.
  destruct (Qneqb _ _); [|split; assumption].
  unfold gradient_kept. cbn [cd_x cd_b0]. split.
  - rewrite length_map, length_seq. exact Hlen.
  - intros j Hj. unfold vget at 1.
    rewrite (nth_map_seq
               (fun j0 => vget (cd_b0 s) j0
                          + coef a j0 i
                            * (cd_proposal a nonneg (cd_x s) (cd_b0 s) i
                               - vget (cd_x s) i)))
      by (rewrite Hlen; exact Hj).
    rewrite !vget_mvec by exact Hj.
    rewrite dot_after_upd by exact Hi.
    rewrite vget_row, dadd_eq, dmul_eq, dsub_eq, (Hg j Hj).
    rewrite vget_mvec by exact Hj. lra.
Qed.

Lemma cd_coords_gradient (a : MatrixXd) (b : VectorXd) (nonneg : bool)
      (l : list nat) :
  forall s : cd_state,
    (forall i, In i l -> (i < length (cd_x s))%nat) ->
    gradient_kept a b s ->
    gradient_kept a b (fold_left (cd_coord a nonneg) l s).
Proof.
  induction l as [|i l IH]; intros s Hl Hg; simpl; auto.
  apply IH.
  - intros k Hk. rewrite cd_coord_length. apply Hl; simpl; auto.
  - apply cd_coord_gradient; [apply Hl; simpl; auto | exact Hg].
Qed.

Lemma cd_loop_gradient (a : MatrixXd) (b : VectorXd) (nonneg : bool)
      (cd_tol : double) (fuel : nat) :
  forall (it : nat) (s : cd_state),
    gradient_kept a b s ->
    gradient_kept a b (fst (cd_loop a nonneg cd_tol fuel it s)).
Proof.
  induction fuel as [|fuel IH]; intros it s Hg; simpl; auto.
  destruct (Qltb cd_tol (cd_tol_it s)); simpl; auto.
  apply IH. unfold cd_sweep. apply cd_coords_gradient.
  - intros i Hi. apply in_seq in Hi. simpl. lia.
  - exact Hg.
Qed.

(** (X3) Throughout [c_cdnnls] the vector [b0] stays the gradient of the
    current iterate: when the function returns [x], [b0] holds
    [a * x - b] on every row of [a], whatever the limits and the starting
    vector. *)
Theorem cdnnls_keeps_gradient :
  forall (a : MatrixXd) (b x : VectorXd) (cd_maxit : nat) (cd_tol : double)
         (nonneg : bool) (j : nat),
    (j < rows a)%nat ->
    let s := fst (c_cdnnls_run a b x cd_maxit cd_tol nonneg) in
    cd_x s = c_cdnnls a b x cd_maxit cd_tol nonneg /\
    (vget (cd_b0 s) j == vget (mvec a (cd_x s)) j - vget b j)%Q.
Proof.
  intros a b x cd_maxit cd_tol nonneg j Hj s. split; [reflexivity|].
  assert (H : gradient_kept a b s).
  { apply cd_loop_gradient. unfold cd_init, gradient_kept. cbn [cd_b0 cd_x].
    assert (Hlen : length (mvec a x) = rows a)
      by (unfold mvec; rewrite length_map, length_seq; reflexivity).
    rewrite Hlen, length_map, length_seq. split; [reflexivity|].
    intros k Hk. unfold vget at 1.
    rewrite (nth_map_seq (fun i => vget (mvec a x) i - vget b i)) by exact Hk.
    apply dsub_eq. }
  apply H. exact Hj.
Qed.

(** The system of scenario S2, started away from the solution. *)
Lemma cdnnls_keeps_gradient_witness :
  let a := mkMatrix 2 [[2; 1]; [1; 2]] in
  let s := fst (c_cdnnls_run a [1; -1] [1; 1] 100 (1 # 100000000) true) in
  cd_x s = c_cdnnls a [1; -1] [1; 1] 100 (1 # 100000000) true /\
  (vget (cd_b0 s) 0 == vget (mvec a (cd_x s)) 0 - vget [1; -1] 0)%Q.
Proof.
  intros a.
  apply (cdnnls_keeps_gradient a [1; -1] [1; 1] 100 (1 # 100000000) true 0).
  simpl. lia.
Defined.

(* ------------------------------------------------------------------ *)
(** ** Coordinate descent: its fixed points *)

Lemma cd_fixed_spec (a : MatrixXd) (nonneg : bool) (x g : VectorXd) :
  cd_fixed a nonneg x g = true <->
  forall i, (i < length x)%nat ->
            (cd_proposal a nonneg x g i == vget x i)%Q.
Proof.
  unfold cd_fixed. rewrite forallb_forall. split; intros H i Hi.
  - apply Qneqb_eq. apply negb_true_iff. apply H. apply in_seq. lia.
  - apply in_seq in Hi. apply negb_true_iff. apply Qneqb_eq. apply H. lia.
Qed.

Lemma quotient_sign (g c : Q) :
  (0 < c)%Q ->
  ((0 < g / c)%Q <-> (0 < g)%Q) /\ ((g / c == 0)%Q <-> (g == 0)%Q).
Proof.
  intros Hc.
  assert (Hg : (g == (g / c) * c)%Q) by (field; lra).
  assert (Hi : (0 < / c)%Q) by (apply Qinv_lt_0_compat; exact Hc).
  unfold Qdiv in *. split; split; intros H; nra.
Qed.

Lemma cd_fixed_kkt (a : MatrixXd) (x g : VectorXd) :
  (forall i, (i < length x)%nat -> (0 < coef a i i)%Q) ->
  cd_fixed a true x g = true -> kkt x g.
Proof.
  intros Hpos H. rewrite cd_fixed_spec in H. unfold cd_proposal in H.
  intros i Hi. specialize (H i Hi). specialize (Hpos i Hi).
  destruct (quotient_sign (vget g i) (coef a i i) Hpos) as [Hs Hz].
  cbn [andb] in H.
  destruct (Qltb (vget x i - vget g i / coef a i i) 0) eqn:E.
  - apply Qltb_lt in E. rewrite dsub_eq, ddiv_eq in E.
    assert (0 < vget g i)%Q by (apply Hs; lra).
    rewrite <- H. repeat split; lra.
  - apply Qltb_ge in E. rewrite dsub_eq, ddiv_eq in E, H.
    assert (vget g i == 0)%Q by (apply Hz; lra).
    split; [lra|]. split; [lra|]. rewrite H0. lra.
Qed.

(** (X4) When the diagonal of [a] is positive, a vector is left unchanged
    by a sweep of the clamped coordinate update exactly when it satisfies
    the optimality conditions of non-negative least squares for the
    gradient [g] of the sweep; without the clamp, exactly when the gradient
    is zero on each coordinate. *)
Theorem cd_fixed_iff_optimal :
  forall (a : MatrixXd) (x g : VectorXd),
    (forall i, (i < length x)%nat -> (0 < coef a i i)%Q) ->
    (cd_fixed a true x g = true <-> kkt x g) /\
    (cd_fixed a false x g = true <->
     forall i, (i < length x)%nat -> (vget g i == 0)%Q).
Proof.
  intros a x g Hpos. split; [split; [apply cd_fixed_kkt; exact Hpos|]|].
  - intros H. apply cd_fixed_spec. intros i Hi.
    destruct (H i Hi) as (Hx & Hg & Hxg). specialize (Hpos i Hi).
    destruct (quotient_sign (vget g i) (coef a i i) Hpos) as [Hs Hz].
    unfold cd_proposal. cbn [andb].
    destruct (Qltb (vget x i - vget g i / coef a i i) 0) eqn:E.
    + apply Qltb_lt in E. rewrite dsub_eq, ddiv_eq in E.
      assert (Hgp : (0 < vget g i)%Q) by (apply Hs; lra). nra.
    + apply Qltb_ge in E. rewrite dsub_eq, ddiv_eq in E. rewrite dsub_eq, ddiv_eq.
      destruct (Qlt_le_dec 0 (vget g i)) as [Hgp|Hgn].
      * assert (vget x i == 0)%Q by nra.
        assert (0 < vget g i / coef a i i)%Q by (apply Hs; exact Hgp). lra.
      * assert (Hg0 : (vget g i == 0)%Q) by lra.
        apply Hz in Hg0. lra.
  - rewrite cd_fixed_spec. unfold cd_proposal. cbn [andb].
    split; intros H i Hi; specialize (H i Hi); specialize (Hpos i Hi);
      destruct (quotient_sign (vget g i) (coef a i i) Hpos) as [Hs Hz].
    + rewrite dsub_eq, ddiv_eq in H. apply Hz. lra.
    + rewrite dsub_eq, ddiv_eq. apply Hz in H. lra.
Qed.

(** The solution [(1/2, 0)] of scenario S2 and its gradient [(0, 3/2)]. *)
Lemma cd_fixed_iff_optimal_witness :
  let a := mkMatrix 2 [[2; 1]; [1; 2]] in
  cd_fixed a true [1 # 2; 0] (gradient a [1; -1] [1 # 2; 0]) = true <->
  kkt [1 # 2; 0] (gradient a [1; -1] [1 # 2; 0]).
Proof.
  intros a.
  apply (cd_fixed_iff_optimal a [1 # 2; 0] (gradient a [1; -1] [1 # 2; 0])).
  intros i Hi. destruct i as [|[|i]]; simpl in Hi; try lia;
    vm_compute; reflexivity.
Defined.

Lemma cd_loop_fixed (a : MatrixXd) (nonneg : bool) (cd_tol : double)
      (fuel : nat) :
  forall (it : nat) (s : cd_state),
    cd_fixed a nonneg (cd_x s) (cd_b0 s) = true ->
    cd_x (fst (cd_loop a nonneg cd_tol fuel it s)) = cd_x s.
Proof.
  induction fuel as [|fuel IH]; intros it s Hfix; simpl; auto.
  destruct (Qltb cd_tol (cd_tol_it s)); simpl; auto.
  rewrite IH; rewrite (cd_sweep_fixed _ _ _ Hfix); simpl; auto.
Qed.

Lemma gradient_zero (a : MatrixXd) (b x : VectorXd) :
  (forall i, (vget (mvec a x) i == vget b i)%Q) ->
  forall i, (vget (gradient a b x) i == 0)%Q.
Proof.
  intros H i. unfold gradient.
  destruct (Nat.ltb_spec i (length (mvec a x))) as [Hlt|Hge].
  - unfold vget at 1.
    rewrite (nth_map_seq (fun i => vget (mvec a x) i - vget b i)) by exact Hlt.
    rewrite dsub_eq, (H i). lra.
  - unfold vget. rewrite nth_overflow; [reflexivity|].
    rewrite length_map, length_seq. exact Hge.
Qed.

Section ExactSolution.
Context {N : Numerics}.

(** (X5) When the solution [x] of the given decomposition solves
    [a * x = b] exactly, [a] has no zero on its diagonal and, if [nonneg],
    [x] has no negative component, [c_nnls] returns [x] as it is, for
    every [fast_maxit], [cd_maxit] and [cd_tol]: no feasible set round runs
    and no sweep updates a coordinate. *)
Theorem nnls_returns_exact_solution :
  forall (a : MatrixXd) (b : VectorXd) (a_llt : LLT)
         (fast_maxit cd_maxit : nat) (cd_tol : double) (nonneg : bool),
    (forall i, (vget (mvec a (llt_solve a_llt b)) i == vget b i)%Q) ->
    (forall i, (i < length b)%nat -> ~ (coef a i i == 0)%Q) ->
    (nonneg = true -> any_neg (llt_solve a_llt b) = false) ->
    c_nnls a b a_llt fast_maxit cd_maxit cd_tol nonneg = llt_solve a_llt b.
Proof.
  intros a b a_llt fast_maxit cd_maxit cd_tol nonneg Hax _ Hneg.
  unfold c_nnls. set (x := llt_solve a_llt b) in *.
  assert (Hfast : fast_loop a b nonneg fast_maxit x = x).
  { destruct fast_maxit; simpl; auto.
    destruct nonneg; simpl; auto. rewrite Hneg; auto. }
  rewrite Hfast. destruct ((cd_maxit =? 0)%nat && nonneg); auto.
  unfold c_cdnnls, c_cdnnls_run. apply cd_loop_fixed.
  change (cd_fixed a nonneg x (gradient a b x) = true).
  apply cd_fixed_spec. intros i Hi. unfold cd_proposal.
  pose proof (gradient_zero a b x Hax i) as Hg.
  assert (Hxi : ((vget x i - vget (gradient a b x) i / coef a i i)%D == vget x i)%Q).
  { rewrite dsub_eq, ddiv_eq, Hg. unfold Qdiv. lra. }
  destruct nonneg; cbn [andb]; [|exact Hxi].
  destruct (Qltb _ 0) eqn:E; [|exact Hxi].
  apply Qltb_lt in E. rewrite Hxi in E.
  pose proof (no_neg_all_nonneg x (Hneg eq_refl)) as Hall.
  unfold all_nonneg in Hall. rewrite Forall_forall in Hall.
  assert (0 <= vget x i)%Q by (apply Hall; apply nth_In; exact Hi). lra.
Qed.

(** (X6) With [cd_maxit = 0] and at least one feasible set round allowed,
    [c_nnls] returns 0 on every coordinate where the unconstrained
    solution is not positive: a coordinate that leaves the feasible set
    never comes back. *)
Theorem nnls_feasible_set_only_shrinks :
  forall (a : MatrixXd) (b : VectorXd) (a_llt : LLT) (fast_maxit : nat)
         (cd_tol : double) (i : nat),
    (1 <= fast_maxit)%nat ->
    (vget (llt_solve a_llt b) i <= 0)%Q ->
    (vget (c_nnls a b a_llt fast_maxit 0 cd_tol true) i == 0)%Q.
Proof.
  intros a b a_llt fast_maxit cd_tol i Hfuel Hxi.
  unfold c_nnls. cbn [Nat.eqb andb].
  assert (Hround : forall x, ~ (0 < vget x i)%Q -> vget (fast_round a b x) i = 0).
  { intros x Hx. unfold fast_round.
    set (g := find_gtz x). set (xsub := llt_solve _ _).
    assert (Hg : forall j, (j < length g)%nat -> nth j g 0%nat <> i).
    { intros j Hj Heq. apply Hx.
      assert (Hin : In i g) by (rewrite <- Heq; apply nth_In; exact Hj).
      apply find_gtz_in in Hin. tauto. }
    assert (H : forall (l : list nat) (x0 : VectorXd),
               (forall j, In j l -> (j < length g)%nat) ->
               vget (fold_left (fun x' j => upd (nth j g 0%nat) (vget xsub j) x')
                               l x0) i = vget x0 i).
    { induction l as [|j l IH]; intros x0 Hl; simpl; auto.
      rewrite IH by (intros; apply Hl; simpl; auto).
      unfold vget. apply nth_upd_other. apply Hg. apply Hl; simpl; auto. }
    rewrite H by (intros j Hj; apply in_seq in Hj; lia).
    unfold vget, zero_vec.
    destruct (Nat.ltb_spec i (length x)) as [Hlt|Hge].
    - rewrite (nth_indep _ 0 0) by (rewrite repeat_length; exact Hlt).
      apply nth_repeat.
    - apply nth_overflow. rewrite repeat_length. exact Hge. }
  assert (Hkeep : forall fuel x, (vget x i == 0)%Q ->
                                 (vget (fast_loop a b true fuel x) i == 0)%Q).
  { induction fuel as [|fuel IH]; intros x Hx; simpl; auto.
    destruct (any_neg x); auto.
    apply IH. rewrite Hround; [reflexivity | rewrite Hx; lra]. }
  destruct fast_maxit as [|fuel]; [lia|]. simpl.
  destruct (any_neg (llt_solve a_llt b)) eqn:E.
  - apply Hkeep. rewrite Hround; [reflexivity | lra].
  - apply no_neg_all_nonneg in E. unfold all_nonneg in E.
    rewrite Forall_forall in E.
    destruct (Nat.ltb_spec i (length (llt_solve a_llt b))) as [Hlt|Hge].
    + assert (0 <= vget (llt_solve a_llt b) i)%Q
        by (apply E; apply nth_In; exact Hlt). lra.
    + unfold vget. rewrite nth_overflow by exact Hge. reflexivity.
Qed.

End ExactSolution.

(** Scenario S3 with the constraint on: the solution [(1/3, 1/3)]. *)
Lemma nnls_returns_exact_solution_witness :
  let a := mkMatrix 2 [[2; 1]; [1; 2]] in
  @c_nnls ExactNumerics a [1; 1] a 10 100 (1 # 100000000) true
  = @llt_solve ExactNumerics a [1; 1].
Proof.
  intros a.
  apply (@nnls_returns_exact_solution ExactNumerics a [1; 1] a 10 100
           (1 # 100000000) true).
  - intros i. destruct i as [|[|i]]; vm_compute; reflexivity.
  - intros i Hi. destruct i as [|[|i]]; simpl in Hi; try lia;
      vm_compute; discriminate.
  - intros _. vm_compute. reflexivity.
Defined.

(** The 3-by-3 system whose unconstrained solution is [(-1/7, -6/7, 1/7)]. *)
Lemma nnls_feasible_set_only_shrinks_witness :
  let a := mkMatrix 3 [[3; -2; -2]; [-2; 3; 2]; [-2; 2; 3]] in
  (vget (@c_nnls ExactNumerics a [1; -2; -1] a 10 0 (1 # 100000000) true) 0
   == 0)%Q.
Proof.
  intros a.
  apply (@nnls_feasible_set_only_shrinks ExactNumerics a [1; -2; -1] a 10
           (1 # 100000000) 0).
  - lia.
  - vm_compute. discriminate.
Defined.

(* ------------------------------------------------------------------ *)
(** ** Coordinate descent: leaving the loop before the limit *)

Lemma cd_coord_tol_mono (a : MatrixXd) (nonneg : bool) (s : cd_state) (i : nat) :
  (cd_tol_it s <= cd_tol_it (cd_coord a nonneg s i))%Q.
Proof.
  unfold cd_coord. cbv zeta. destruct (Qneqb _ _); [|lra].
  cbn [cd_tol_it]. destruct (Qltb (cd_tol_it s) _) eqn:E; [|lra].
  apply Qltb_lt in E. lra.
Qed.

Lemma cd_coords_tol_mono (a : MatrixXd) (nonneg : bool) (l : list nat) :
  forall s, (cd_tol_it s <= cd_tol_it (fold_left (cd_coord a nonneg) l s))%Q.
Proof.
  induction l as [|i l IH]; intros s; simpl; [lra|].
  pose proof (cd_coord_tol_mono a nonneg s i). specialize (IH (cd_coord a nonneg s i)).
  lra.
Qed.

(** An update of a coordinate between two non-negative values is recorded
    with a positive tolerance. *)
Lemma cd_coord_update_recorded (a : MatrixXd) (s : cd_state) (i : nat) :
  (0 <= vget (cd_x s) i)%Q ->
  Qneqb (cd_proposal a true (cd_x s) (cd_b0 s) i) (vget (cd_x s) i) = true ->
  (0 < cd_tol_it (cd_coord a true s i))%Q.
Proof.
  intros Hx Hne. unfold cd_coord. cbv zeta. rewrite Hne. cbn [cd_tol_it].
  set (xi := cd_proposal a true (cd_x s) (cd_b0 s) i) in *.
  pose proof (cd_proposal_nonneg a (cd_x s) (cd_b0 s) i) as Hxi. fold xi in Hxi.
  assert (Hneq : ~ (xi == vget (cd_x s) i)%Q).
  { intros Heq. apply Qneqb_eq in Heq. congruence. }
  assert (Hpos : (0 < (2 * dabs (vget (cd_x s) i - xi) / (xi + vget (cd_x s) i + eps16))%D)%Q).
  { rewrite ddiv_eq, dmul_eq, !dadd_eq. unfold dabs. rewrite dsub_eq.
    assert (Hden : (0 < xi + vget (cd_x s) i + eps16)%Q).
    { assert (0 < eps16)%Q by reflexivity. lra. }
    assert (Habs : (0 < Qabs (vget (cd_x s) i - xi))%Q).
    { destruct (Qlt_le_dec 0 (Qabs (vget (cd_x s) i - xi))) as [H|H]; [exact H|].
      exfalso. apply Hneq.
      pose proof (Qabs_nonneg (vget (cd_x s) i - xi)) as H0.
      assert (Hz : (Qabs (vget (cd_x s) i - xi) == 0)%Q) by lra.
      pose proof (Qle_Qabs (vget (cd_x s) i - xi)) as H1.
      pose proof (Qle_Qabs (- (vget (cd_x s) i - xi))) as H2.
      rewrite Qabs_opp in H2. lra. }
    destruct (quotient_sign (2 * Qabs (vget (cd_x s) i - xi))
                            (xi + vget (cd_x s) i + eps16) Hden) as [Hs _].
    apply Hs. lra. }
  destruct (Qltb (cd_tol_it s) _) eqn:E; [exact Hpos|].
  apply Qltb_ge in E. lra.
Qed.

Lemma cd_coords_quiet (a : MatrixXd) (l : list nat) :
  forall s : cd_state,
    (forall i, In i l -> (0 <= vget (cd_x s) i)%Q) ->
    (cd_tol_it (fold_left (cd_coord a true) l s) <= 0)%Q ->
    fold_left (cd_coord a true) l s = s /\
    forall i, In i l ->
      Qneqb (cd_proposal a true (cd_x s) (cd_b0 s) i) (vget (cd_x s) i) = false.
Proof.
  induction l as [|i l IH]; intros s Hx Htol; cbn [fold_left] in *.
  - split; [reflexivity | intros i []].
  - destruct (Qneqb (cd_proposal a true (cd_x s) (cd_b0 s) i) (vget (cd_x s) i))
      eqn:E.
    + exfalso.
      pose proof (cd_coord_update_recorded a s i (Hx i (or_introl eq_refl)) E).
      pose proof (cd_coords_tol_mono a true l (cd_coord a true s i)). lra.
    + assert (Hs : cd_coord a true s i = s)
        by (unfold cd_coord; cbv zeta; rewrite E; reflexivity).
      rewrite Hs in *.
      destruct (IH s (fun j Hj => Hx j (or_intror Hj)) Htol) as [Hfix Hq].
      split; [exact Hfix|]. intros j [<-|Hj]; auto.
Qed.

Lemma cd_sweep_quiet (a : MatrixXd) (s : cd_state) :
  all_nonneg (cd_x s) ->
  (cd_tol_it (cd_sweep a true s) <= 0)%Q ->
  cd_x (cd_sweep a true s) = cd_x s /\ cd_b0 (cd_sweep a true s) = cd_b0 s /\
  cd_fixed a true (cd_x s) (cd_b0 s) = true.
Proof.
  intros Hx Htol. unfold cd_sweep in *.
  destruct (cd_coords_quiet a (seq 0 (length (cd_x s)))
                            (mkCd (cd_x s) (cd_b0 s) 0)) as [Hfix Hq].
  - intros i Hi. apply in_seq in Hi. cbn [cd_x].
    unfold all_nonneg in Hx. rewrite Forall_forall in Hx.
    apply Hx. apply nth_In. lia.
  - exact Htol.
  - rewrite Hfix. cbn [cd_x cd_b0]. split; [reflexivity|]. split; [reflexivity|].
    unfold cd_fixed. apply forallb_forall. intros i Hi.
    apply negb_true_iff. apply (Hq i Hi).
Qed.

Lemma cd_loop_early_exit (a : MatrixXd) (fuel : nat) :
  forall (it : nat) (s : cd_state),
    all_nonneg (cd_x s) ->
    ((cd_tol_it s <= 0)%Q -> cd_fixed a true (cd_x s) (cd_b0 s) = true) ->
    (snd (cd_loop a true 0%Q fuel it s) < it + fuel)%nat ->
    cd_fixed a true (cd_x (fst (cd_loop a true 0 fuel it s)))
             (cd_b0 (fst (cd_loop a true 0 fuel it s))) = true.
Proof.
  induction fuel as [|fuel IH]; intros it s Hx Hinv Hexit; cbn [cd_loop] in *.
  - cbn [snd] in Hexit. lia.
  - destruct (Qltb 0 (cd_tol_it s)) eqn:E.
    + apply IH.
      * apply cd_sweep_nonneg.
      * intros Htol. destruct (cd_sweep_quiet a s Hx Htol) as (-> & -> & Hfix).
        exact Hfix.
      * lia.
    + cbn [fst]. apply Hinv. apply Qltb_ge. exact E.
Qed.

Lemma kkt_ext (x g g' : VectorXd) :
  (forall i, (i < length x)%nat -> (vget g i == vget g' i)%Q) ->
  kkt x g -> kkt x g'.
Proof.
  intros H Hk i Hi. destruct (Hk i Hi) as (Hx & Hg & Hxg).
  rewrite <- (H i Hi). auto.
Qed.

(** (X7) With [nonneg], [cd_tol = 0] and a start without negative
    component, a [c_cdnnls] that makes fewer sweeps than [cd_maxit] allows
    returns a minimiser: its last sweep updated nothing, so for a matrix
    with positive diagonal the result [x] and the gradient [a * x - b]
    satisfy the optimality conditions of non-negative least squares. *)
Theorem cdnnls_early_exit_is_optimal :
  forall (a : MatrixXd) (b x : VectorXd) (cd_maxit : nat),
    rows a = length x ->
    (forall i, (i < length x)%nat -> (0 < coef a i i)%Q) ->
    all_nonneg x ->
    (snd (c_cdnnls_run a b x cd_maxit 0%Q true) < cd_maxit)%nat ->
    kkt (c_cdnnls a b x cd_maxit 0 true)
        (gradient a b (c_cdnnls a b x cd_maxit 0 true)).
Proof.
  intros a b x cd_maxit Hrows Hdiag Hx Hexit.
  unfold c_cdnnls. unfold c_cdnnls_run in *.
  set (s := fst (cd_loop a true 0 cd_maxit 0 (cd_init a b x 0))).
  assert (Hlen0 : length (mvec a x) = rows a)
    by (unfold mvec; rewrite length_map, length_seq; reflexivity).
  assert (Hg : gradient_kept a b s).
  { apply cd_loop_gradient. unfold cd_init, gradient_kept. cbn [cd_b0 cd_x].
    rewrite Hlen0, length_map, length_seq. split; [reflexivity|].
    intros k Hk. unfold vget at 1.
    rewrite (nth_map_seq (fun i => vget (mvec a x) i - vget b i)) by exact Hk.
    apply dsub_eq. }
  assert (Hfix : cd_fixed a true (cd_x s) (cd_b0 s) = true).
  { apply cd_loop_early_exit.
    - exact Hx.
    - intros Htol. exfalso. unfold cd_init in Htol. cbn [cd_tol_it] in Htol.
      assert (H1 : fl (1 + 0)%Q = 1) by (vm_compute; reflexivity).
      rewrite H1 in Htol. lra.
    - exact Hexit. }
  assert (Hlen : length (cd_x s) = length x).
  { unfold s. rewrite cd_loop_length. reflexivity. }
  apply (kkt_ext _ (cd_b0 s)).
  - intros i Hi. rewrite Hlen, <- Hrows in Hi.
    destruct Hg as [_ Hg]. rewrite (Hg i Hi). unfold gradient, vget at 3.
    assert (Hl : length (mvec a (cd_x s)) = rows a)
      by (unfold mvec; rewrite length_map, length_seq; reflexivity).
    rewrite Hl.
    rewrite (nth_map_seq (fun i => vget (mvec a (cd_x s)) i - vget b i)) by exact Hi.
    symmetry. apply dsub_eq.
  - apply (cd_fixed_kkt a); [|exact Hfix].
    intros i Hi. apply Hdiag. rewrite <- Hlen. exact Hi.
Qed.

(** The system of scenario S2 from [(0, 0)]: the solution [(1/2, 0)] after
    one sweep, and a second sweep that updates nothing. *)
Lemma cdnnls_early_exit_is_optimal_witness :
  let a := mkMatrix 2 [[2; 1]; [1; 2]] in
  kkt (c_cdnnls a [1; -1] [0; 0] 100 0 true)
      (gradient a [1; -1] (c_cdnnls a [1; -1] [0; 0] 100 0 true)).
Proof.
  intros a.
  apply (cdnnls_early_exit_is_optimal a [1; -1] [0; 0] 100).
  - reflexivity.
  - intros i Hi. destruct i as [|[|i]]; simpl in Hi; try lia;
      vm_compute; reflexivity.
  - repeat constructor; vm_compute; discriminate.
  - vm_compute. lia.
Defined.

(* ------------------------------------------------------------------ *)
(** ** The rank-2 solver *)

Lemma quotient_nonneg (g c : Q) : (0 < c)%Q -> (0 <= g)%Q -> (0 <= g / c)%Q.
Proof.
  intros Hc Hg. unfold Qdiv.
  assert (0 < / c)%Q by (apply Qinv_lt_0_compat; exact Hc). nra.
Qed.

Lemma kkt2_interior (a00 a01 a11 D b0 b1 x0 x1 : Q) :
  (D == a00 * a11 - a01 * a01)%Q -> (0 < D)%Q ->
  (x0 == (a11 * b0 - a01 * b1) / D)%Q ->
  (x1 == (a00 * b1 - a01 * b0) / D)%Q ->
  (a00 * x0 + a01 * x1 - b0 == 0)%Q /\ (a01 * x0 + a11 * x1 - b1 == 0)%Q.
Proof.
  intros HD Hpos H0 H1. rewrite H0, H1, HD. rewrite HD in Hpos.
  split; field; lra.
Qed.

Lemma kkt2_boundary (c a01 b e y : Q) :
  (0 < c)%Q -> (0 <= b)%Q -> (c * e < a01 * b)%Q -> (y == b / c)%Q ->
  (0 <= y)%Q /\ (0 <= a01 * y - e)%Q /\ (c * y - b == 0)%Q.
Proof.
  intros Hc Hb Hlt Hy.
  assert (Hyc : (y * c == b)%Q) by (rewrite Hy; field; lra).
  assert (Hy0 : (0 <= y)%Q) by (rewrite Hy; apply quotient_nonneg; assumption).
  split; [exact Hy0|]. split; [|lra].
  assert (Hm : (c * (a01 * y - e) == a01 * b - c * e)%Q)
    by (rewrite <- Hyc; ring).
  assert (Hp : (0 < c * (a01 * y - e))%Q) by lra.
  destruct (Qlt_le_dec (a01 * y - e) 0) as [Hn|Hn]; [|exact Hn]. nra.
Qed.

(** (X8) For a right-hand side with no negative component and a matrix
    with positive diagonal and positive [denom], the rank-2 solver with
    [nonneg] returns the minimiser of the constrained problem: both
    components are non-negative, both components of the gradient
    [a * x - b] are non-negative, and each component is zero or has a zero
    gradient. *)
Theorem solve2_nonneg_optimal :
  forall (a : MatrixXd) (b0 b1 : double),
    (0 < coef a 0 0)%Q -> (0 < coef a 1 1)%Q -> (0 < denom2 a)%Q ->
    (0 <= b0)%Q -> (0 <= b1)%Q ->
    let x := solve2 true a (denom2 a) b0 b1 in
    let g0 := (coef a 0 0 * fst x + coef a 0 1 * snd x - b0)%Q in
    let g1 := (coef a 0 1 * fst x + coef a 1 1 * snd x - b1)%Q in
    (0 <= fst x)%Q /\ (0 <= snd x)%Q /\ (0 <= g0)%Q /\ (0 <= g1)%Q /\
    (fst x * g0 == 0)%Q /\ (snd x * g1 == 0)%Q.
Proof.
  intros a b0 b1 H00 H11 HD Hb0 Hb1.
  assert (HDe : (denom2 a == coef a 0 0 * coef a 1 1 - coef a 0 1 * coef a 0 1)%Q)
    by (unfold denom2; to_Q; reflexivity).
  unfold solve2. cbv zeta.
  destruct (Qltb (coef a 1 1 * b0) (coef a 0 1 * b1)) eqn:E1.
  - apply Qltb_lt in E1. rewrite !dmul_eq in E1. cbn [fst snd].
    destruct (kkt2_boundary (coef a 1 1) (coef a 0 1) b1 b0
                (b1 / coef a 1 1)%D H11 Hb1 E1 (ddiv_eq _ _)) as (Hy & Hg & Hz).
    repeat split; try lra; nra.
  - apply Qltb_ge in E1. rewrite !dmul_eq in E1.
    destruct (Qltb (coef a 0 0 * b1) (coef a 0 1 * b0)) eqn:E2.
    + apply Qltb_lt in E2. rewrite !dmul_eq in E2. cbn [fst snd].
      destruct (kkt2_boundary (coef a 0 0) (coef a 0 1) b0 b1
                  (b0 / coef a 0 0)%D H00 Hb0 E2 (ddiv_eq _ _)) as (Hy & Hg & Hz).
      repeat split; try lra; nra.
    + apply Qltb_ge in E2. rewrite !dmul_eq in E2. cbn [fst snd].
      set (x0 := ((coef a 1 1 * b0 - coef a 0 1 * b1) / denom2 a)%D).
      set (x1 := ((coef a 0 0 * b1 - coef a 0 1 * b0) / denom2 a)%D).
      assert (Hx0 : (x0 == (coef a 1 1 * b0 - coef a 0 1 * b1) / denom2 a)%Q)
        by (unfold x0; rewrite ddiv_eq, dsub_eq, !dmul_eq; reflexivity).
      assert (Hx1 : (x1 == (coef a 0 0 * b1 - coef a 0 1 * b0) / denom2 a)%Q)
        by (unfold x1; rewrite ddiv_eq, dsub_eq, !dmul_eq; reflexivity).
      destruct (kkt2_interior _ _ _ _ _ _ _ _ HDe HD Hx0 Hx1) as (Hg0 & Hg1).
      assert (0 <= x0)%Q by (rewrite Hx0; apply quotient_nonneg; lra).
      assert (0 <= x1)%Q by (rewrite Hx1; apply quotient_nonneg; lra).
      repeat split; try assumption; try lra; nra.
Qed.

(** The Gram matrix [(2, 1; 1, 2)] and the right-hand side [(1, 3)], in the
    first of the three cases. *)
Lemma solve2_nonneg_optimal_witness :
  let a := mkMatrix 2 [[2; 1]; [1; 2]] in
  let x := solve2 true a (denom2 a) 1 3 in
  (0 <= fst x)%Q /\ (0 <= snd x)%Q /\
  (0 <= coef a 0 0 * fst x + coef a 0 1 * snd x - 1)%Q /\
  (0 <= coef a 0 1 * fst x + coef a 1 1 * snd x - 3)%Q /\
  (fst x * (coef a 0 0 * fst x + coef a 0 1 * snd x - 1) == 0)%Q /\
  (snd x * (coef a 0 1 * fst x + coef a 1 1 * snd x - 3) == 0)%Q.
Proof.
  intros a.
  apply (solve2_nonneg_optimal a 1 3); vm_compute; try reflexivity;
    discriminate.
Defined.

Lemma solve2_system (a00 a01 a11 D b0 b1 x0 x1 : Q) :
  (D == a00 * a11 - a01 * a01)%Q -> ~ (D == 0)%Q ->
  (x0 == (a11 * b0 - a01 * b1) / D)%Q ->
  (x1 == (a00 * b1 - a01 * b0) / D)%Q ->
  (a00 * x0 + a01 * x1 == b0)%Q /\ (a01 * x0 + a11 * x1 == b1)%Q.
Proof.
  intros HD Hnz H0 H1. rewrite H0, H1, HD. rewrite HD in Hnz.
  split; field; exact Hnz.
Qed.

(** (X9) Without [nonneg], and whenever [denom] is not zero, the rank-2
    solver returns the solution of the 2-by-2 system with the symmetric
    matrix [(a00, a01; a01, a11)] and the right-hand side [(b0, b1)]. *)
Theorem solve2_unconstrained_solves :
  forall (a : MatrixXd) (b0 b1 : double),
    ~ (denom2 a == 0)%Q ->
    let x := solve2 false a (denom2 a) b0 b1 in
    (coef a 0 0 * fst x + coef a 0 1 * snd x == b0)%Q /\
    (coef a 0 1 * fst x + coef a 1 1 * snd x == b1)%Q.
Proof.
  intros a b0 b1 Hnz. cbv zeta. unfold solve2. cbn [fst snd].
  apply (solve2_system (coef a 0 0) (coef a 0 1) (coef a 1 1) (denom2 a) b0 b1).
  - unfold denom2. rewrite dsub_eq, !dmul_eq. reflexivity.
  - exact Hnz.
  - rewrite ddiv_eq, dsub_eq, !dmul_eq. reflexivity.
  - rewrite ddiv_eq, dsub_eq, !dmul_eq. reflexivity.
Qed.

Lemma solve2_unconstrained_solves_witness :
  let a := mkMatrix 2 [[2; 1]; [1; 2]] in
  let x := solve2 false a (denom2 a) 1 (-1) in
  (coef a 0 0 * fst x + coef a 0 1 * snd x == 1)%Q /\
  (coef a 0 1 * fst x + coef a 1 1 * snd x == -1)%Q.
Proof.
  intros a. apply (solve2_unconstrained_solves a 1 (-1)).
  vm_compute. discriminate.
Defined.

(* ------------------------------------------------------------------ *)
(** ** The rank-2 drivers *)

Lemma als_loop_inv (P : als_state -> Prop) (body : als_state -> als_state)
      (tol : double) (fuel : nat) :
  (forall s, P s -> P (body s)) ->
  forall (it : nat) (s : als_state), P s -> P (fst (als_loop body tol fuel it s)).
Proof.
  intros Hbody. induction fuel as [|fuel IH]; intros it s Hs; simpl; auto.
  destruct (Qltb (als_tol (body s)) tol); simpl; auto.
Qed.

Lemma rows_solve2_all (nonneg : bool) (a : MatrixXd) (denom : double)
      (b0 b1 : nat -> double) (n : nat) (m : MatrixXd) :
  rows (solve2_all nonneg a denom b0 b1 n m) = rows m.
Proof.
  unfold solve2_all. generalize (seq 0 n). intros l. revert m.
  induction l as [|i l IH]; intros m; simpl; auto. rewrite IH. reflexivity.
Qed.

Section Rank2.
Context {N : Numerics}.

Lemma nmf2_update_w_shape (nonneg diag : bool) (wb : MatrixXd) (m : nat)
      (s : als_state) :
  shape2 diag s ->
  rows (fst (nmf2_update_w nonneg diag wb m s)) = 2%nat /\
  length (snd (nmf2_update_w nonneg diag wb m s)) = 2%nat /\
  (diag = false -> snd (nmf2_update_w nonneg diag wb m s) = ones 2).
Proof.
  intros (Hw & Hh & Hd & Hones). unfold nmf2_update_w. cbv zeta.
  destruct (rescale_shape diag 2 m
              (solve2_all nonneg (mmul (als_h s) (transpose (als_h s)))
                          (denom2 (mmul (als_h s) (transpose (als_h s))))
                          (coef wb 0) (coef wb 1) m (als_w s)) (als_d s))
    as (H1 & H2).
  rewrite H1, H2, rows_solve2_all.
  split; [exact Hw|]. split; [exact Hd|].
  intros E. subst diag. simpl. apply Hones. reflexivity.
Qed.

Lemma nmf2_update_h_shape (nonneg diag : bool) (hb : nat -> double * double)
      (n : nat) (w h : MatrixXd) (d : VectorXd) :
  rows h = 2%nat -> length d = 2%nat -> (diag = false -> d = ones 2) ->
  rows (fst (nmf2_update_h nonneg diag hb n w h d)) = 2%nat /\
  length (snd (nmf2_update_h nonneg diag hb n w h d)) = 2%nat /\
  (diag = false -> snd (nmf2_update_h nonneg diag hb n w h d) = ones 2).
Proof.
  intros Hh Hd Hones. unfold nmf2_update_h. cbv zeta.
  destruct (rescale_shape diag 2 n
              (solve2_all nonneg (mmul w (transpose w))
                          (denom2 (mmul w (transpose w)))
                          (fun i => fst (hb i)) (fun i => snd (hb i)) n h) d)
    as (H1 & H2).
  rewrite H1, H2, rows_solve2_all.
  split; [exact Hh|]. split; [exact Hd|].
  intros E. subst diag. simpl. apply Hones. reflexivity.
Qed.

Lemma nmf2_dense_body_shape (A : MatrixXd) (nonneg diag : bool) (s : als_state) :
  shape2 diag s -> shape2 diag (nmf2_dense_body A nonneg diag s).
Proof.
  intros Hs.
  destruct (nmf2_update_w_shape nonneg diag (wb_dense A (als_h s)) (rows A) s Hs)
    as (Hw & Hd & Ho).
  destruct Hs as (_ & Hh & _ & _).
  destruct (nmf2_update_h_shape nonneg diag
              (hb_dense A (fst (nmf2_update_w nonneg diag (wb_dense A (als_h s))
                                              (rows A) s)))
              (cols A)
              (fst (nmf2_update_w nonneg diag (wb_dense A (als_h s)) (rows A) s))
              (als_h s) _ Hh Hd Ho) as (Hh' & Hd' & Ho').
  unfold nmf2_dense_body, shape2. cbv zeta. cbn [als_w als_h als_d].
  repeat split; assumption.
Qed.

Lemma nmf2_sparse_body_shape (A : dgCMatrix) (nonneg diag : bool) (s : als_state) :
  shape2 diag s -> shape2 diag (nmf2_sparse_body A nonneg diag s).
Proof.
  intros Hs.
  destruct (nmf2_update_w_shape nonneg diag (wb_sparse A (als_h s)) (dg_rows A) s Hs)
    as (Hw & Hd & Ho).
  destruct Hs as (_ & Hh & _ & _).
  destruct (nmf2_update_h_shape nonneg diag
              (hb_sparse A (fst (nmf2_update_w nonneg diag (wb_sparse A (als_h s))
                                               (dg_rows A) s)))
              (dg_cols A)
              (fst (nmf2_update_w nonneg diag (wb_sparse A (als_h s)) (dg_rows A) s))
              (als_h s) _ Hh Hd Ho) as (Hh' & Hd' & Ho').
  unfold nmf2_sparse_body, shape2. cbv zeta. cbn [als_w als_h als_d].
  repeat split; assumption.
Qed.

Lemma nmf2_init_shape (h : MatrixXd) (m : nat) (diag : bool) :
  rows h = 2%nat -> shape2 diag (nmf2_init h m).
Proof. intros Hh. unfold shape2, nmf2_init. simpl. auto. Qed.

Lemma nmf2_finish_diagonal (diag : bool) (si : als_state * nat) :
  shape2 diag (fst si) ->
  let r := nmf2_finish diag si in
  length (res_d r) = 2%nat /\ (vget (res_d r) 1 <= vget (res_d r) 0)%Q /\
  (diag = false -> res_d r = ones 2).
Proof.
  intros (_ & _ & Hd & Ho). unfold nmf2_finish. cbv zeta.
  destruct (als_d (fst si)) as [|d0 [|d1 [|? ?]]]; try discriminate.
  destruct diag; cbn [andb].
  - change (vget [d0; d1] 0) with d0. change (vget [d0; d1] 1) with d1.
    destruct (Qltb d0 d1) eqn:E; cbn [res_d upd].
    + apply Qltb_lt in E. change (vget [d1; d0] 0) with d1.
      change (vget [d1; d0] 1) with d0.
      split; [reflexivity|]. split; [lra|discriminate].
    + apply Qltb_ge in E. change (vget [d0; d1] 0) with d0.
      change (vget [d0; d1] 1) with d1.
      split; [reflexivity|]. split; [lra|discriminate].
  - cbn [res_d]. rewrite (Ho eq_refl). split; [reflexivity|].
    split; [vm_compute; discriminate | reflexivity].
Qed.

Lemma nmf2_finish_factors (diag : bool) (si : als_state * nat) :
  shape2 diag (fst si) ->
  let s := fst si in
  let r := nmf2_finish diag si in
  let swapped := diag && Qltb (vget (als_d s) 0) (vget (als_d s) 1) in
  res_h r = (if swapped then exchange_10_01 (als_h s) else als_h s) /\
  res_w r = transpose (if swapped then exchange_10_01 (als_w s) else als_w s) /\
  res_d r = (if swapped then [vget (als_d s) 1; vget (als_d s) 0] else als_d s).
Proof.
  intros (Hw & Hh & Hd & _). unfold nmf2_finish. cbv zeta.
  destruct (diag && Qltb (vget (als_d (fst si)) 0) (vget (als_d (fst si)) 1));
    cbn [res_h res_w res_d]; [|auto].
  rewrite !swap_col0_row0_two_rows by assumption.
  split; [reflexivity|]. split; [reflexivity|].
  destruct (als_d (fst si)) as [|d0 [|d1 [|? ?]]]; try discriminate.
  reflexivity.
Qed.

Lemma res_iter_finish2 (diag : bool) (si : als_state * nat) :
  res_iter (nmf2_finish diag si) = snd si.
Proof.
  unfold nmf2_finish. cbv zeta.
  destruct (diag && _); reflexivity.
Qed.

End Rank2.

(** (X10) As long as no iteration divides by zero, the two entries of the
    [d] that a rank-2 driver returns are in non-increasing order, and they
    are both 1 when [diag] is false. *)
Theorem nmf2_diagonal_non_increasing :
  forall (N : Numerics) (A : MatrixXd) (As : dgCMatrix) (h : MatrixXd)
         (tol : double) (nonneg : bool) (maxit : nat) (diag : bool),
    rows h = 2%nat ->
    forall r : nmf_result,
      ((forall t, (t < maxit)%nat ->
          nmf2_defined (wb_dense A) (hb_dense A) (rows A) (cols A) nonneg diag
            (Nat.iter t (nmf2_dense_body A nonneg diag) (nmf2_init h (rows A)))) /\
       r = Rcpp_nmf2_dense A h tol nonneg maxit diag) \/
      ((forall t, (t < maxit)%nat ->
          nmf2_defined (wb_sparse As) (hb_sparse As) (dg_rows As) (dg_cols As)
            nonneg diag
            (Nat.iter t (nmf2_sparse_body As nonneg diag)
                      (nmf2_init h (dg_rows As)))) /\
       r = Rcpp_nmf2_sparse As h tol nonneg maxit diag) ->
      length (res_d r) = 2%nat /\ (vget (res_d r) 1 <= vget (res_d r) 0)%Q /\
      (diag = false -> res_d r = ones 2).
Proof.
  intros N A As h tol nonneg maxit diag Hh r [[_ Hr]|[_ Hr]]; subst r;
    [unfold Rcpp_nmf2_dense | unfold Rcpp_nmf2_sparse];
    apply nmf2_finish_diagonal; apply als_loop_inv;
    auto using nmf2_dense_body_shape, nmf2_sparse_body_shape, nmf2_init_shape.
Qed.

(** (X11) The rank-2 drivers return as [iter] the loop counter at the exit
    of their loop, as the general drivers do: one less than the number of
    complete iterations after a convergence, and [maxit] exactly when no
    iteration converged. *)
Theorem nmf2_iter_is_loop_counter :
  forall (N : Numerics) (A : MatrixXd) (As : dgCMatrix) (h : MatrixXd)
         (tol : double) (nonneg : bool) (maxit : nat) (diag : bool),
    iter_spec (nmf2_dense_body A nonneg diag) tol (nmf2_init h (rows A)) maxit
              (res_iter (Rcpp_nmf2_dense A h tol nonneg maxit diag)) /\
    iter_spec (nmf2_sparse_body As nonneg diag) tol (nmf2_init h (dg_rows As))
              maxit (res_iter (Rcpp_nmf2_sparse As h tol nonneg maxit diag)).
Proof.
  intros. unfold Rcpp_nmf2_dense, Rcpp_nmf2_sparse.
  rewrite !res_iter_finish2. split; apply als_loop_iter_spec.
Qed.

(** (X12) The last step of a rank-2 driver, for every run on an [A] with
    at least two rows and an [h] of two rows and at least two columns: when
    [diag] is true and the loop ends with [d(0) < d(1)], the two entries of
    [d] are swapped while [W] and [H] come back with their coefficients
    [(1, 0)] and [(0, 1)] exchanged and every other coefficient in place;
    otherwise [W], [H] and [d] come back as the loop left them. *)
Theorem nmf2_sort_step :
  forall (N : Numerics) (A : MatrixXd) (h : MatrixXd)
         (tol : double) (nonneg : bool) (maxit : nat) (diag : bool),
    rows h = 2%nat -> (2 <= cols h)%nat -> (2 <= rows A)%nat ->
    let s := fst (als_loop (nmf2_dense_body A nonneg diag) tol maxit 0
                           (nmf2_init h (rows A))) in
    let r := Rcpp_nmf2_dense A h tol nonneg maxit diag in
    let swapped := diag && Qltb (vget (als_d s) 0) (vget (als_d s) 1) in
    res_h r = (if swapped then exchange_10_01 (als_h s) else als_h s) /\
    res_w r = transpose (if swapped then exchange_10_01 (als_w s) else als_w s) /\
    res_d r = (if swapped then [vget (als_d s) 1; vget (als_d s) 0] else als_d s).
Proof.
  intros N A h tol nonneg maxit diag Hh _ _. unfold Rcpp_nmf2_dense.
  apply nmf2_finish_factors. apply als_loop_inv;
    auto using nmf2_dense_body_shape, nmf2_init_shape.
Qed.

Lemma nmf2_diagonal_non_increasing_witness :
  let A := mkMatrix 3 [[1; 2; 0]; [0; 1; 3]] in
  let h := mkMatrix 2 [[1; 0]; [0; 1]] in
  let r := @Rcpp_nmf2_dense ExactNumerics A h (1 # 1000) true 1 true in
  length (res_d r) = 2%nat /\ (vget (res_d r) 1 <= vget (res_d r) 0)%Q /\
  (true = false -> res_d r = ones 2).
Proof.
  intros A h r.
  apply (nmf2_diagonal_non_increasing ExactNumerics A (mkDgC [] [] (0, 0)%nat [])
           h (1 # 1000) true 1 true).
  - reflexivity.
  - left. split; [|reflexivity].
    intros t Ht. destruct t as [|t]; [|lia].
    unfold nmf2_defined, gram_regular. cbv zeta.
    split; [split; [|split]; vm_compute; discriminate|].
    split; [intros _ i Hi; destruct i as [|[|i]]; try lia; vm_compute;
            discriminate|].
    split; [split; [|split]; vm_compute; discriminate|].
    split; [intros _ i Hi; destruct i as [|[|i]]; try lia; vm_compute;
            discriminate|].
    vm_compute. discriminate.
Defined.

Lemma nmf2_sort_step_witness :
  let A := mkMatrix 3 [[1; 2; 0]; [0; 1; 3]] in
  let h := mkMatrix 2 [[1; 0]; [0; 1]] in
  let s := fst (als_loop (@nmf2_dense_body ExactNumerics A true true) (1 # 1000)
                         1 0 (nmf2_init h (rows A))) in
  let r := @Rcpp_nmf2_dense ExactNumerics A h (1 # 1000) true 1 true in
  let swapped := true && Qltb (vget (als_d s) 0) (vget (als_d s) 1) in
  res_h r = (if swapped then exchange_10_01 (als_h s) else als_h s) /\
  res_w r = transpose (if swapped then exchange_10_01 (als_w s) else als_w s) /\
  res_d r = (if swapped then [vget (als_d s) 1; vget (als_d s) 0] else als_d s).
Proof.
  intros A h.
  apply (nmf2_sort_step ExactNumerics A h (1 # 1000) true 1 true).
  - reflexivity.
  - vm_compute. lia.
  - vm_compute. lia.
Defined.

(* ------------------------------------------------------------------ *)
(** ** The general drivers: the reordering by diagonal *)

Lemma strict_weak_asym (comp : nat -> nat -> bool) (x y : nat) :
  strict_weak comp -> comp x y = true -> comp y x = false.
Proof.
  intros (Hirr & Htr & _) Hxy. destruct (comp y x) eqn:E; auto.
  rewrite <- (Hirr x). symmetry. apply (Htr x y x); assumption.
Qed.

Lemma insert_sorted_sorted (comp : nat -> nat -> bool) (x : nat) (l : list nat) :
  strict_weak comp ->
  StronglySorted (fun a b => comp b a = false) l ->
  StronglySorted (fun a b => comp b a = false) (insert_sorted comp x l).
Proof.
  intros Hsw Hl. induction Hl as [|y l Hl IH Hy]; simpl.
  - constructor; constructor.
  - destruct (comp x y) eqn:E.
    + pose proof (strict_weak_asym comp x y Hsw E) as Hyx.
      constructor; [constructor; assumption|].
      constructor; [exact Hyx|].
      rewrite Forall_forall in *. intros z Hz.
      destruct Hsw as (_ & _ & Hneg). apply (Hneg z y x); auto.
    + constructor; [exact IH|].
      rewrite Forall_forall in *. intros z Hz.
      apply (Permutation_in _ (insert_sorted_perm comp x l)) in Hz.
      destruct Hz as [<-|Hz]; auto.
Qed.

Lemma StronglySorted_nth {A : Type} (R : A -> A -> Prop) (l : list A) (d : A) :
  StronglySorted R l ->
  forall i j, (i < j < length l)%nat -> R (nth i l d) (nth j l d).
Proof.
  induction 1 as [|x l Hl IH Hx]; intros i j Hij; simpl in *; [lia|].
  destruct j as [|j]; [lia|]. destruct i as [|i].
  - rewrite Forall_forall in Hx. apply Hx. apply nth_In. lia.
  - apply IH. lia.
Qed.

Lemma insertion_sort_sorted (comp : nat -> nat -> bool) (l : list nat) :
  strict_weak comp ->
  StronglySorted (fun a b => comp b a = false) (insertion_sort comp l).
Proof.
  intros Hsw. unfold insertion_sort.
  assert (H : forall l acc,
             StronglySorted (fun a b => comp b a = false) acc ->
             StronglySorted (fun a b => comp b a = false)
               (fold_left (fun acc x => insert_sorted comp x acc) l acc)).
  { clear l. induction l as [|x l IH]; intros acc Hacc; simpl; auto.
    apply IH. apply insert_sorted_sorted; assumption. }
  apply H. constructor.
Qed.

#[export] Instance ExactSortSpec : SortSpec ExactNumerics.
Proof.
  split. intros comp l Hsw i j Hij.
  apply (StronglySorted_nth (fun a b => comp b a = false)).
  - apply insertion_sort_sorted. exact Hsw.
  - change (@std_sort ExactNumerics) with insertion_sort.
    rewrite (Permutation_length (insertion_sort_perm comp l)). exact Hij.
Defined.

Lemma decreasing_strict_weak (d : VectorXd) :
  strict_weak (fun i1 i2 => Qltb (vget d i2) (vget d i1)).
Proof.
  split; [|split].
  - intros x. apply Qltb_ge. lra.
  - intros x y z H1 H2. apply Qltb_lt in H1, H2. apply Qltb_lt. lra.
  - intros x y z H1 H2. apply Qltb_ge in H1, H2. apply Qltb_ge. lra.
Qed.

Section Reordering.
Context {N : Numerics} {NS : NumericsSpec N} {SS : SortSpec N}.

Lemma sort_index_perm (d : VectorXd) :
  Permutation (sort_index d) (seq 0 (length d)).
Proof. unfold sort_index. apply std_sort_perm. Qed.

Lemma sort_index_length (d : VectorXd) : length (sort_index d) = length d.
Proof.
  rewrite (Permutation_length (sort_index_perm d)). apply length_seq.
Qed.

Lemma sort_index_decreasing (d : VectorXd) (i j : nat) :
  (i < j < length d)%nat ->
  (vget d (nth j (sort_index d) 0%nat) <= vget d (nth i (sort_index d) 0%nat))%Q.
Proof.
  intros Hij. apply Qltb_ge. unfold sort_index.
  apply (std_sort_sorted (fun i1 i2 => Qltb (vget d i2) (vget d i1))
                         (seq 0 (length d)) (decreasing_strict_weak d) i j).
  rewrite length_seq. exact Hij.
Qed.

Lemma nmf_finish_sorted (k : nat) (si : als_state * nat) :
  als_shape_wh k (fst si) ->
  let s := fst si in
  let r := nmf_finish true si in
  let indx := sort_index (als_d s) in
  Permutation indx (seq 0 k) /\
  aligned_by indx s r /\
  (forall i j, (i < j < k)%nat -> (vget (res_d r) j <= vget (res_d r) i)%Q).
Proof.
  intros (Hw & Hh & Hd). cbv zeta. unfold nmf_finish.
  cbn [res_d res_w res_h].
  pose proof (sort_index_perm (als_d (fst si))) as Hp.
  pose proof (sort_index_length (als_d (fst si))) as Hlen.
  assert (Hdi : forall i, (i < k)%nat ->
            vget (reorder (als_d (fst si)) (sort_index (als_d (fst si)))) i
            = vget (als_d (fst si)) (nth i (sort_index (als_d (fst si))) 0%nat)).
  { intros i Hi. rewrite reorder_spec by exact Hlen. unfold vget at 1.
    rewrite (nth_map_seq (fun i => vget (als_d (fst si))
                                        (nth i (sort_index (als_d (fst si))) 0%nat)))
      by (rewrite Hd; exact Hi).
    reflexivity. }
  split; [rewrite <- Hd; exact Hp|]. split.
  - unfold aligned_by. cbn [res_d res_w res_h]. rewrite Hd.
    split; [exact Hdi|]. split.
    + intros i j Hi Hj. apply reorder_rows_coef; lia.
    + intros i j Hi Hj.
      rewrite coef_transpose
        by (rewrite reorder_rows_columns by lia; simpl; lia).
      apply reorder_rows_coef; lia.
  - intros i j Hij. rewrite !Hdi by lia.
    apply sort_index_decreasing. lia.
Qed.

Lemma nmf_dense_body_shape_wh (A At : MatrixXd) (symmetric nonneg : bool)
      (L1_w L1_h : double) (diag : bool) (fast_maxit cd_maxit : nat)
      (cd_tol : double) (k : nat) (s : als_state) :
  als_shape_wh k s ->
  als_shape_wh k (nmf_dense_body A At symmetric nonneg L1_w L1_h diag
                                 fast_maxit cd_maxit cd_tol k s).
Proof.
  intros (Hw & Hh & Hd). unfold als_shape_wh, nmf_dense_body. cbv zeta.
  cbn [als_w als_h als_d].
  set (h0 := Rcpp_project_dense A (als_w s) nonneg fast_maxit cd_maxit cd_tol L1_h).
  destruct (rescale_shape diag k (cols A) h0 (als_d s)) as (Hr1 & Hl1).
  assert (Hh0 : rows h0 = k)
    by (unfold h0; rewrite (proj1 (project_dense_shape _ _ _ _ _ _ _)); exact Hw).
  set (hd := rescale diag k (cols A) h0 (als_d s)) in *.
  set (w0 := if symmetric then _ else _).
  assert (Hw0 : rows w0 = k).
  { unfold w0. destruct symmetric;
      rewrite (proj1 (project_dense_shape _ _ _ _ _ _ _)); congruence. }
  destruct (rescale_shape diag k (rows A) w0 (snd hd)) as (Hr2 & Hl2).
  repeat split; congruence.
Qed.

Lemma nmf_sparse_body_shape_wh (A At : dgCMatrix) (symmetric nonneg : bool)
      (L1_w L1_h : double) (diag : bool) (fast_maxit cd_maxit : nat)
      (cd_tol : double) (k : nat) (s : als_state) :
  als_shape_wh k s ->
  als_shape_wh k (nmf_sparse_body A At symmetric nonneg L1_w L1_h diag
                                  fast_maxit cd_maxit cd_tol k s).
Proof.
  intros (Hw & Hh & Hd). unfold als_shape_wh, nmf_sparse_body. cbv zeta.
  cbn [als_w als_h als_d].
  set (h0 := c_project_sparse A (als_w s) nonneg fast_maxit cd_maxit cd_tol L1_h).
  destruct (rescale_shape diag k (dg_cols A) h0 (als_d s)) as (Hr1 & Hl1).
  assert (Hh0 : rows h0 = k)
    by (unfold h0; rewrite (proj1 (project_sparse_shape _ _ _ _ _ _ _)); exact Hw).
  set (hd := rescale diag k (dg_cols A) h0 (als_d s)) in *.
  set (w0 := if symmetric then _ else _).
  assert (Hw0 : rows w0 = k).
  { unfold w0. destruct symmetric;
      rewrite (proj1 (project_sparse_shape _ _ _ _ _ _ _)); congruence. }
  destruct (rescale_shape diag k (dg_rows A) w0 (snd hd)) as (Hr2 & Hl2).
  repeat split; congruence.
Qed.

Lemma nmf_init_shape_wh (w : MatrixXd) (n : nat) :
  als_shape_wh (rows w) (nmf_init w n).
Proof.
  unfold als_shape_wh, nmf_init. simpl. unfold ones.
  rewrite repeat_length. auto.
Qed.


End Reordering.


(* ------------------------------------------------------------------ *)
(** ** Section 5 of the source: the mean squared error *)

Lemma Qsum_ext {A : Type} (f g : A -> Q) (l : list A) :
  (forall x, In x l -> (f x == g x)%Q) -> (Qsum f l == Qsum g l)%Q.
Proof.
  induction l as [|x l IH]; intros H; simpl; [reflexivity|].
  rewrite (H x) by (simpl; auto). rewrite IH by (intros; apply H; simpl; auto).
  reflexivity.
Qed.

Lemma Qsum_nonneg {A : Type} (f : A -> Q) (l : list A) :
  (forall x, In x l -> (0 <= f x)%Q) -> (0 <= Qsum f l)%Q.
Proof.
  induction l as [|x l IH]; intros H; simpl; [lra|].
  assert (0 <= f x)%Q by (apply H; simpl; auto).
  assert (0 <= Qsum f l)%Q by (apply IH; intros; apply H; simpl; auto).
  lra.
Qed.

Lemma Qsum_zero_iff {A : Type} (f : A -> Q) (l : list A) :
  (forall x, In x l -> (0 <= f x)%Q) ->
  ((Qsum f l == 0)%Q <-> forall x, In x l -> (f x == 0)%Q).
Proof.
  induction l as [|x l IH]; intros H; simpl.
  - split; [intros _ y []|reflexivity].
  - assert (Hx : (0 <= f x)%Q) by (apply H; simpl; auto).
    assert (Hl : forall y, In y l -> (0 <= f y)%Q)
      by (intros; apply H; simpl; auto).
    pose proof (Qsum_nonneg f l Hl) as Hs. specialize (IH Hl).
    split.
    + intros H0 y [<-|Hy]; [lra|]. apply IH; [lra|exact Hy].
    + intros H0. assert (Qsum f l == 0)%Q by (apply IH; intros; apply H0; auto).
      assert (f x == 0)%Q by (apply H0; auto). lra.
Qed.

Lemma fold_dadd_Qsum {A : Type} (f : A -> double) (l : list A) :
  forall acc : double,
    (fold_left (fun s x => (s + f x)%D) l acc == acc + Qsum f l)%Q.
Proof.
  induction l as [|x l IH]; intros acc; simpl; [lra|].
  rewrite IH, dadd_eq. lra.
Qed.

Lemma vsum_map_Qsum {A : Type} (f : A -> double) (l : list A) :
  (vsum (map f l) == Qsum f l)%Q.
Proof.
  unfold vsum.
  assert (H : forall acc : double,
             (fold_left dadd (map f l) acc == acc + Qsum f l)%Q).
  { induction l as [|x l IH]; intros acc; simpl; [lra|].
    rewrite IH, dadd_eq. lra. }
  rewrite H. lra.
Qed.

Lemma sum_squares_Qsum (v : VectorXd) :
  (sum_squares v == Qsum (fun j => vget v j * vget v j)%Q (seq 0 (length v)))%Q.
Proof.
  unfold sum_squares.
  rewrite (fold_dadd_Qsum (fun j => (vget v j * vget v j)%D)).
  rewrite (Qsum_ext (fun j => (vget v j * vget v j)%D)
                    (fun j => (vget v j * vget v j)%Q))
    by (intros; apply dmul_eq).
  lra.
Qed.

Lemma sum_squares_nonneg (v : VectorXd) : (0 <= sum_squares v)%Q.
Proof.
  rewrite sum_squares_Qsum. apply Qsum_nonneg. intros j _. nra.
Qed.

Lemma sum_squares_zero_iff (v : VectorXd) :
  (sum_squares v == 0)%Q <->
  forall j, (j < length v)%nat -> (vget v j == 0)%Q.
Proof.
  rewrite sum_squares_Qsum, Qsum_zero_iff by (intros j _; nra).
  split; intros H j Hj.
  - assert (Hsq : (vget v j * vget v j == 0)%Q)
      by (apply H; apply in_seq; lia).
    nra.
  - apply in_seq in Hj. rewrite (H j) by lia. lra.
Qed.

Lemma sum_squares_ext (u v : VectorXd) :
  length u = length v ->
  (forall j, (j < length u)%nat -> (vget u j == vget v j)%Q) ->
  (sum_squares u == sum_squares v)%Q.
Proof.
  intros Hlen H. rewrite !sum_squares_Qsum, <- Hlen.
  apply Qsum_ext. intros j Hj. apply in_seq in Hj.
  rewrite (H j) by lia. reflexivity.
Qed.

(** The residual loop: each visited coefficient has its entry subtracted
    once. *)
Lemma residual_length {E : Type} (f : VectorXd -> E -> VectorXd) (l : list E) :
  (forall v e, length (f v e) = length v) ->
  forall v, length (fold_left f l v) = length v.
Proof.
  intros Hf. induction l as [|e l IH]; intros v; simpl; auto.
  rewrite IH. apply Hf.
Qed.

Lemma residual_entries (l : list (nat * double)) :
  forall (v : VectorXd) (j : nat),
    nodup_rows (map fst l) = true ->
    (forall e, In e l -> (fst e < length v)%nat) ->
    vget (fold_left (fun v e => upd (fst e) (vget v (fst e) - snd e)%D v) l v) j
    = if existsb (fun e => (fst e =? j)%nat) l
      then (vget v j - lookup_row j l)%D else vget v j.
Proof.
  induction l as [|e l IH]; intros v j Hnd Hin; simpl; [reflexivity|].
  simpl in Hnd. apply andb_true_iff in Hnd as [Hne Hnd].
  assert (He : (fst e < length v)%nat) by (apply Hin; simpl; auto).
  rewrite IH; [|exact Hnd|intros e' He'; rewrite upd_length; apply Hin; simpl; auto].
  unfold lookup_row. simpl.
  destruct (Nat.eqb_spec (fst e) j) as [Heq|Hneq]; simpl.
  - subst j.
    assert (Hno : existsb (fun e' => (fst e' =? fst e)%nat) l = false).
    { apply negb_true_iff in Hne. rewrite <- Hne.
      clear. induction l as [|e' l IH]; simpl; auto.
      rewrite IH, Nat.eqb_sym. reflexivity. }
    rewrite Hno, vget_upd, Nat.eqb_refl by exact He. reflexivity.
  - rewrite vget_upd by exact He.
    destruct (Nat.eqb_spec (fst e) j); [contradiction|]. reflexivity.
Qed.

Lemma lookup_row_absent (j : nat) (l : list (nat * double)) :
  existsb (fun e => (fst e =? j)%nat) l = false -> lookup_row j l = 0.
Proof.
  unfold lookup_row. induction l as [|e l IH]; simpl; auto.
  destruct (fst e =? j)%nat; simpl; [discriminate|exact IH].
Qed.

Lemma dense_residual_entries (g : nat -> double) (n : nat) (v : VectorXd) (j : nat) :
  (n <= length v)%nat ->
  vget (fold_left (fun v it => upd it (vget v it - g it)%D v) (seq 0 n) v) j
  = if (j <? n)%nat then (vget v j - g j)%D else vget v j.
Proof.
  induction n as [|n IH]; intros Hn; [reflexivity|].
  rewrite seq_S, fold_left_app. cbn [fold_left Nat.add].
  assert (Hlen : length (fold_left (fun v it => upd it (vget v it - g it)%D v)
                                   (seq 0 n) v) = length v)
    by (apply residual_length; intros; apply upd_length).
  rewrite vget_upd by (rewrite Hlen; lia).
  destruct (Nat.eqb_spec n j) as [<-|Hneq].
  - rewrite IH by lia. rewrite Nat.ltb_irrefl.
    destruct (Nat.ltb_spec n (S n)); [reflexivity|lia].
  - rewrite IH by lia.
    destruct (Nat.ltb_spec j n), (Nat.ltb_spec j (S n)); try reflexivity; lia.
Qed.

Lemma nodup_rows_forall (A : dgCMatrix) (c : nat) :
  csc_valid A = true -> (c < dg_cols A)%nat ->
  (forall e, In e (inner A c) -> (fst e < dg_rows A)%nat) /\
  nodup_rows (map fst (inner A c)) = true.
Proof.
  intros Hv Hc. unfold csc_valid in Hv. rewrite forallb_forall in Hv.
  specialize (Hv c). rewrite in_seq in Hv.
  destruct (proj1 (andb_true_iff _ _) (Hv ltac:(lia))) as [H1 H2].
  split; [|exact H2]. intros e He. rewrite forallb_forall in H1.
  apply Nat.ltb_lt. apply H1. exact He.
Qed.

Lemma coef_dense_of (A : dgCMatrix) (j c : nat) :
  (j < dg_rows A)%nat -> (c < dg_cols A)%nat ->
  coef (dense_of A) j c = lookup_row j (inner A c).
Proof.
  intros Hj Hc. unfold coef, col, dense_of, vget. cbn [columns].
  rewrite (nth_map_seq
             (fun c => map (fun r => lookup_row r (inner A c)) (seq 0 (dg_rows A))))
    by exact Hc.
  rewrite (nth_map_seq (fun r => lookup_row r (inner A c))) by exact Hj.
  reflexivity.
Qed.

Lemma loss_sparse_dense (A : dgCMatrix) (w h : MatrixXd) (i : nat) :
  csc_valid A = true -> rows w = dg_rows A -> (i < dg_cols A)%nat ->
  (loss_sparse A w h i == loss_dense (dense_of A) w h i)%Q.
Proof.
  intros Hv Hw Hi. unfold loss_sparse, loss_dense. cbv zeta.
  destruct (nodup_rows_forall A i Hv Hi) as [Hin Hnd].
  assert (Hlen : length (mvec w (col h i)) = dg_rows A)
    by (unfold mvec; rewrite length_map, length_seq; exact Hw).
  apply sum_squares_ext.
  - rewrite !residual_length by (intros; apply upd_length). reflexivity.
  - intros j Hj. rewrite residual_length in Hj by (intros; apply upd_length).
    rewrite residual_entries by (try exact Hnd; intros; rewrite Hlen; auto).
    change (rows (dense_of A)) with (dg_rows A).
    rewrite (dense_residual_entries (fun it => coef (dense_of A) it i))
      by (rewrite Hlen; lia).
    destruct (Nat.ltb_spec j (dg_rows A)) as [_|Hge]; [|lia].
    rewrite coef_dense_of by lia.
    destruct (existsb _ (inner A i)) eqn:E; [reflexivity|].
    rewrite (lookup_row_absent _ _ E), dsub_eq. lra.
Qed.

(** A product that fits is not changed by the wrap-around. *)
Lemma int_mul_fits (a b : nat) :
  int_fits a b -> int_mul a b = (Z.of_nat a * Z.of_nat b)%Z.
Proof.
  unfold int_fits, int_mul. intros H.
  rewrite Z.mod_small by lia. lia.
Qed.

Lemma int_mul_pos (a b : nat) : int_fits a b -> (0 < inject_Z (int_mul a b))%Q.
Proof.
  intros H. rewrite (int_mul_fits a b H).
  change 0%Q with (inject_Z 0). rewrite <- Zlt_Qlt. unfold int_fits in H. lia.
Qed.

(** A product that does not fit: 50000 times 50000 is negative. *)
Example int_mul_wraps :
  int_mul (Z.to_nat 50000) (Z.to_nat 50000) = (-1794967296)%Z.
Proof. vm_compute. reflexivity. Qed.

Lemma mse_dense_sum (A w : MatrixXd) (d : VectorXd) (h : MatrixXd) :
  (Rcpp_mse_dense A w d h
   == Qsum (loss_dense A (mse_w w d h) h) (seq 0 (cols A))
      / inject_Z (int_mul (cols A) (rows A)))%Q.
Proof.
  unfold Rcpp_mse_dense. cbv zeta. rewrite ddiv_eq, vsum_map_Qsum. reflexivity.
Qed.

Lemma mse_sparse_sum (A : dgCMatrix) (w : MatrixXd) (d : VectorXd) (h : MatrixXd) :
  (Rcpp_mse_sparse A w d h
   == Qsum (loss_sparse A (mse_w w d h) h) (seq 0 (dg_cols A))
      / inject_Z (int_mul (dg_cols A) (dg_rows A)))%Q.
Proof.
  unfold Rcpp_mse_sparse. cbv zeta. rewrite ddiv_eq, vsum_map_Qsum. reflexivity.
Qed.

Lemma loss_dense_nonneg (A w h : MatrixXd) (i : nat) : (0 <= loss_dense A w h i)%Q.
Proof. apply sum_squares_nonneg. Qed.

Lemma loss_sparse_nonneg (A : dgCMatrix) (w h : MatrixXd) (i : nat) :
  (0 <= loss_sparse A w h i)%Q.
Proof. apply sum_squares_nonneg. Qed.

(** (X14) The mean squared error that [Rcpp_mse_dense] and
    [Rcpp_mse_sparse] return is never negative for a matrix with at least
    one coefficient and fewer than [2^31] of them, so that the [int]
    product [A.cols() * A.rows()] the sum is divided by is their number. *)
Theorem mse_nonneg :
  forall (A : MatrixXd) (As : dgCMatrix) (w : MatrixXd) (d : VectorXd)
         (h : MatrixXd),
    int_fits (cols A) (rows A) -> int_fits (dg_cols As) (dg_rows As) ->
    (0 <= Rcpp_mse_dense A w d h)%Q /\ (0 <= Rcpp_mse_sparse As w d h)%Q.
Proof.
  intros A As w d h Hn Hns. split.
  - rewrite mse_dense_sum. apply quotient_nonneg; [apply int_mul_pos; exact Hn|].
    apply Qsum_nonneg. intros. apply loss_dense_nonneg.
  - rewrite mse_sparse_sum. apply quotient_nonneg; [apply int_mul_pos; exact Hns|].
    apply Qsum_nonneg. intros. apply loss_sparse_nonneg.
Qed.

(** (X15) For a dense [A] with at least one coefficient and fewer than
    [2^31] of them, and a [w] that, once oriented, has as many rows as [A],
    [Rcpp_mse_dense] returns 0 exactly when the model reproduces [A]:
    coefficient [j] of the product of the scaled [w] with column [i] of [h]
    is [A(j, i)], for every [i] and [j]. *)
Theorem mse_dense_zero_iff_exact :
  forall (A w : MatrixXd) (d : VectorXd) (h : MatrixXd),
    int_fits (cols A) (rows A) ->
    rows (mse_w w d h) = rows A ->
    ((Rcpp_mse_dense A w d h == 0)%Q <->
     forall i j, (i < cols A)%nat -> (j < rows A)%nat ->
       (vget (mvec (mse_w w d h) (col h i)) j == coef A j i)%Q).
Proof.
  intros A w d h Hn Hrows. rewrite mse_dense_sum.
  pose proof (int_mul_pos _ _ Hn) as Hpos.
  destruct (quotient_sign (Qsum (loss_dense A (mse_w w d h) h) (seq 0 (cols A)))
                          _ Hpos) as [_ Hz].
  rewrite Hz, Qsum_zero_iff by (intros; apply loss_dense_nonneg).
  assert (Hlen : forall i, length (mvec (mse_w w d h) (col h i)) = rows A)
    by (intros; unfold mvec; rewrite length_map, length_seq; exact Hrows).
  assert (Hres : forall i j, (j < rows A)%nat ->
     vget (fold_left (fun v it => upd it (vget v it - coef A it i)%D v)
                     (seq 0 (rows A)) (mvec (mse_w w d h) (col h i))) j
     = (vget (mvec (mse_w w d h) (col h i)) j - coef A j i)%D).
  { intros i j Hj.
    rewrite (dense_residual_entries (fun it => coef A it i))
      by (rewrite Hlen; lia).
    destruct (Nat.ltb_spec j (rows A)); [reflexivity|lia]. }
  split.
  - intros H i j Hi Hj.
    assert (H0 : (loss_dense A (mse_w w d h) h i == 0)%Q)
      by (apply H; apply in_seq; lia).
    unfold loss_dense in H0. cbv zeta in H0.
    rewrite sum_squares_zero_iff in H0.
    specialize (H0 j).
    rewrite residual_length in H0 by (intros; apply upd_length).
    rewrite Hlen, Hres in H0 by exact Hj. specialize (H0 Hj).
    rewrite dsub_eq in H0. lra.
  - intros H i Hi. apply in_seq in Hi. unfold loss_dense. cbv zeta.
    apply sum_squares_zero_iff. intros j Hj.
    rewrite residual_length in Hj by (intros; apply upd_length).
    rewrite Hlen in Hj. rewrite Hres, dsub_eq by exact Hj.
    rewrite (H i j) by lia. lra.
Qed.

(** (X16) On a compressed sparse column matrix whose row indices are in
    range and distinct within each column, [Rcpp_mse_sparse] returns the
    value [Rcpp_mse_dense] returns on the same matrix stored densely. *)
Theorem mse_sparse_is_mse_dense :
  forall (A : dgCMatrix) (w : MatrixXd) (d : VectorXd) (h : MatrixXd),
    csc_valid A = true ->
    rows (mse_w w d h) = dg_rows A ->
    (Rcpp_mse_sparse A w d h == Rcpp_mse_dense (dense_of A) w d h)%Q.
Proof.
  intros A w d h Hv Hrows. rewrite mse_sparse_sum, mse_dense_sum.
  assert (Hc : cols (dense_of A) = dg_cols A)
    by (unfold cols, dense_of; cbn [columns]; rewrite length_map, length_seq;
        reflexivity).
  rewrite Hc. change (rows (dense_of A)) with (dg_rows A).
  rewrite (Qsum_ext (loss_sparse A (mse_w w d h) h)
                    (loss_dense (dense_of A) (mse_w w d h) h)).
  - reflexivity.
  - intros i Hi. apply in_seq in Hi. apply loss_sparse_dense; auto. lia.
Qed.

(** (X17) The two orientations of [w] give the same loss: for a [w] with
    as many rows as [h] and a different number of columns, the loss
    functions return for [w] what they return for [w] transposed. *)
Theorem mse_orientation :
  forall (A : MatrixXd) (As : dgCMatrix) (w : MatrixXd) (d : VectorXd)
         (h : MatrixXd),
    rows w = rows h -> cols w <> rows h ->
    Rcpp_mse_dense A w d h = Rcpp_mse_dense A (transpose w) d h /\
    Rcpp_mse_sparse As w d h = Rcpp_mse_sparse As (transpose w) d h.
Proof.
  intros A As w d h Hr Hc.
  assert (Ho : mse_orient w h = mse_orient (transpose w) h).
  { unfold mse_orient. rewrite Hr, Nat.eqb_refl.
    change (rows (transpose w)) with (cols w).
    destruct (Nat.eqb_spec (cols w) (rows h)); [contradiction|reflexivity]. }
  unfold Rcpp_mse_dense, Rcpp_mse_sparse. rewrite Ho. split; reflexivity.
Qed.

(** A 2-by-2 matrix, in both storages, with a rank-1 model of it. *)
Lemma mse_nonneg_witness :
  let A := mkMatrix 2 [[1; 2]; [2; 5]] in
  let As := mkDgC [0; 1; 0; 1]%nat [0; 2; 4]%nat (2, 2)%nat [1; 2; 2; 5] in
  let w := mkMatrix 1 [[1]; [2]] in
  let h := mkMatrix 1 [[1]; [2]] in
  (0 <= Rcpp_mse_dense A w [1] h)%Q /\ (0 <= Rcpp_mse_sparse As w [1] h)%Q.
Proof.
  intros A As w h.
  apply (mse_nonneg A As w [1] h); unfold int_fits; vm_compute; split;
    reflexivity.
Defined.

(** The rank-1 matrix [(1, 2; 2, 4)] and the model [w = h = (1, 2)]. *)
Lemma mse_dense_zero_iff_exact_witness :
  let A := mkMatrix 2 [[1; 2]; [2; 4]] in
  let w := mkMatrix 1 [[1]; [2]] in
  let h := mkMatrix 1 [[1]; [2]] in
  (Rcpp_mse_dense A w [1] h == 0)%Q <->
  forall i j, (i < cols A)%nat -> (j < rows A)%nat ->
    (vget (mvec (mse_w w [1] h) (col h i)) j == coef A j i)%Q.
Proof.
  intros A w h.
  apply (mse_dense_zero_iff_exact A w [1] h).
  - unfold int_fits. vm_compute. split; reflexivity.
  - reflexivity.
Defined.

Lemma mse_sparse_is_mse_dense_witness :
  let As := mkDgC [1; 0; 1]%nat [0; 1; 3]%nat (2, 2)%nat [2; 2; 5] in
  let w := mkMatrix 1 [[1]; [2]] in
  let h := mkMatrix 1 [[1]; [2]] in
  (Rcpp_mse_sparse As w [1] h == Rcpp_mse_dense (dense_of As) w [1] h)%Q.
Proof.
  intros As w h.
  apply (mse_sparse_is_mse_dense As w [1] h); reflexivity.
Defined.

Lemma mse_orientation_witness :
  let A := mkMatrix 3 [[1; 2; 3]; [2; 4; 6]] in
  let As := mkDgC [0; 1; 2]%nat [0; 3; 3]%nat (3, 2)%nat [1; 2; 3] in
  let w := mkMatrix 1 [[1]; [2]; [3]] in
  let h := mkMatrix 1 [[1]; [2]] in
  Rcpp_mse_dense A w [1] h = Rcpp_mse_dense A (transpose w) [1] h /\
  Rcpp_mse_sparse As w [1] h = Rcpp_mse_sparse As (transpose w) [1] h.
Proof.
  intros A As w h.
  apply (mse_orientation A As w [1] h).
  - reflexivity.
  - vm_compute. discriminate.
Defined.

(* ------------------------------------------------------------------ *)
(** ** Section 7 of the source: the wrappers *)

Lemma fold_set_col (F : nat -> VectorXd -> VectorXd) (n : nat) (m : MatrixXd) :
  let m' := fold_left (fun m0 i => set_col m0 i (F i (col m0 i))) (seq 0 n) m in
  rows m' = rows m /\ cols m' = cols m /\
  forall j, col m' j
            = if (j <? n)%nat && (j <? cols m)%nat then F j (col m j) else col m j.
Proof.
  induction n as [|n IH]; cbv zeta.
  - simpl. auto.
  - rewrite seq_S, fold_left_app. cbn [fold_left Nat.add].
    cbv zeta in IH. destruct IH as (Hr & Hc & Hcol).
    set (m1 := fold_left _ (seq 0 n) m) in *.
    split; [exact Hr|]. split.
    + unfold cols, set_col. cbn [columns]. rewrite upd_length. exact Hc.
    + intros j. unfold col at 1. unfold set_col. cbn [columns].
      rewrite nth_upd. fold (col m1 j). fold (cols m1). rewrite Hc, !Hcol.
      destruct (Nat.eqb_spec n j) as [<-|Hneq].
      * rewrite Nat.ltb_irrefl.
        destruct (Nat.ltb_spec n (cols m)), (Nat.ltb_spec n (S n));
          try reflexivity; lia.
      * cbn [andb].
        destruct (Nat.ltb_spec j n), (Nat.ltb_spec j (S n)); try reflexivity; lia.
Qed.

Section WrapperProperties.
Context {N : Numerics}.

(** (X18) [Rcpp_nnls] solves the columns of [b] independently: column [i]
    of what it returns is [c_nnls] on column [i] of the [b] it was given,
    with the matrix [a] and its decomposition; the result has the shape of
    [b]. *)
Theorem Rcpp_nnls_columns :
  forall (a b : MatrixXd) (fast_maxit cd_maxit : nat) (cd_tol : double)
         (nonneg : bool),
    let x := Rcpp_nnls a b fast_maxit cd_maxit cd_tol nonneg in
    rows x = rows b /\ cols x = cols b /\
    forall i, (i < cols b)%nat ->
      col x i = c_nnls a (col b i) (llt a) fast_maxit cd_maxit cd_tol nonneg.
Proof.
  intros a b fast_maxit cd_maxit cd_tol nonneg. cbv zeta. unfold Rcpp_nnls.
  destruct (fold_set_col
              (fun _ c => c_nnls a c (llt a) fast_maxit cd_maxit cd_tol nonneg)
              (cols b) b) as (Hr & Hc & Hcol).
  split; [exact Hr|]. split; [exact Hc|].
  intros i Hi. rewrite Hcol.
  destruct (Nat.ltb_spec i (cols b)); [reflexivity|lia].
Qed.

(** (X19) With [nonneg] and at least one sweep of coordinate descent made
    ([cd_maxit >= 1] and a [cd_tol] between [-2^53] and [2^53]), no
    coefficient of the matrix [Rcpp_nnls] returns is negative. *)
Theorem Rcpp_nnls_nonneg :
  forall (a b : MatrixXd) (fast_maxit cd_maxit : nat) (cd_tol : double),
    sweep_made cd_maxit cd_tol ->
    forall i, (i < cols b)%nat ->
      all_nonneg (col (Rcpp_nnls a b fast_maxit cd_maxit cd_tol true) i).
Proof.
  intros a b fast_maxit cd_maxit cd_tol (Hcd & Hlo & Hhi) i Hi. unfold Rcpp_nnls.
  destruct (fold_set_col
              (fun _ c => c_nnls a c (llt a) fast_maxit cd_maxit cd_tol true)
              (cols b) b) as (_ & _ & Hcol).
  rewrite Hcol. destruct (Nat.ltb_spec i (cols b)); [|lia]. cbn [andb].
  unfold c_nnls. destruct (Nat.eqb_spec cd_maxit 0); [lia|]. cbn [andb].
  apply c_cdnnls_nonneg; assumption.
Qed.

End WrapperProperties.

(** (X20) [Rcpp_cdnnls] refines the columns of [x] independently: column
    [i] of what it returns is [c_cdnnls] on column [i] of [b] from column
    [i] of the [x] it was given, when [x] has a column for each column of
    [b]; the result has the shape of [x]. *)
Theorem Rcpp_cdnnls_columns :
  forall (a b x : MatrixXd) (cd_maxit : nat) (cd_tol : double) (nonneg : bool),
    cols x = cols b ->
    let x' := Rcpp_cdnnls a b x cd_maxit cd_tol nonneg in
    rows x' = rows x /\ cols x' = cols x /\
    forall i, (i < cols b)%nat ->
      col x' i = c_cdnnls a (col b i) (col x i) cd_maxit cd_tol nonneg.
Proof.
  intros a b x cd_maxit cd_tol nonneg Hcols. cbv zeta. unfold Rcpp_cdnnls.
  destruct (fold_set_col
              (fun i c => c_cdnnls a (col b i) c cd_maxit cd_tol nonneg)
              (cols b) x) as (Hr & Hc & Hcol).
  split; [exact Hr|]. split; [exact Hc|].
  intros i Hi. rewrite Hcol.
  destruct (Nat.ltb_spec i (cols b)); [|lia].
  destruct (Nat.ltb_spec i (cols x)); [reflexivity|lia].
Qed.

(** (X21) With [cd_maxit = 0], [Rcpp_cdnnls] returns the matrix [x] it was
    given, whatever [a] and [b] are. *)
Theorem Rcpp_cdnnls_maxit0 :
  forall (a b x : MatrixXd) (cd_tol : double) (nonneg : bool),
    Rcpp_cdnnls a b x 0 cd_tol nonneg = x.
Proof.
  intros a b x cd_tol nonneg. unfold Rcpp_cdnnls.
  generalize (seq 0 (cols b)). intros l. induction l as [|i l IH]; [reflexivity|].
  cbn [fold_left].
  replace (set_col x i (c_cdnnls a (col b i) (col x i) 0 cd_tol nonneg)) with x;
    [exact IH|].
  unfold c_cdnnls, c_cdnnls_run. cbn [cd_loop fst cd_init cd_x].
  unfold set_col, col. rewrite upd_nth_id. destruct x; reflexivity.
Qed.

Lemma Rcpp_nnls_nonneg_witness :
  let a := mkMatrix 2 [[2; 1]; [1; 2]] in
  let b := mkMatrix 2 [[1; -1]; [1; 1]] in
  all_nonneg (col (@Rcpp_nnls ExactNumerics a b 10 100 (1 # 100000000) true) 0).
Proof.
  intros a b.
  apply (@Rcpp_nnls_nonneg ExactNumerics a b 10 100 (1 # 100000000)).
  - split; [lia|]. unfold two53. split; lra.
  - vm_compute. lia.
Defined.

Lemma Rcpp_cdnnls_columns_witness :
  let a := mkMatrix 2 [[2; 1]; [1; 2]] in
  let b := mkMatrix 2 [[1; -1]; [1; 1]] in
  let x := mkMatrix 2 [[0; 0]; [0; 0]] in
  let x' := Rcpp_cdnnls a b x 100 (1 # 100000000) true in
  rows x' = rows x /\ cols x' = cols x /\
  forall i, (i < cols b)%nat ->
    col x' i = c_cdnnls a (col b i) (col x i) 100 (1 # 100000000) true.
Proof.
  intros a b x.
  apply (Rcpp_cdnnls_columns a b x 100 (1 # 100000000) true).
  reflexivity.
Defined.

(* ------------------------------------------------------------------ *)
(** ** The sparse and the dense code paths *)

Lemma canonical_zero : canonical 0.
Proof. reflexivity. Qed.

Lemma canonical_dadd (x y : double) : canonical (x + y).
Proof. unfold canonical, dadd. apply Qred_complete, Qred_correct. Qed.

Lemma dadd_zero_mul (x c : double) : canonical x -> (x + 0 * c)%D = x.
Proof.
  intros Hx. unfold canonical in Hx.
  transitivity (Qred x); [|exact Hx].
  unfold dadd, dmul. apply Qred_complete. rewrite Qred_correct. ring.
Qed.

Lemma fold_left_ext_in {St E : Type} (f g : St -> E -> St) (l : list E) :
  (forall s x, In x l -> f s x = g s x) ->
  forall s, fold_left f l s = fold_left g l s.
Proof.
  induction l as [|x l IH]; intros H s; simpl; auto.
  rewrite (H s x) by (simpl; auto). apply IH. intros; apply H; simpl; auto.
Qed.

Lemma fold_left_ext_inv {St E : Type} (P : St -> Prop) (f g : St -> E -> St)
      (l : list E) :
  (forall s x, P s -> In x l -> f s x = g s x) ->
  (forall s x, P s -> In x l -> P (g s x)) ->
  forall s, P s -> fold_left f l s = fold_left g l s /\ P (fold_left g l s).
Proof.
  induction l as [|x l IH]; intros Hfg Hg s Hs; simpl; auto.
  rewrite (Hfg s x) by (simpl; auto).
  apply IH; [| |apply Hg; simpl; auto];
    intros; [apply Hfg | apply Hg]; simpl; auto.
Qed.

Lemma fold_left_inv {St E : Type} (P : St -> Prop) (g : St -> E -> St) (l : list E) :
  (forall s x, P s -> P (g s x)) -> forall s, P s -> P (fold_left g l s).
Proof.
  intros Hg. induction l as [|x l IH]; intros s Hs; simpl; auto.
Qed.

Lemma increasing_rows_cons (r : nat) (l : list nat) :
  increasing_rows (r :: l) = true ->
  Forall (lt r) l /\ increasing_rows l = true.
Proof.
  revert r. induction l as [|r' l IH]; intros r H; [split; auto|].
  cbn [increasing_rows] in H. apply andb_true_iff in H as [Hlt Hinc].
  apply Nat.ltb_lt in Hlt. split; [|exact Hinc].
  constructor; [exact Hlt|].
  destruct (IH r' Hinc) as [Hall _].
  eapply Forall_impl; [|exact Hall]. intros; cbv beta in *; lia.
Qed.

Lemma lookup_row_missing (r : nat) (l : list (nat * double)) :
  (forall e, In e l -> fst e <> r) -> lookup_row r l = 0.
Proof.
  intros H. apply lookup_row_absent.
  induction l as [|e l IH]; simpl; auto.
  destruct (Nat.eqb_spec (fst e) r) as [Heq|_].
  - exfalso. apply (H e); simpl; auto.
  - apply IH. intros; apply H; simpl; auto.
Qed.

(** A loop over all the rows of a column that does nothing at a zero
    coefficient is the loop over the stored entries of the column. *)
Lemma dense_fold_sparse {St : Type} (P : St -> Prop)
      (step : St -> nat -> double -> St) :
  (forall s r, P s -> step s r 0 = s) ->
  (forall s r v, P s -> P (step s r v)) ->
  forall (n a : nat) (l : list (nat * double)) (s : St),
    P s -> increasing_rows (map fst l) = true ->
    (forall e, In e l -> (a <= fst e < a + n)%nat) ->
    fold_left (fun s r => step s r (lookup_row r l)) (seq a n) s
    = fold_left (fun s e => step s (fst e) (snd e)) l s.
Proof.
  intros Hid Hpres. induction n as [|n IH]; intros a l s Hs Hinc Hb.
  - destruct l as [|e l]; [reflexivity|].
    exfalso. specialize (Hb e (or_introl eq_refl)). lia.
  - cbn [seq fold_left]. destruct l as [|e l].
    + change (lookup_row a []) with 0. rewrite Hid by exact Hs.
      rewrite (IH (S a) [] s Hs eq_refl) by (intros e []). reflexivity.
    + cbn [map] in Hinc. destruct (increasing_rows_cons _ _ Hinc) as [Hall Hinc'].
      rewrite Forall_forall in Hall.
      assert (Hgt : forall e', In e' l -> (fst e < fst e')%nat)
        by (intros e' He'; apply Hall; apply in_map; exact He').
      pose proof (Hb e (or_introl eq_refl)) as Hbe.
      destruct (Nat.eq_dec (fst e) a) as [Heq|Hneq].
      * assert (Hl : lookup_row a (e :: l) = snd e)
          by (unfold lookup_row; cbn [find]; rewrite Heq, Nat.eqb_refl; reflexivity).
        rewrite Hl. cbn [fold_left]. rewrite Heq.
        rewrite <- (IH (S a) l (step s a (snd e)));
          [|apply Hpres; exact Hs | exact Hinc'
           |intros e' He'; specialize (Hgt e' He'); specialize (Hb e' (or_intror He'));
            lia].
        apply fold_left_ext_in. intros s' r Hr. apply in_seq in Hr.
        unfold lookup_row. cbn [find].
        destruct (Nat.eqb_spec (fst e) r); [lia|reflexivity].
      * assert (Hl : lookup_row a (e :: l) = 0).
        { apply lookup_row_missing. intros e' [<-|He']; [exact Hneq|].
          specialize (Hgt e' He'). lia. }
        rewrite Hl, Hid by exact Hs.
        apply (IH (S a) (e :: l) s Hs Hinc).
        intros e' [<-|He']; [lia|].
        specialize (Hgt e' He'). specialize (Hb e' (or_intror He')). lia.
Qed.

Lemma csc_sorted_column (A : dgCMatrix) (c : nat) :
  csc_sorted A = true -> (c < dg_cols A)%nat ->
  (forall e, In e (inner A c) -> (0 <= fst e < 0 + dg_rows A)%nat) /\
  increasing_rows (map fst (inner A c)) = true.
Proof.
  intros Hv Hc. unfold csc_sorted in Hv. rewrite forallb_forall in Hv.
  specialize (Hv c). rewrite in_seq in Hv.
  destruct (proj1 (andb_true_iff _ _) (Hv ltac:(lia))) as [H1 H2].
  split; [|exact H2]. intros e He. rewrite forallb_forall in H1.
  specialize (H1 e He). apply Nat.ltb_lt in H1. lia.
Qed.

Lemma cols_dense_of (A : dgCMatrix) : cols (dense_of A) = dg_cols A.
Proof.
  unfold cols, dense_of. cbn [columns]. rewrite length_map, length_seq.
  reflexivity.
Qed.

(** The dense loop over column [i] of [dense_of A] is the loop over the
    stored entries of that column. *)
Lemma dense_column_loop {St : Type} (P : St -> Prop)
      (step : St -> nat -> double -> St) (A : dgCMatrix) (i : nat) (s : St) :
  (forall s r, P s -> step s r 0 = s) ->
  (forall s r v, P s -> P (step s r v)) ->
  csc_sorted A = true -> (i < dg_cols A)%nat -> P s ->
  fold_left (fun s it => step s it (coef (dense_of A) it i))
            (seq 0 (rows (dense_of A))) s
  = fold_left (fun s e => step s (fst e) (snd e)) (inner A i) s.
Proof.
  intros Hid Hpres Hv Hi Hs.
  destruct (csc_sorted_column A i Hv Hi) as [Hb Hinc].
  change (rows (dense_of A)) with (dg_rows A).
  rewrite <- (dense_fold_sparse P step Hid Hpres (dg_rows A) 0 (inner A i) s
                                Hs Hinc Hb).
  apply fold_left_ext_in. intros s' r Hr. apply in_seq in Hr.
  rewrite coef_dense_of by lia. reflexivity.
Qed.

Lemma rhs_sparse_dense (A : dgCMatrix) (w : MatrixXd) (k i : nat) :
  csc_sorted A = true -> (i < dg_cols A)%nat ->
  rhs_dense (dense_of A) w k i = rhs_sparse A w k i.
Proof.
  intros Hv Hi. unfold rhs_dense, rhs_sparse.
  apply (dense_column_loop
           (fun b => length b = k /\ forall j, canonical (vget b j))
           (fun b it v => map (fun j => (vget b j + v * coef w j it)%D) (seq 0 k)));
    auto.
  - intros b r [Hlen Hcan].
    rewrite (map_ext _ (fun j => vget b j))
      by (intros j; apply dadd_zero_mul, Hcan).
    rewrite <- Hlen. apply map_nth_seq.
  - intros b r v _. split; [rewrite length_map, length_seq; reflexivity|].
    intros j. destruct (Nat.ltb_spec j k) as [Hj|Hj].
    + unfold vget at 1.
      rewrite (nth_map_seq (fun j => (vget b j + v * coef w j r)%D)) by exact Hj.
      apply canonical_dadd.
    + unfold vget. rewrite nth_overflow by (rewrite length_map, length_seq; exact Hj).
      apply canonical_zero.
  - split; [apply repeat_length|].
    intros j. unfold vget, zero_vec.
    destruct (Nat.ltb_spec j k) as [Hj|Hj].
    + rewrite (nth_indep _ 0 0) by (rewrite repeat_length; exact Hj).
      rewrite nth_repeat. apply canonical_zero.
    + rewrite nth_overflow by (rewrite repeat_length; exact Hj).
      apply canonical_zero.
Qed.

Lemma hb_sparse_dense (A : dgCMatrix) (w : MatrixXd) (i : nat) :
  csc_sorted A = true -> (i < dg_cols A)%nat ->
  hb_dense (dense_of A) w i = hb_sparse A w i.
Proof.
  intros Hv Hi. unfold hb_dense, hb_sparse.
  apply (dense_column_loop
           (fun b : double * double => canonical (fst b) /\ canonical (snd b))
           (fun b it v => ((fst b + v * coef w 0 it)%D,
                           (snd b + v * coef w 1 it)%D)));
    auto.
  - intros [b0 b1] r [H0 H1]. cbn [fst snd] in *.
    rewrite !dadd_zero_mul by assumption. reflexivity.
  - intros b r v _. cbn [fst snd]. split; apply canonical_dadd.
  - split; apply canonical_zero.
Qed.

Lemma coef_set_coef_cases (m : MatrixXd) (i j i' j' : nat) (v : double) :
  coef (set_coef m i j v) i' j' = v \/
  coef (set_coef m i j v) i' j' = coef m i' j'.
Proof.
  unfold coef, col, vget, set_coef. cbn [columns]. rewrite nth_upd.
  destruct ((j =? j')%nat && (j <? length (columns m))%nat) eqn:E; [|auto].
  apply andb_true_iff in E as [E _]. apply Nat.eqb_eq in E. subst j'.
  rewrite nth_upd. destruct (_ && _); auto.
Qed.

Lemma wb_step_canonical (h : MatrixXd) (i : nat) (wb : MatrixXd) (r : nat)
      (v : double) :
  (forall r c, canonical (coef wb r c)) ->
  forall r' c,
    canonical
      (coef (set_coef (set_coef wb 0 r (coef wb 0 r + v * coef h 0 i)%D) 1 r
                      (coef (set_coef wb 0 r (coef wb 0 r + v * coef h 0 i)%D) 1 r
                       + v * coef h 1 i)%D) r' c).
Proof.
  intros Hcan r' c.
  destruct (coef_set_coef_cases
              (set_coef wb 0 r (coef wb 0 r + v * coef h 0 i)%D) 1 r r' c
              (coef (set_coef wb 0 r (coef wb 0 r + v * coef h 0 i)%D) 1 r
               + v * coef h 1 i)%D) as [-> | ->]; [apply canonical_dadd|].
  destruct (coef_set_coef_cases wb 0 r r' c (coef wb 0 r + v * coef h 0 i)%D)
    as [-> | ->]; [apply canonical_dadd | apply Hcan].
Qed.

Lemma wb_sparse_dense (A : dgCMatrix) (h : MatrixXd) :
  csc_sorted A = true -> wb_dense (dense_of A) h = wb_sparse A h.
Proof.
  intros Hv. unfold wb_dense, wb_sparse. rewrite cols_dense_of.
  change (rows (dense_of A)) with (dg_rows A).
  apply (fold_left_ext_inv (fun wb => forall r c, canonical (coef wb r c))).
  - intros wb i Hcan Hi. apply in_seq in Hi.
    apply (dense_column_loop
             (fun wb => forall r c, canonical (coef wb r c))
             (fun wb it v =>
                set_coef (set_coef wb 0 it (coef wb 0 it + v * coef h 0 i)%D) 1 it
                         (coef (set_coef wb 0 it (coef wb 0 it + v * coef h 0 i)%D)
                               1 it + v * coef h 1 i)%D));
      auto; try lia.
    + intros s r Hs. rewrite (dadd_zero_mul (coef s 0 r)) by apply Hs.
      rewrite set_coef_id. rewrite dadd_zero_mul by apply Hs.
      apply set_coef_id.
    + intros s r v Hs. apply wb_step_canonical. exact Hs.
  - intros wb i Hcan _. apply fold_left_inv; [|exact Hcan].
    intros s e Hs. apply wb_step_canonical. exact Hs.
  - intros r c. rewrite coef_zero_mat. apply canonical_zero.
Qed.

Lemma als_loop_ext (body1 body2 : als_state -> als_state) (tol : double)
      (fuel : nat) :
  (forall s, body1 s = body2 s) ->
  forall it s, als_loop body1 tol fuel it s = als_loop body2 tol fuel it s.
Proof.
  intros H. induction fuel as [|fuel IH]; intros it s; simpl; auto.
  rewrite H. destruct (Qltb _ tol); auto.
Qed.

Section SparseDense.
Context {N : Numerics}.

Lemma c_project_sparse_dense (A : dgCMatrix) (w : MatrixXd) (nonneg : bool)
      (fast_maxit cd_maxit : nat) (cd_tol L1 : double) :
  csc_sorted A = true ->
  c_project_sparse A w nonneg fast_maxit cd_maxit cd_tol L1
  = Rcpp_project_dense (dense_of A) w nonneg fast_maxit cd_maxit cd_tol L1.
Proof.
  intros Hv. unfold c_project_sparse, Rcpp_project_dense. cbv zeta.
  rewrite cols_dense_of. f_equal. apply map_ext_in. intros i Hi.
  apply in_seq in Hi. rewrite rhs_sparse_dense by (auto; lia). reflexivity.
Qed.

(** (X22) On a compressed sparse column matrix whose row indices are in
    range and increasing within each column, [Rcpp_project_sparse] returns
    the matrix that [Rcpp_project_dense] returns on the same matrix stored
    densely. *)
Theorem project_sparse_is_project_dense :
  forall (A : dgCMatrix) (w : MatrixXd) (nonneg : bool)
         (fast_maxit cd_maxit : nat) (cd_tol L1 : double),
    csc_sorted A = true ->
    Rcpp_project_sparse A w nonneg fast_maxit cd_maxit cd_tol L1
    = Rcpp_project_dense (dense_of A) w nonneg fast_maxit cd_maxit cd_tol L1.
Proof.
  intros A w nonneg fast_maxit cd_maxit cd_tol L1 Hv.
  unfold Rcpp_project_sparse, c_project_sparse, Rcpp_project_dense. cbv zeta.
  rewrite cols_dense_of. f_equal. apply map_ext_in. intros i Hi.
  apply in_seq in Hi. rewrite rhs_sparse_dense by (auto; lia). reflexivity.
Qed.

Lemma nmf_body_sparse_dense (A At : dgCMatrix) (Ad : MatrixXd)
      (symmetric nonneg : bool) (L1_w L1_h : double) (diag : bool)
      (fast_maxit cd_maxit : nat) (cd_tol : double) (k : nat) (s : als_state) :
  csc_sorted A = true ->
  (symmetric = false -> csc_sorted At = true /\ dense_of At = Ad) ->
  nmf_sparse_body A At symmetric nonneg L1_w L1_h diag fast_maxit cd_maxit
                  cd_tol k s
  = nmf_dense_body (dense_of A) Ad symmetric nonneg L1_w L1_h diag fast_maxit
                   cd_maxit cd_tol k s.
Proof.
  intros Hv Ht. unfold nmf_sparse_body, nmf_dense_body. cbv zeta.
  rewrite cols_dense_of. change (rows (dense_of A)) with (dg_rows A).
  rewrite !(c_project_sparse_dense A) by exact Hv.
  destruct symmetric; [reflexivity|].
  destruct (Ht eq_refl) as [Hvt <-].
  rewrite !(c_project_sparse_dense At) by exact Hvt. reflexivity.
Qed.

(** (X23) On a sparse [A] with row indices in range and increasing within
    each column (and, unless [symmetric], an [At] of the same kind that
    stores the transpose of [A]), [Rcpp_nmf_sparse] returns what
    [Rcpp_nmf_dense] returns on the same matrix stored densely: the same
    [w], [d], [h], [tol] and [iter]. *)
Theorem nmf_sparse_is_nmf_dense :
  forall (A At : dgCMatrix) (symmetric : bool) (w : MatrixXd)
         (tol : double) (nonneg : bool) (L1_w L1_h : double) (maxit : nat)
         (diag : bool) (fast_maxit cd_maxit : nat) (cd_tol : double),
    csc_sorted A = true ->
    (symmetric = false ->
     csc_sorted At = true /\ dense_of At = transpose (dense_of A)) ->
    Rcpp_nmf_sparse A At symmetric w tol nonneg L1_w L1_h maxit diag
                    fast_maxit cd_maxit cd_tol
    = Rcpp_nmf_dense (dense_of A) symmetric w tol nonneg L1_w L1_h maxit diag
                     fast_maxit cd_maxit cd_tol.
Proof.
  intros A At symmetric w tol nonneg L1_w L1_h maxit diag fast_maxit cd_maxit
         cd_tol Hv Ht.
  unfold Rcpp_nmf_sparse, Rcpp_nmf_dense. cbv zeta. rewrite cols_dense_of.
  f_equal. apply als_loop_ext. intros s. apply nmf_body_sparse_dense.
  - exact Hv.
  - intros Hs. rewrite Hs. apply Ht. exact Hs.
Qed.

Lemma nmf2_update_h_ext (nonneg diag : bool) (hb1 hb2 : nat -> double * double)
      (n : nat) (w h : MatrixXd) (d : VectorXd) :
  (forall i, (i < n)%nat -> hb1 i = hb2 i) ->
  nmf2_update_h nonneg diag hb1 n w h d = nmf2_update_h nonneg diag hb2 n w h d.
Proof.
  intros H. unfold nmf2_update_h. cbv zeta. f_equal. unfold solve2_all.
  apply fold_left_ext_in. intros m i Hi. apply in_seq in Hi.
  rewrite (H i) by lia. reflexivity.
Qed.

Lemma nmf2_body_sparse_dense (A : dgCMatrix) (nonneg diag : bool) (s : als_state) :
  csc_sorted A = true ->
  nmf2_sparse_body A nonneg diag s = nmf2_dense_body (dense_of A) nonneg diag s.
Proof.
  intros Hv. unfold nmf2_sparse_body, nmf2_dense_body. cbv zeta.
  rewrite cols_dense_of, wb_sparse_dense by exact Hv.
  change (rows (dense_of A)) with (dg_rows A).
  set (wd := nmf2_update_w nonneg diag (wb_sparse A (als_h s)) (dg_rows A) s).
  rewrite (nmf2_update_h_ext nonneg diag (hb_sparse A (fst wd))
                             (hb_dense (dense_of A) (fst wd)));
    [reflexivity|].
  intros i Hi. symmetry. apply hb_sparse_dense; assumption.
Qed.

(** (X24) On a sparse [A] with row indices in range and increasing within
    each column, [Rcpp_nmf2_sparse] returns what [Rcpp_nmf2_dense] returns
    on the same matrix stored densely. *)
Theorem nmf2_sparse_is_nmf2_dense :
  forall (A : dgCMatrix) (h : MatrixXd) (tol : double) (nonneg : bool)
         (maxit : nat) (diag : bool),
    csc_sorted A = true ->
    Rcpp_nmf2_sparse A h tol nonneg maxit diag
    = Rcpp_nmf2_dense (dense_of A) h tol nonneg maxit diag.
Proof.
  intros A h tol nonneg maxit diag Hv.
  unfold Rcpp_nmf2_sparse, Rcpp_nmf2_dense.
  change (rows (dense_of A)) with (dg_rows A).
  f_equal. apply als_loop_ext. intros s. apply nmf2_body_sparse_dense. exact Hv.
Qed.

End SparseDense.

Lemma project_sparse_is_project_dense_witness :
  let A := mkDgC [0; 2; 1]%nat [0; 2; 3]%nat (3, 2)%nat [1; 2; 3] in
  let w := mkMatrix 1 [[1]; [2]; [3]] in
  @Rcpp_project_sparse ExactNumerics A w true 10 100 (1 # 100000000) 0
  = @Rcpp_project_dense ExactNumerics (dense_of A) w true 10 100
                        (1 # 100000000) 0.
Proof.
  intros A w.
  apply (@project_sparse_is_project_dense ExactNumerics A w true 10 100
           (1 # 100000000) 0).
  reflexivity.
Defined.

(** The 3-by-2 matrix [(1, 0; 2, 1; 0, 3)] and its transpose, in compressed
    sparse column form. *)
Lemma nmf_sparse_is_nmf_dense_witness :
  let A := mkDgC [0; 1; 1; 2]%nat [0; 2; 4]%nat (3, 2)%nat [1; 2; 1; 3] in
  let At := mkDgC [0; 0; 1; 1]%nat [0; 1; 3; 4]%nat (2, 3)%nat [1; 2; 1; 3] in
  let w := mkMatrix 2 [[1; 0]; [1; 1]; [0; 1]] in
  @Rcpp_nmf_sparse ExactNumerics A At false w (1 # 1000) true 0 0 5 true
                   10 100 (1 # 100000000)
  = @Rcpp_nmf_dense ExactNumerics (dense_of A) false w (1 # 1000) true 0 0 5 true
                    10 100 (1 # 100000000).
Proof.
  intros A At w.
  apply (@nmf_sparse_is_nmf_dense ExactNumerics A At false w (1 # 1000) true
           0 0 5%nat true 10%nat 100%nat (1 # 100000000)).
  - reflexivity.
  - intros _. split; reflexivity.
Defined.

Lemma nmf2_sparse_is_nmf2_dense_witness :
  let A := mkDgC [0; 1; 1; 2]%nat [0; 2; 4]%nat (3, 2)%nat [1; 2; 1; 3] in
  let h := mkMatrix 2 [[1; 0]; [0; 1]] in
  @Rcpp_nmf2_sparse ExactNumerics A h (1 # 1000) true 5 true
  = @Rcpp_nmf2_dense ExactNumerics (dense_of A) h (1 # 1000) true 5 true.
Proof.
  intros A h.
  apply (@nmf2_sparse_is_nmf2_dense ExactNumerics A h (1 # 1000) true 5%nat true).
  reflexivity.
Defined.

(* ------------------------------------------------------------------ *)
(** ** The general drivers: the diagonal *)

Lemma vsum_nonneg (v : VectorXd) : all_nonneg v -> (0 <= vsum v)%Q.
Proof.
  intros H. rewrite vsum_sum. induction H as [|x l Hx Hl IH]; simpl; lra.
Qed.

Lemma row_nonneg (m : MatrixXd) (i : nat) :
  (forall i j, (0 <= coef m i j)%Q) -> all_nonneg (row m i).
Proof.
  intros H. rewrite row_coef. apply Forall_forall. intros v Hv.
  apply in_map_iff in Hv as [j [<- _]]. apply H.
Qed.

Lemma rescale_positive (k n : nat) (m : MatrixXd) (d : VectorXd) :
  n = cols m -> tall k m -> (k <= length d)%nat ->
  (forall i j, (0 <= coef m i j)%Q) ->
  forall i, (i < k)%nat -> (0 < vget (snd (rescale true k n m d)) i)%Q.
Proof.
  intros Hn Ht Hd Hm i Hi. unfold rescale.
  destruct (rescale_rows_spec n k (seq 0 k) m d) as [Hin _]; auto.
  { apply seq_NoDup. }
  { intros j Hj. apply in_seq in Hj. lia. }
  destruct (Hin i) as [_ ->]; [apply in_seq; lia|].
  rewrite dadd_eq. pose proof (vsum_nonneg _ (row_nonneg m i Hm)).
  assert (0 < eps15)%Q by reflexivity. lra.
Qed.

Section Diagonal.
Context {N : Numerics} {NS : NumericsSpec N}.

Lemma c_nnls_polished_nonneg (a : MatrixXd) (b : VectorXd) (a_llt : LLT)
      (fast_maxit cd_maxit : nat) (cd_tol : double) :
  sweep_made cd_maxit cd_tol ->
  all_nonneg (c_nnls a b a_llt fast_maxit cd_maxit cd_tol true).
Proof.
  intros (Hcd & Hlo & Hhi). unfold c_nnls.
  destruct (Nat.eqb_spec cd_maxit 0); [lia|].
  cbn [andb]. apply c_cdnnls_nonneg; assumption.
Qed.

Lemma columns_nonneg (k : nat) (cs : list VectorXd) :
  Forall all_nonneg cs -> forall i j, (0 <= coef (mkMatrix k cs) i j)%Q.
Proof.
  intros H i j. unfold coef, col, vget. cbn [columns].
  destruct (Nat.ltb_spec j (length cs)) as [Hj|Hj].
  - rewrite Forall_forall in H.
    assert (Hc : all_nonneg (nth j cs [])) by (apply H; apply nth_In; exact Hj).
    destruct (Nat.ltb_spec i (length (nth j cs []))) as [Hi|Hi].
    + unfold all_nonneg in Hc. rewrite Forall_forall in Hc.
      apply Hc. apply nth_In. exact Hi.
    + rewrite nth_overflow by exact Hi. lra.
  - rewrite (nth_overflow cs) by exact Hj. destruct i; simpl; lra.
Qed.

Lemma project_dense_nonneg (A w : MatrixXd) (fast_maxit cd_maxit : nat)
      (cd_tol L1 : double) :
  sweep_made cd_maxit cd_tol ->
  forall i j,
    (0 <= coef (Rcpp_project_dense A w true fast_maxit cd_maxit cd_tol L1) i j)%Q.
Proof.
  intros Hcd. unfold Rcpp_project_dense. cbv zeta. apply columns_nonneg.
  apply Forall_forall. intros c Hc. apply in_map_iff in Hc as [i [<- _]].
  apply c_nnls_polished_nonneg. exact Hcd.
Qed.

Lemma project_sparse_nonneg (A : dgCMatrix) (w : MatrixXd)
      (fast_maxit cd_maxit : nat) (cd_tol L1 : double) :
  sweep_made cd_maxit cd_tol ->
  forall i j,
    (0 <= coef (c_project_sparse A w true fast_maxit cd_maxit cd_tol L1) i j)%Q.
Proof.
  intros Hcd. unfold c_project_sparse. cbv zeta. apply columns_nonneg.
  apply Forall_forall. intros c Hc. apply in_map_iff in Hc as [i [<- _]].
  apply c_nnls_polished_nonneg. exact Hcd.
Qed.

(** The loop keeps the shape and a positive diagonal. *)
Lemma nmf_dense_body_positive (A At : MatrixXd) (symmetric : bool)
      (L1_w L1_h : double) (diag : bool) (fast_maxit cd_maxit : nat)
      (cd_tol : double) (k : nat) (s : als_state) :
  sweep_made cd_maxit cd_tol ->
  cols (if symmetric then A else At) = rows A ->
  positive_diagonal k s ->
  positive_diagonal k (nmf_dense_body A At symmetric true L1_w L1_h diag
                                      fast_maxit cd_maxit cd_tol k s).
Proof.
  intros Hcd Hsq [Hsh Hpos]. split; [apply nmf_dense_body_shape_wh; exact Hsh|].
  destruct Hsh as (Hw & Hh & Hd).
  unfold nmf_dense_body. cbv zeta. cbn [als_d].
  set (h0 := Rcpp_project_dense A (als_w s) true fast_maxit cd_maxit cd_tol L1_h).
  destruct (rescale_shape diag k (cols A) h0 (als_d s)) as (Hr1 & Hl1).
  assert (Hh0 : rows h0 = k)
    by (unfold h0; rewrite (proj1 (project_dense_shape _ _ _ _ _ _ _)); exact Hw).
  set (hd := rescale diag k (cols A) h0 (als_d s)) in *.
  assert (Hw0 : forall X : MatrixXd,
             rows (Rcpp_project_dense X (fst hd) true fast_maxit cd_maxit cd_tol L1_w)
             = k /\
             cols (Rcpp_project_dense X (fst hd) true fast_maxit cd_maxit cd_tol L1_w)
             = cols X /\
             tall k (Rcpp_project_dense X (fst hd) true fast_maxit cd_maxit cd_tol
                                        L1_w)).
  { intros X.
    destruct (project_dense_shape X (fst hd) true fast_maxit cd_maxit cd_tol L1_w)
      as (H1 & H2 & H3).
    rewrite Hr1, Hh0 in H1, H3. auto. }
  destruct diag.
  - intros i Hi.
    replace (if symmetric
             then Rcpp_project_dense A (fst hd) true fast_maxit cd_maxit cd_tol L1_w
             else Rcpp_project_dense At (fst hd) true fast_maxit cd_maxit cd_tol L1_w)
      with (Rcpp_project_dense (if symmetric then A else At) (fst hd) true
                               fast_maxit cd_maxit cd_tol L1_w)
      by (destruct symmetric; reflexivity).
    destruct (Hw0 (if symmetric then A else At)) as (H1 & H2 & H3).
    apply rescale_positive; auto.
    + rewrite H2. symmetry. exact Hsq.
    + lia.
    + apply project_dense_nonneg. exact Hcd.
  - cbn [rescale snd] in *. unfold hd. cbn [rescale snd]. exact Hpos.
Qed.

Lemma nmf_sparse_body_positive (A At : dgCMatrix) (symmetric : bool)
      (L1_w L1_h : double) (diag : bool) (fast_maxit cd_maxit : nat)
      (cd_tol : double) (k : nat) (s : als_state) :
  sweep_made cd_maxit cd_tol ->
  dg_cols (if symmetric then A else At) = dg_rows A ->
  positive_diagonal k s ->
  positive_diagonal k (nmf_sparse_body A At symmetric true L1_w L1_h diag
                                       fast_maxit cd_maxit cd_tol k s).
Proof.
  intros Hcd Hsq [Hsh Hpos]. split; [apply nmf_sparse_body_shape_wh; exact Hsh|].
  destruct Hsh as (Hw & Hh & Hd).
  unfold nmf_sparse_body. cbv zeta. cbn [als_d].
  set (h0 := c_project_sparse A (als_w s) true fast_maxit cd_maxit cd_tol L1_h).
  destruct (rescale_shape diag k (dg_cols A) h0 (als_d s)) as (Hr1 & Hl1).
  assert (Hh0 : rows h0 = k)
    by (unfold h0; rewrite (proj1 (project_sparse_shape _ _ _ _ _ _ _)); exact Hw).
  set (hd := rescale diag k (dg_cols A) h0 (als_d s)) in *.
  assert (Hw0 : forall X : dgCMatrix,
             rows (c_project_sparse X (fst hd) true fast_maxit cd_maxit cd_tol L1_w)
             = k /\
             cols (c_project_sparse X (fst hd) true fast_maxit cd_maxit cd_tol L1_w)
             = dg_cols X /\
             tall k (c_project_sparse X (fst hd) true fast_maxit cd_maxit cd_tol
                                      L1_w)).
  { intros X.
    destruct (project_sparse_shape X (fst hd) true fast_maxit cd_maxit cd_tol L1_w)
      as (H1 & H2 & H3).
    rewrite Hr1, Hh0 in H1, H3. auto. }
  destruct diag.
  - intros i Hi.
    replace (if symmetric
             then c_project_sparse A (fst hd) true fast_maxit cd_maxit cd_tol L1_w
             else c_project_sparse At (fst hd) true fast_maxit cd_maxit cd_tol L1_w)
      with (c_project_sparse (if symmetric then A else At) (fst hd) true
                             fast_maxit cd_maxit cd_tol L1_w)
      by (destruct symmetric; reflexivity).
    destruct (Hw0 (if symmetric then A else At)) as (H1 & H2 & H3).
    apply rescale_positive; auto.
    + rewrite H2. symmetry. exact Hsq.
    + lia.
    + apply project_sparse_nonneg. exact Hcd.
  - cbn [rescale snd] in *. unfold hd. cbn [rescale snd]. exact Hpos.
Qed.

Lemma nmf_init_positive (w : MatrixXd) (n : nat) :
  positive_diagonal (rows w) (nmf_init w n).
Proof.
  split; [apply nmf_init_shape_wh|]. intros i Hi. unfold nmf_init.
  cbn [als_d]. rewrite vget_ones by exact Hi. reflexivity.
Qed.

Lemma nmf_finish_positive (k : nat) (diag : bool) (si : als_state * nat) :
  positive_diagonal k (fst si) ->
  forall i, (i < k)%nat -> (0 < vget (res_d (nmf_finish diag si)) i)%Q.
Proof.
  intros [(Hw & Hh & Hd) Hpos] i Hi. unfold nmf_finish. cbv zeta.
  destruct diag; cbn [res_d]; [|apply Hpos; exact Hi].
  pose proof (sort_index_perm (als_d (fst si))) as Hp.
  pose proof (sort_index_length (als_d (fst si))) as Hlen.
  rewrite reorder_spec by exact Hlen. unfold vget at 1.
  rewrite (nth_map_seq (fun i => vget (als_d (fst si))
                                      (nth i (sort_index (als_d (fst si))) 0%nat)))
    by (rewrite Hd; exact Hi).
  apply Hpos.
  assert (Hin : In (nth i (sort_index (als_d (fst si))) 0%nat)
                   (seq 0 (length (als_d (fst si)))))
    by (apply (Permutation_in _ Hp); apply nth_In; lia).
  apply in_seq in Hin. lia.
Qed.

(** (X25) With [nonneg] and at least one sweep of coordinate descent made
    in each solve ([cd_maxit >= 1] and a [cd_tol] between [-2^53] and
    [2^53]), every entry of the [d] that a general driver returns is
    greater than 0, for every input, [diag] and number of iterations: the
    loop only ever stores in [d] the sum of a factor row without negative
    coefficient, plus [1e-15].  (With [symmetric], [A] is square.) *)
Theorem nmf_diagonal_positive :
  forall (A : MatrixXd) (As At : dgCMatrix) (symmetric : bool) (w : MatrixXd)
         (tol : double) (L1_w L1_h : double) (maxit : nat) (diag : bool)
         (fast_maxit cd_maxit : nat) (cd_tol : double),
    sweep_made cd_maxit cd_tol ->
    (symmetric = true -> cols A = rows A) ->
    dg_cols (if symmetric then As else At) = dg_rows As ->
    forall i, (i < rows w)%nat ->
      (0 < vget (res_d (Rcpp_nmf_dense A symmetric w tol true L1_w L1_h maxit diag
                                       fast_maxit cd_maxit cd_tol)) i)%Q /\
      (0 < vget (res_d (Rcpp_nmf_sparse As At symmetric w tol true L1_w L1_h maxit
                                        diag fast_maxit cd_maxit cd_tol)) i)%Q.
Proof.
  intros A As At symmetric w tol L1_w L1_h maxit diag fast_maxit cd_maxit cd_tol
         Hcd Hsq Hsqs i Hi.
  split.
  - unfold Rcpp_nmf_dense. cbv zeta.
    apply (nmf_finish_positive (rows w)); [|exact Hi].
    apply als_loop_inv; [|apply nmf_init_positive].
    intros s Hs. apply nmf_dense_body_positive; auto.
    destruct symmetric; [auto | apply cols_transpose].
  - unfold Rcpp_nmf_sparse. cbv zeta.
    apply (nmf_finish_positive (rows w)); [|exact Hi].
    apply als_loop_inv; [|apply nmf_init_positive].
    intros s Hs. apply nmf_sparse_body_positive; auto.
Qed.

End Diagonal.

Lemma nmf_diagonal_positive_witness :
  let A := mkMatrix 3 [[1; 2; 0]; [0; 1; 3]] in
  let As := mkDgC [0; 1; 1; 2]%nat [0; 2; 4]%nat (3, 2)%nat [1; 2; 1; 3] in
  let At := mkDgC [0; 0; 1; 1]%nat [0; 1; 3; 4]%nat (2, 3)%nat [1; 2; 1; 3] in
  let w := mkMatrix 2 [[1; 0]; [1; 1]; [0; 1]] in
  (0 < vget (res_d (@Rcpp_nmf_dense ExactNumerics A false w (1 # 1000) true 0 0 5
                                    true 10 100 (1 # 100000000))) 0)%Q /\
  (0 < vget (res_d (@Rcpp_nmf_sparse ExactNumerics As At false w (1 # 1000) true
                                     0 0 5 true 10 100 (1 # 100000000))) 0)%Q.
Proof.
  intros A As At w.
  apply (@nmf_diagonal_positive ExactNumerics ExactNumericsSpec A As At false w
           (1 # 1000) 0 0 5%nat true 10%nat 100%nat (1 # 100000000)).
  - split; [lia|]. unfold two53. split; lra.
  - discriminate.
  - reflexivity.
  - simpl. lia.
Defined.

(* ------------------------------------------------------------------ *)
(** ** The helpers [reorder] and [cor], and the loss weights *)

(** (X26) [reorder] by a permutation of the positions loses and repeats
    nothing: the result is a permutation of the vector. *)
Theorem reorder_permutes :
  forall (x : VectorXd) (ind : list nat),
    Permutation ind (seq 0 (length x)) -> Permutation (reorder x ind) x.
Proof.
  intros x ind Hp.
  assert (Hlen : length ind = length x)
    by (rewrite (Permutation_length Hp); apply length_seq).
  rewrite reorder_spec by exact Hlen.
  assert (H1 : map (fun i => vget x (nth i ind 0%nat)) (seq 0 (length x))
               = map (vget x) ind).
  { rewrite <- Hlen.
    transitivity (map (vget x) (map (fun i => nth i ind 0%nat)
                                    (seq 0 (length ind)))).
    - rewrite map_map. reflexivity.
    - rewrite map_nth_seq. reflexivity. }
  rewrite H1. rewrite (Permutation_map (vget x) Hp).
  unfold vget. rewrite map_nth_seq. reflexivity.
Qed.

Lemma reorder_permutes_witness :
  Permutation (reorder [5; 7; 9] [2; 0; 1]%nat) [5; 7; 9].
Proof.
  apply (reorder_permutes [5; 7; 9] [2; 0; 1]%nat).
  simpl. apply Permutation_sym.
  apply (perm_trans (l' := [0; 2; 1]%nat)); [apply perm_skip, perm_swap|].
  apply perm_swap.
Defined.

Lemma dmul_comm (x y : double) : (x * y)%D = (y * x)%D.
Proof.
  unfold dmul. f_equal. unfold Qmult.
  rewrite (Z.mul_comm (Qnum x)), (Pos.mul_comm (Qden x)). reflexivity.
Qed.

Lemma cor_step_swap (x y : MatrixXd) (s : cor_sums) (i : nat) :
  cor_step y x (mkCorSums (sum_y s) (sum_x s) (sum_xy s) (sum_y2 s) (sum_x2 s)) i
  = let s' := cor_step x y s i in
    mkCorSums (sum_y s') (sum_x s') (sum_xy s') (sum_y2 s') (sum_x2 s').
Proof.
  unfold cor_step. cbv zeta. cbn [sum_x sum_y sum_xy sum_x2 sum_y2].
  rewrite (dmul_comm (nth i (data y) 0) (nth i (data x) 0)). reflexivity.
Qed.

Lemma cor_sums_swap (x y : MatrixXd) (l : list nat) :
  forall s : cor_sums,
    fold_left (cor_step y x) l
              (mkCorSums (sum_y s) (sum_x s) (sum_xy s) (sum_y2 s) (sum_x2 s))
    = let s' := fold_left (cor_step x y) l s in
      mkCorSums (sum_y s') (sum_x s') (sum_xy s') (sum_y2 s') (sum_x2 s').
Proof.
  induction l as [|i l IH]; intros s; [reflexivity|].
  cbn [fold_left]. rewrite cor_step_swap. cbv zeta. apply IH.
Qed.

(** (X27) [cor] does not depend on the order of its two arguments, for
    two matrices with the same number of coefficients. *)
Theorem cor_symmetric :
  forall (N : Numerics) (x y : MatrixXd),
    size x = size y -> cor x y = cor y x.
Proof.
  intros N x y Hsize. unfold cor. cbv zeta. rewrite <- Hsize.
  pose proof (cor_sums_swap x y (seq 0 (size x)) (mkCorSums 0 0 0 0 0)) as H.
  cbn [sum_x sum_y sum_xy sum_x2 sum_y2] in H. cbv zeta in H. rewrite H.
  cbn [sum_x sum_y sum_xy sum_x2 sum_y2].
  set (s := fold_left (cor_step x y) (seq 0 (size x)) (mkCorSums 0 0 0 0 0)).
  rewrite (dmul_comm (sum_y s) (sum_x s)).
  rewrite (dmul_comm (Qnat (size x) * sum_y2 s - sum_y s * sum_y s)%D).
  reflexivity.
Qed.

Lemma cor_symmetric_witness :
  let x := mkMatrix 2 [[1; 2]; [3; 5]] in
  let y := mkMatrix 2 [[2; 1]; [4; 4]] in
  @cor ExactNumerics x y = @cor ExactNumerics y x.
Proof.
  intros x y. apply (cor_symmetric ExactNumerics x y). reflexivity.
Defined.

Lemma scale_col_loop (i : nat) (c : double) (l : list nat) :
  forall m : MatrixXd,
    NoDup l -> (i < cols m)%nat ->
    (forall j, In j l -> (j < length (col m i))%nat) ->
    let m' := fold_left (fun m0 j => set_coef m0 j i (coef m0 j i * c)%D) l m in
    cols m' = cols m /\
    (forall i', length (col m' i') = length (col m i')) /\
    (forall j, In j l -> coef m' j i = (coef m j i * c)%D) /\
    (forall j i', i' <> i \/ ~ In j l -> coef m' j i' = coef m j i').
Proof.
  induction l as [|j l IH]; intros m Hnd Hi Hl; simpl.
  - repeat split; auto. intros j [].
  - inversion Hnd as [|? ? Hnotin Hnd']; subst.
    set (m1 := set_coef m j i (coef m j i * c)%D).
    destruct (IH m1 Hnd') as [Hc [Hlen [Hin Hout]]].
    { unfold m1. rewrite cols_set_coef. exact Hi. }
    { intros j' Hj'. unfold m1. rewrite col_length_set_coef.
      apply Hl; simpl; auto. }
    assert (Hj : (j < length (col m i))%nat) by (apply Hl; simpl; auto).
    split; [|split; [|split]].
    + rewrite Hc. apply cols_set_coef.
    + intros i'. rewrite Hlen. apply col_length_set_coef.
    + intros j' [<-|Hj'].
      * rewrite Hout by (right; exact Hnotin).
        apply coef_set_coef_same; assumption.
      * rewrite Hin by exact Hj'. unfold m1.
        rewrite coef_set_coef_other; auto.
        left. intros ->. contradiction.
    + intros j' i' H. rewrite Hout.
      * unfold m1. apply coef_set_coef_other.
        destruct H as [H|H]; [right; congruence|].
        left. intros ->. apply H. simpl; auto.
      * destruct H as [H|H]; [left; exact H|].
        right. intros Hj'. apply H. simpl; auto.
Qed.

Lemma scale_cols_loop (d : VectorXd) (n : nat) (l : list nat) :
  forall m : MatrixXd,
    NoDup l -> (forall i, In i l -> (i < cols m)%nat) ->
    (forall i, In i l -> (n <= length (col m i))%nat) ->
    let m' := fold_left
                (fun w' i =>
                   fold_left (fun w'' j => set_coef w'' j i (coef w'' j i * vget d i)%D)
                             (seq 0 n) w') l m in
    cols m' = cols m /\
    (forall i', length (col m' i') = length (col m i')) /\
    (forall j i, (j < n)%nat -> In i l -> coef m' j i = (coef m j i * vget d i)%D) /\
    (forall j i, ~ In i l \/ (n <= j)%nat -> coef m' j i = coef m j i).
Proof.
  induction l as [|i l IH]; intros m Hnd Hc Hlen; cbn [fold_left]; cbv zeta.
  - repeat split; auto. intros j i _ [].
  - inversion Hnd as [|? ? Hnotin Hnd']; subst.
    destruct (scale_col_loop i (vget d i) (seq 0 n) m) as (Hc1 & Hl1 & Hin1 & Hout1).
    { apply seq_NoDup. }
    { apply Hc; simpl; auto. }
    { intros j Hj. apply in_seq in Hj.
      specialize (Hlen i (or_introl eq_refl)). lia. }
    set (m1 := fold_left _ (seq 0 n) m) in *.
    destruct (IH m1 Hnd') as (Hc2 & Hl2 & Hin2 & Hout2).
    { intros i' Hi'. rewrite Hc1. apply Hc; simpl; auto. }
    { intros i' Hi'. rewrite Hl1. apply Hlen; simpl; auto. }
    cbv zeta in Hc2, Hl2, Hin2, Hout2.
    split; [congruence|]. split; [intros; rewrite Hl2; apply Hl1|]. split.
    + intros j i' Hj [<-|Hi'].
      * rewrite Hout2 by (left; exact Hnotin).
        apply Hin1. apply in_seq. lia.
      * rewrite Hin2 by assumption. rewrite Hout1; [reflexivity|].
        left. intros ->. contradiction.
    + intros j i' H. rewrite Hout2.
      * apply Hout1. destruct H as [H|H].
        -- left. intros ->. apply H. simpl; auto.
        -- right. intros Hj. apply in_seq in Hj. lia.
      * destruct H as [H|H]; [left|right; exact H].
        intros Hi'. apply H. simpl; auto.
Qed.

(** (X28) The loop "multiply w by diagonal" of the loss functions turns a
    matrix [w] into [w * diag(d)]: coefficient [(j, i)] becomes
    [w(j, i) * d(i)], each one multiplied once, and the shape is kept. *)
Theorem scale_columns_coef :
  forall (w : MatrixXd) (d : VectorXd),
    well_formed w ->
    rows (scale_columns w d) = rows w /\ cols (scale_columns w d) = cols w /\
    forall j i, (j < rows w)%nat -> (i < cols w)%nat ->
      coef (scale_columns w d) j i = (coef w j i * vget d i)%D.
Proof.
  intros w d Hwf. unfold scale_columns.
  destruct (scale_cols_loop d (rows w) (seq 0 (cols w)) w) as (Hc & _ & Hin & _).
  { apply seq_NoDup. }
  { intros i Hi. apply in_seq in Hi. lia. }
  { intros i Hi. apply in_seq in Hi. unfold well_formed in Hwf.
    rewrite Forall_forall in Hwf. unfold col.
    rewrite (Hwf (nth i (columns w) [])); [lia|]. apply nth_In.
    unfold cols in Hi. lia. }
  split; [|split; [exact Hc|]].
  - assert (H : forall (l : list nat) (m : MatrixXd),
               rows (fold_left
                       (fun w' i =>
                          fold_left (fun w'' j =>
                                       set_coef w'' j i (coef w'' j i * vget d i)%D)
                                    (seq 0 (rows w)) w') l m) = rows m).
    { induction l as [|i l IH]; intros m; cbn [fold_left]; [reflexivity|].
      rewrite IH. generalize (seq 0 (rows w)). intros l'. revert m.
      induction l' as [|j l' IH']; intros m; cbn [fold_left]; [reflexivity|].
      rewrite IH'. reflexivity. }
    apply H.
  - intros j i Hj Hi. apply Hin; [exact Hj | apply in_seq; lia].
Qed.

Lemma scale_columns_coef_witness :
  let w := mkMatrix 2 [[1; 2]; [3; 4]] in
  rows (scale_columns w [5; 7]) = rows w /\
  cols (scale_columns w [5; 7]) = cols w /\
  forall j i, (j < rows w)%nat -> (i < cols w)%nat ->
    coef (scale_columns w [5; 7]) j i = (coef w j i * vget [5; 7] i)%D.
Proof.
  intros w. apply (scale_columns_coef w [5; 7]).
  unfold well_formed. repeat constructor.
Defined.

Section NoDiagonal.
Context {N : Numerics}.

Lemma rescale_off (k n : nat) (m : MatrixXd) (d : VectorXd) :
  rescale false k n m d = (m, d).
Proof. reflexivity. Qed.

(** (X29) With [diag = false] the general drivers never touch [d] and
    never reorder: they return [d] all ones, [H] as the loop left it and
    [W] as the loop left it, transposed, for every input and every number
    of iterations. *)
Theorem nmf_without_diag :
  forall (A : MatrixXd) (As At : dgCMatrix) (symmetric : bool) (w : MatrixXd)
         (tol : double) (nonneg : bool) (L1_w L1_h : double) (maxit : nat)
         (fast_maxit cd_maxit : nat) (cd_tol : double)
         (s : als_state) (r : nmf_result),
    (s = fst (als_loop
                (nmf_dense_body A (if symmetric then mkMatrix 0 [] else transpose A)
                                symmetric nonneg L1_w L1_h false fast_maxit
                                cd_maxit cd_tol (rows w))
                tol maxit 0 (nmf_init w (cols A))) /\
     r = Rcpp_nmf_dense A symmetric w tol nonneg L1_w L1_h maxit false
                        fast_maxit cd_maxit cd_tol) \/
    (s = fst (als_loop
                (nmf_sparse_body As At symmetric nonneg L1_w L1_h false fast_maxit
                                 cd_maxit cd_tol (rows w))
                tol maxit 0 (nmf_init w (dg_cols As))) /\
     r = Rcpp_nmf_sparse As At symmetric w tol nonneg L1_w L1_h maxit false
                         fast_maxit cd_maxit cd_tol) ->
    res_d r = ones (rows w) /\ res_h r = als_h s /\ res_w r = transpose (als_w s).
Proof.
  intros A As At symmetric w tol nonneg L1_w L1_h maxit fast_maxit cd_maxit
         cd_tol s r H.
  assert (Hd : als_d s = ones (rows w)).
  { destruct H as [[-> _]|[-> _]];
      apply (als_loop_inv (fun s => als_d s = ones (rows w)));
      try reflexivity; intros s0 Hs0;
      [unfold nmf_dense_body | unfold nmf_sparse_body]; cbv zeta;
      cbn [als_d]; rewrite !rescale_off; exact Hs0. }
  destruct H as [[Hs ->]|[Hs ->]];
    [unfold Rcpp_nmf_dense | unfold Rcpp_nmf_sparse]; cbv zeta;
    unfold nmf_finish; cbn [res_d res_h res_w]; rewrite <- Hs; auto.
Qed.

End NoDiagonal.

Lemma nmf_without_diag_witness :
  let A := mkMatrix 3 [[1; 2; 0]; [0; 1; 3]] in
  let w := mkMatrix 2 [[1; 0]; [1; 1]; [0; 1]] in
  let tol := 1 # 1000 in
  let cd_tol := 1 # 100000000 in
  let s := fst (als_loop
                  (@nmf_dense_body ExactNumerics A (transpose A) false true 0 0
                                   false 10 100 cd_tol (rows w))
                  tol 1 0 (nmf_init w (cols A))) in
  let r := @Rcpp_nmf_dense ExactNumerics A false w tol true 0 0 1 false
                           10 100 cd_tol in
  res_d r = ones (rows w) /\ res_h r = als_h s /\ res_w r = transpose (als_w s).
Proof.
  intros A w tol cd_tol s r.
  apply (@nmf_without_diag ExactNumerics A (mkDgC [] [] (0, 0)%nat [])
           (mkDgC [] [] (0, 0)%nat []) false w tol true 0 0 1%nat 10%nat 100%nat
           cd_tol s r).
  left. split; reflexivity.
Defined.

(* ------------------------------------------------------------------ *)
(** ** Coordinate descent: the objective never increases *)

Lemma Qsum_app {A : Type} (f : A -> Q) (l1 l2 : list A) :
  (Qsum f (l1 ++ l2) == Qsum f l1 + Qsum f l2)%Q.
Proof.
  induction l1 as [|x l1 IH]; simpl; [lra|]. rewrite IH. lra.
Qed.

Lemma Qsum_add_scaled {A : Type} (f g : A -> Q) (c : Q) (l : list A) :
  (Qsum (fun x => f x + c * g x) l == Qsum f l + c * Qsum g l)%Q.
Proof.
  induction l as [|x l IH]; simpl; [lra|]. rewrite IH. ring.
Qed.

Lemma dot_Qsum (u v : VectorXd) :
  (dot u v == Qsum (fun l => vget u l * vget v l)%Q (seq 0 (length u)))%Q.
Proof.
  unfold dot. rewrite vsum_map_Qsum. apply Qsum_ext. intros; apply dmul_eq.
Qed.

Lemma Qsum_upd (x : VectorXd) (i : nat) (v : double) (F : nat -> Q) (n : nat) :
  (i < length x)%nat ->
  (Qsum (fun j => vget (upd i v x) j * F j) (seq 0 n)
   == Qsum (fun j => vget x j * F j) (seq 0 n)
      + (if (i <? n)%nat then (v - vget x i) * F i else 0))%Q.
Proof.
  intros Hi. induction n as [|n IH]; [simpl; lra|].
  rewrite seq_S, !Qsum_app, IH. cbn [Nat.add Qsum fold_right].
  rewrite (vget_upd i n v x Hi).
  destruct (Nat.eqb_spec i n) as [<-|Hne].
  - rewrite Nat.ltb_irrefl.
    destruct (Nat.ltb_spec i (S i)); [|lia]. ring.
  - destruct (Nat.ltb_spec i n), (Nat.ltb_spec i (S n)); try lia; ring.
Qed.

Lemma dot_upd_left (x y : VectorXd) (i : nat) (v : double) :
  (i < length x)%nat ->
  (dot (upd i v x) y == dot x y + (v - vget x i) * vget y i)%Q.
Proof.
  intros Hi. rewrite !dot_Qsum, upd_length.
  rewrite (Qsum_upd x i v (vget y) (length x) Hi).
  destruct (Nat.ltb_spec i (length x)); [reflexivity|lia].
Qed.

Lemma mvec_upd (a : MatrixXd) (x : VectorXd) (i j : nat) (v : double) :
  (j < rows a)%nat -> (i < length x)%nat ->
  (vget (mvec a (upd i v x)) j
   == vget (mvec a x) j + coef a j i * (v - vget x i))%Q.
Proof.
  intros Hj Hi. rewrite !vget_mvec by exact Hj.
  rewrite dot_after_upd by exact Hi. rewrite vget_row. reflexivity.
Qed.

Lemma mvec_row_sum (n : nat) (a : MatrixXd) (x : VectorXd) (i : nat) :
  gram_like n a -> (i < n)%nat ->
  (Qsum (fun j => vget x j * coef a j i)%Q (seq 0 n) == vget (mvec a x) i)%Q.
Proof.
  intros (Hr & Hc & Hsym & _) Hi.
  rewrite vget_mvec by lia. rewrite dot_Qsum.
  assert (Hlen : length (row a i) = n)
    by (unfold row; rewrite length_map; exact Hc).
  rewrite Hlen. apply Qsum_ext. intros j Hj. apply in_seq in Hj.
  rewrite vget_row, (Hsym j i) by lia. ring.
Qed.

(** The change of the objective when coordinate [i] moves to [v]. *)
Lemma objective_upd (n : nat) (a : MatrixXd) (b x : VectorXd) (i : nat)
      (v : double) :
  gram_like n a -> length x = n -> (i < n)%nat ->
  (objective a b (upd i v x)
   == objective a b x
      + (v - vget x i) * (vget (mvec a x) i - vget b i)
      + (1 # 2) * coef a i i * ((v - vget x i) * (v - vget x i)))%Q.
Proof.
  intros Hg Hlen Hi. pose proof Hg as (Hr & Hc & Hsym & _).
  assert (Hix : (i < length x)%nat) by lia.
  unfold objective.
  rewrite (dot_upd_left x b i v Hix).
  rewrite (dot_upd_left x (mvec a (upd i v x)) i v Hix).
  rewrite (mvec_upd a x i i v) by lia.
  assert (H1 : (dot x (mvec a (upd i v x))
                == dot x (mvec a x) + (v - vget x i) * vget (mvec a x) i)%Q).
  { rewrite !dot_Qsum, Hlen.
    rewrite (Qsum_ext _ (fun j => vget x j * vget (mvec a x) j
                                  + (v - vget x i) * (vget x j * coef a j i))%Q).
    - rewrite (Qsum_add_scaled (fun j => vget x j * vget (mvec a x) j)%Q
                               (fun j => vget x j * coef a j i)%Q).
      rewrite (mvec_row_sum n a x i Hg Hi). reflexivity.
    - intros j Hj. apply in_seq in Hj.
      rewrite (mvec_upd a x i j v) by lia. ring. }
  rewrite H1. ring.
Qed.

Lemma descent_step (c g q d : Q) :
  (0 < c)%Q -> (q * c == g)%Q -> (d == - q)%Q ->
  (d * g + (1 # 2) * c * (d * d) <= 0)%Q.
Proof.
  intros Hc Hq Hd. rewrite Hd, <- Hq.
  assert (H : (- q * (q * c) + (1 # 2) * c * (- q * - q) == - ((1 # 2) * c * (q * q)))%Q)
    by ring.
  rewrite H. assert (0 <= q * q)%Q by nra. nra.
Qed.

Lemma descent_clamped (c g q xi : Q) :
  (0 < c)%Q -> (q * c == g)%Q -> (0 <= xi)%Q -> (xi - q < 0)%Q ->
  ((0 - xi) * g + (1 # 2) * c * ((0 - xi) * (0 - xi)) <= 0)%Q.
Proof.
  intros Hc Hq Hx Hlt. rewrite <- Hq.
  assert (H : ((0 - xi) * (q * c) + (1 # 2) * c * ((0 - xi) * (0 - xi))
               == c * (xi * ((1 # 2) * xi - q)))%Q) by ring.
  rewrite H.
  assert (Hp : (xi * ((1 # 2) * xi - q) <= 0)%Q) by nra.
  nra.
Qed.

Lemma cd_coord_descent (n : nat) (a : MatrixXd) (b : VectorXd) (nonneg : bool)
      (s : cd_state) (i : nat) :
  gram_like n a -> cd_invariant a b nonneg n s -> (i < n)%nat ->
  (objective a b (cd_x (cd_coord a nonneg s i)) <= objective a b (cd_x s))%Q.
Proof.
  intros Hg ((_ & Hb0) & Hlen & Hsign) Hi.
  pose proof Hg as (Hr & _ & _ & Hdiag).
  unfold cd_coord. cbv zeta. destruct (Qneqb _ _); [|lra].
  cbn [cd_x]. rewrite (objective_upd n a b (cd_x s) i _ Hg Hlen Hi).
  specialize (Hb0 i ltac:(lia)). specialize (Hdiag i Hi).
  set (g := (vget (mvec a (cd_x s)) i - vget b i)%Q) in *.
  set (q := (vget (cd_b0 s) i / coef a i i)%D).
  assert (Hq : (q * coef a i i == g)%Q).
  { unfold q. rewrite ddiv_eq, Hb0. field. lra. }
  unfold cd_proposal. cbv zeta. fold q.
  destruct (nonneg && Qltb (vget (cd_x s) i - q) 0) eqn:E.
  - apply andb_true_iff in E as [-> E]. apply Qltb_lt in E.
    rewrite dsub_eq in E.
    pose proof (descent_clamped (coef a i i) g q (vget (cd_x s) i) Hdiag Hq
                                (Hsign eq_refl i) E).
    lra.
  - assert (Hd : ((vget (cd_x s) i - q)%D - vget (cd_x s) i == - q)%Q)
      by (rewrite dsub_eq; ring).
    pose proof (descent_step (coef a i i) g q _ Hdiag Hq Hd). lra.
Qed.

Lemma cd_coord_invariant (n : nat) (a : MatrixXd) (b : VectorXd) (nonneg : bool)
      (s : cd_state) (i : nat) :
  cd_invariant a b nonneg n s -> (i < n)%nat ->
  cd_invariant a b nonneg n (cd_coord a nonneg s i).
Proof.
  intros (Hg & Hlen & Hsign) Hi. split; [|split].
  - apply cd_coord_gradient; [lia | exact Hg].
  - rewrite cd_coord_length. exact Hlen.
  - intros -> j. destruct (Nat.eq_dec i j) as [<-|Hne].
    + apply cd_coord_nonneg. lia.
    + rewrite cd_coord_other by exact Hne. apply Hsign. reflexivity.
Qed.

Lemma cd_coords_descent (n : nat) (a : MatrixXd) (b : VectorXd) (nonneg : bool)
      (l : list nat) :
  gram_like n a -> (forall i, In i l -> (i < n)%nat) ->
  forall s : cd_state,
    cd_invariant a b nonneg n s ->
    cd_invariant a b nonneg n (fold_left (cd_coord a nonneg) l s) /\
    (objective a b (cd_x (fold_left (cd_coord a nonneg) l s))
     <= objective a b (cd_x s))%Q.
Proof.
  intros Hg. induction l as [|i l IH]; intros Hl s Hs; cbn [fold_left].
  - split; [exact Hs | lra].
  - assert (Hi : (i < n)%nat) by (apply Hl; simpl; auto).
    destruct (IH (fun j Hj => Hl j (or_intror Hj)) (cd_coord a nonneg s i)
                 (cd_coord_invariant n a b nonneg s i Hs Hi)) as [Hinv Hle].
    split; [exact Hinv|].
    pose proof (cd_coord_descent n a b nonneg s i Hg Hs Hi). lra.
Qed.

Lemma cd_loop_descent (n : nat) (a : MatrixXd) (b : VectorXd) (nonneg : bool)
      (cd_tol : double) (fuel : nat) :
  gram_like n a ->
  forall (it : nat) (s : cd_state),
    cd_invariant a b nonneg n s ->
    (objective a b (cd_x (fst (cd_loop a nonneg cd_tol fuel it s)))
     <= objective a b (cd_x s))%Q.
Proof.
  intros Hg. induction fuel as [|fuel IH]; intros it s Hs; cbn [cd_loop].
  - cbn [fst]. lra.
  - destruct (Qltb cd_tol (cd_tol_it s)); [|cbn [fst]; lra].
    destruct Hs as (Hgr & Hlen & Hsign).
    destruct (cd_coords_descent n a b nonneg (seq 0 (length (cd_x s))) Hg
                ltac:(intros i Hi; apply in_seq in Hi; lia)
                (mkCd (cd_x s) (cd_b0 s) 0)) as [Hinv Hle].
    { split; [exact Hgr|]. split; [exact Hlen | exact Hsign]. }
    specialize (IH (S it) (cd_sweep a nonneg s) Hinv).
    unfold cd_sweep in *. cbn [cd_x] in Hle. lra.
Qed.

(** (X30) Coordinate descent is a descent method: for a symmetric matrix
    [a] with positive diagonal, and with [nonneg] a start without negative
    component, the objective [x' a x / 2 - b' x] at the vector [c_cdnnls]
    returns is not greater than at the vector it was given, whatever the
    limits. *)
Theorem cdnnls_never_increases_objective :
  forall (a : MatrixXd) (b x : VectorXd) (cd_maxit : nat) (cd_tol : double)
         (nonneg : bool),
    gram_like (length x) a ->
    (nonneg = true -> all_nonneg x) ->
    (objective a b (c_cdnnls a b x cd_maxit cd_tol nonneg) <= objective a b x)%Q.
Proof.
  intros a b x cd_maxit cd_tol nonneg Hg Hx.
  unfold c_cdnnls, c_cdnnls_run.
  apply (cd_loop_descent (length x) a b nonneg cd_tol cd_maxit Hg 0
                         (cd_init a b x cd_tol)).
  pose proof Hg as (Hr & _).
  split; [|split].
  - unfold cd_init, gradient_kept. cbn [cd_b0 cd_x].
    assert (Hlen0 : length (mvec a x) = rows a)
      by (unfold mvec; rewrite length_map, length_seq; reflexivity).
    rewrite Hlen0, length_map, length_seq. split; [reflexivity|].
    intros k Hk. unfold vget at 1.
    rewrite (nth_map_seq (fun i => vget (mvec a x) i - vget b i)) by exact Hk.
    apply dsub_eq.
  - reflexivity.
  - intros Hn j. cbn [cd_init cd_x]. specialize (Hx Hn).
    destruct (Nat.ltb_spec j (length x)) as [Hj|Hj].
    + unfold all_nonneg in Hx. rewrite Forall_forall in Hx.
      apply Hx. apply nth_In. exact Hj.
    + unfold vget. rewrite nth_overflow by exact Hj. lra.
Qed.

(** The system of scenario S2 from [(1, 1)]. *)
Lemma cdnnls_never_increases_objective_witness :
  let a := mkMatrix 2 [[2; 1]; [1; 2]] in
  (objective a [1; -1] (c_cdnnls a [1; -1] [1; 1] 100 (1 # 100000000) true)
   <= objective a [1; -1] [1; 1])%Q.
Proof.
  intros a.
  apply (cdnnls_never_increases_objective a [1; -1] [1; 1] 100 (1 # 100000000)
           true).
  - split; [reflexivity|]. split; [reflexivity|]. split.
    + intros i j Hi Hj. simpl in Hi, Hj.
      destruct i as [|[|i]]; destruct j as [|[|j]]; try lia; reflexivity.
    + intros i Hi. simpl in Hi.
      destruct i as [|[|i]]; try lia; reflexivity.
  - intros _. repeat constructor; vm_compute; discriminate.
Defined.
